(** * Mandelbrot / Julia explorer: fractal evaluation and viewport engine

    A shallow embedding of the fragment shader ([shaders/mandelbrot.frag]),
    of the viewport controller ([components/MandelbrotRenderer.tsx]), of
    the shareable-state codec ([hooks/useUrlState.ts]) and of the
    formatting functions of the display ([components/HUD.tsx]), followed
    by the properties of the design document that can be settled on them
    (C1 to C10) and by further properties read off the code (X3 to X30).

    Numbers.  The program computes with binary floating point.  The
    embedding is the exact-arithmetic idealisation: a finite value is a
    rational ([Q]), every operation is exact, and the two logarithms of the
    program (the smooth-colouring formula and the iteration budget) are
    taken in [R].  Rounding is modelled in the two places where it decides
    an outcome: the escape test of the single-precision evaluator
    ([Rounded], whose arithmetic takes the rounding as a parameter) and
    the floor of the iteration budget ([JS.Platform], the logarithm and
    the rounding of the platform).  Elsewhere rounding, overflow and the
    sign of zero are outside the model.  On the TypeScript side the
    exceptional values of a JavaScript number ([NaN], [Infinity],
    [-Infinity]) are kept, because the decoding path can produce them. *)

From Stdlib Require Import ZArith NArith QArith Qabs Qround Qcanon Qpower.
From Stdlib Require Import Qreals Reals.
From Stdlib Require Import Lia Psatz Qfield Bool List String Ascii.
Import ListNotations.

(** ** Comparison of rationals as booleans *)

Definition Qltb (a b : Q) : bool := negb (Qle_bool b a).

(* ================================================================== *)
(** * Part I: the program *)
(* ================================================================== *)

(** ** The fragment shader *)

Module Shader.

Open Scope Q_scope.

(** GLSL [vec2]; also used as an extended-precision number [(hi, lo)]. *)
Record vec2 : Type := Vec2 { X : Q; Y : Q }.

(** GLSL [vec4], components [x y z w]. *)
Record vec4 : Type := Vec4 { X4 : Q; Y4 : Q; Z4 : Q; W4 : Q }.

Definition vadd (a b : vec2) : vec2 := Vec2 (X a + X b) (Y a + Y b).
Definition vsub (a b : vec2) : vec2 := Vec2 (X a - X b) (Y a - Y b).
Definition vdivs (a : vec2) (s : Q) : vec2 := Vec2 (X a / s) (Y a / s).
Definition dot (a b : vec2) : Q := X a * X b + Y a * Y b.

(** *** Double-precision emulation helpers *)

(** [vec2 ds_add(vec2 a, vec2 b)] *)
Definition ds_add (a b : vec2) : vec2 :=
  let s := X a + X b in
  let v := s - X a in
  let e := (X a - (s - v)) + (X b - v) + Y a + Y b in
  Vec2 s e.

(** [vec2 ds_add(vec2 a, float b)] *)
Definition ds_add_float (a : vec2) (b : Q) : vec2 :=
  let s := X a + b in
  let v := s - X a in
  let e := (X a - (s - v)) + (b - v) + Y a in
  Vec2 s e.

(** [vec2 ds_mul(vec2 a, vec2 b)] *)
Definition ds_mul (a b : vec2) : vec2 :=
  let c := 134217729 in
  let ahi := c * X a - (c * X a - X a) in
  let alo := X a - ahi in
  let bhi := c * X b - (c * X b - X b) in
  let blo := X b - bhi in
  let p := X a * X b in
  let e := ((ahi * bhi - p) + ahi * blo + alo * bhi + alo * blo)
           + X a * Y b + Y a * X b in
  Vec2 p e.

(** [vec2 ds_mul(vec2 a, float b)] *)
Definition ds_mul_float (a : vec2) (b : Q) : vec2 :=
  let c := 134217729 in
  let ahi := c * X a - (c * X a - X a) in
  let alo := X a - ahi in
  let bhi := c * b - (c * b - b) in
  let blo := b - bhi in
  let p := X a * b in
  let e := ((ahi * bhi - p) + ahi * blo + alo * bhi + alo * blo) + Y a * b in
  Vec2 p e.

(** [vec2 ds_set(float a)] *)
Definition ds_set (a : Q) : vec2 := Vec2 a 0.

(** [void complexSquareDP(vec2 zx, vec2 zy, out vec2 outX, out vec2 outY)];
    the two [out] parameters are returned as a pair. *)
Definition complexSquareDP (zx zy : vec2) : vec2 * vec2 :=
  let xx := ds_mul zx zx in
  let yy := ds_mul zy zy in
  let xy := ds_mul zx zy in
  (ds_add xx (ds_mul_float yy (-1)), ds_mul_float xy 2).

(** [vec2 complexSquare(vec2 z)] *)
Definition complexSquare (z : vec2) : vec2 :=
  let x := X z in
  let y := Y z in
  Vec2 (x * x - y * y) (2 * x * y).

(** *** The escape-time loop *)

(** What a run of the loop of [mandelbrot] / [mandelbrotDP] ends with:
    the [return] inside the escape test, at counter [i] with the
    magnitude that passed the test, or falling out of the loop. *)
Inductive loopExit : Type :=
| Escaped (i : Z) (zMagnitudeSquared : Q)
| Exhausted.

(** The value computed inside the escape test:
    [logZn = log(m) / 2], [nu = log(logZn / log(2)) / log(2)],
    [smoothValue = float(i) + 1.0 - nu]. *)
Definition smoothValue (i : Z) (zMagnitudeSquared : Q) : R :=
  let logZn := (ln (Q2R zMagnitudeSquared) / 2)%R in
  let nu := (ln (logZn / ln 2) / ln 2)%R in
  (IZR i + 1 - nu)%R.

(** The float returned by the evaluators. *)
Definition returned (e : loopExit) : R :=
  match e with
  | Escaped i m => smoothValue i m
  | Exhausted => (-1)%R
  end.

Section Evaluator.

Variable u_maxIterations : Z.

(** [for (int i = 0; i < 2000; i++) { if (i >= u_maxIterations) break; ... }]
    with [fuel] the number of rounds left before [i] reaches 2000. *)
Fixpoint mandelbrot_loop (c : vec2) (fuel : nat) (i : Z) (z : vec2)
  : loopExit :=
  match fuel with
  | O => Exhausted
  | S fuel' =>
      if (i >=? u_maxIterations)%Z then Exhausted
      else
        let z := vadd (complexSquare z) c in
        let zMagnitudeSquared := dot z z in
        if Qltb 256 zMagnitudeSquared then Escaped i zMagnitudeSquared
        else mandelbrot_loop c fuel' (i + 1)%Z z
  end.

(** [float mandelbrot(vec2 c, vec2 z0)] *)
Definition mandelbrot_exit (c z0 : vec2) : loopExit :=
  mandelbrot_loop c 2000 0%Z z0.

Definition mandelbrot (c z0 : vec2) : R := returned (mandelbrot_exit c z0).

Fixpoint mandelbrotDP_loop (cx cy : vec2) (fuel : nat) (i : Z) (zx zy : vec2)
  : loopExit :=
  match fuel with
  | O => Exhausted
  | S fuel' =>
      if (i >=? u_maxIterations)%Z then Exhausted
      else
        let '(newZx, newZy) := complexSquareDP zx zy in
        let zx := ds_add newZx cx in
        let zy := ds_add newZy cy in
        let zMagnitudeSquared := X zx * X zx + X zy * X zy in
        if Qltb 256 zMagnitudeSquared then Escaped i zMagnitudeSquared
        else mandelbrotDP_loop cx cy fuel' (i + 1)%Z zx zy
  end.

(** [float mandelbrotDP(vec2 cx, vec2 cy, vec2 z0x, vec2 z0y)] *)
Definition mandelbrotDP_exit (cx cy z0x z0y : vec2) : loopExit :=
  mandelbrotDP_loop cx cy 2000 0%Z z0x z0y.

Definition mandelbrotDP (cx cy z0x z0y : vec2) : R :=
  returned (mandelbrotDP_exit cx cy z0x z0y).

End Evaluator.

(** *** [main] *)

Record Uniforms : Type := {
  u_center : vec2;
  u_centerDP : vec4;
  u_zoom : Q;
  u_useDP : bool;
  u_maxIterations : Z;
  u_colorPalette : Z;
  u_isJulia : bool;
  u_juliaC : vec2;
  u_resolution : vec2;
  u_time : Q
}.

(** The aspect-corrected screen coordinate [uv] of [main]. *)
Definition main_uv (u : Uniforms) (vUv : vec2) : vec2 :=
  let uv := vsub vUv (Vec2 0.5 0.5) in
  Vec2 (X uv * (X (u_resolution u) / Y (u_resolution u))) (Y uv).

(** The extended-precision branch of [main], up to the value of [iter]. *)
Definition main_iter_DP (u : Uniforms) (vUv : vec2) : R :=
  let uv := main_uv u vUv in
  let offset := vdivs uv (u_zoom u) in
  let cx := Vec2 (X4 (u_centerDP u)) (Y4 (u_centerDP u)) in
  let cy := Vec2 (Z4 (u_centerDP u)) (W4 (u_centerDP u)) in
  let cx := ds_add_float cx (X offset) in
  let cy := ds_add_float cy (Y offset) in
  if u_isJulia u then
    mandelbrotDP (u_maxIterations u)
      (ds_set (X (u_juliaC u))) (ds_set (Y (u_juliaC u))) cx cy
  else
    mandelbrotDP (u_maxIterations u) cx cy (ds_set 0) (ds_set 0).

(** The single-precision branch of [main], up to the value of [iter]. *)
Definition main_iter_SP (u : Uniforms) (vUv : vec2) : R :=
  let uv := main_uv u vUv in
  let c := vadd (u_center u) (vdivs uv (u_zoom u)) in
  if u_isJulia u then mandelbrot (u_maxIterations u) (u_juliaC u) c
  else mandelbrot (u_maxIterations u) c (Vec2 0 0).

Definition main_iter (u : Uniforms) (vUv : vec2) : R :=
  if u_useDP u then main_iter_DP u vUv else main_iter_SP u vUv.

(** The colour branch chosen by [if (iter < 0.0)].  The colour
    arithmetic (palette, glow, vignette) follows under Colour; the gamma
    step [pow(color, vec3(0.8))] is not modelled. *)
Inductive shading : Type :=
| InSetColor
| GradientColor (iter : R).

Definition shade (iter : R) : shading :=
  if Rlt_dec iter 0 then InSetColor else GradientColor iter.

Definition main (u : Uniforms) (vUv : vec2) : shading :=
  shade (main_iter u vUv).

(** *** The orbit, as the design document words it

    [z_{n+1} = z_n^2 + c] from [z_0]: [orbit c z0 n] is [z_n]. *)
Definition step (c z : vec2) : vec2 := vadd (complexSquare z) c.

Definition orbit (c z0 : vec2) (n : nat) : vec2 := Nat.iter n (step c) z0.


(** *** The sample of a fragment

    The local [c] of the single-precision branch of [main]:
    [vec2 c = u_center + uv / u_zoom]. *)
Definition main_c (u : Uniforms) (vUv : vec2) : vec2 :=
  vadd (u_center u) (vdivs (main_uv u vUv) (u_zoom u)).

(** *** Colour *)

(** GLSL [vec3], over the reals: the colour arithmetic has a cosine. *)
Record vec3 : Type := Vec3 { R3 : R; G3 : R; B3 : R }.

(** [a + b * cos(6.28318 * (c * t + d))], component by component: the
    expression that each branch of [palette] returns. *)
Definition cosine_palette (a b c d : vec3) (t : R) : vec3 :=
  Vec3 (R3 a + R3 b * cos (6.28318 * (R3 c * t + R3 d)))
       (G3 a + G3 b * cos (6.28318 * (G3 c * t + G3 d)))
       (B3 a + B3 b * cos (6.28318 * (B3 c * t + B3 d))).

(** [vec3 palette(float t, int paletteType)]: Nebula, Plasma, Inferno,
    and Arctic for every other index. *)
Definition palette (t : R) (paletteType : Z) : vec3 :=
  if (paletteType =? 0)%Z then
    cosine_palette (Vec3 0.5 0.3 0.6) (Vec3 0.5 0.5 0.5)
                   (Vec3 1.0 0.7 0.4) (Vec3 0.0 0.15 0.20) t
  else if (paletteType =? 1)%Z then
    cosine_palette (Vec3 0.5 0.5 0.5) (Vec3 0.5 0.5 0.5)
                   (Vec3 2.0 1.0 0.0) (Vec3 0.5 0.20 0.25) t
  else if (paletteType =? 2)%Z then
    cosine_palette (Vec3 0.0 0.0 0.0) (Vec3 0.5 0.4 0.2)
                   (Vec3 1.0 1.0 1.0) (Vec3 0.0 0.1 0.2) t
  else
    cosine_palette (Vec3 0.2 0.3 0.5) (Vec3 0.4 0.5 0.6)
                   (Vec3 1.0 1.0 0.5) (Vec3 0.0 0.1 0.2) t.

(** GLSL [fract]: [x - floor(x)]. *)
Definition fract (x : R) : R := (x - IZR (Zfloor x))%R.

(** The animated gradient position of [main]:
    [t = iter / float(u_maxIterations)], then
    [t = fract(t + u_time * 0.02)]. *)
Definition main_t (u : Uniforms) (iter : R) : R :=
  let t := (iter / IZR (u_maxIterations u))%R in
  fract (t + Q2R (u_time u) * 0.02).

(** The gradient branch of [main], up to the colour that is handed to
    [pow(color, vec3(0.8))]: the palette colour plus the glow. *)
Definition main_gradient (u : Uniforms) (iter : R) : vec3 :=
  let t := main_t u iter in
  let color := palette t (u_colorPalette u) in
  let glow := (1.0 / (1.0 + iter * 0.1))%R in
  Vec3 (R3 color + glow * 0.2) (G3 color + glow * 0.15)
       (B3 color + glow * 0.3).

(** [float vignette = 1.0 - dot(vignetteUV, vignetteUV) * 0.3] with
    [vignetteUV = vUv - 0.5]. *)
Definition vignette (vUv : vec2) : Q :=
  let vignetteUV := vsub vUv (Vec2 0.5 0.5) in
  1.0 - dot vignetteUV vignetteUV * 0.3.

(** The colour of a fragment of the in-set branch:
    [vec3(0.0, 0.0, 0.05) * vignette]. *)
Definition in_set_color (vUv : vec2) : Q * Q * Q :=
  (0.0 * vignette vUv, 0.0 * vignette vUv, 0.05 * vignette vUv).

End Shader.

(** ** The single-precision evaluator, with its rounding

    A GLSL [float] operation delivers its exact result rounded to the
    format.  [Shader] leaves the rounding out; here the single-precision
    evaluator is written again with a rounding [fl] applied to the result
    of every arithmetic operation, in the order in which the source
    writes them.  Comparisons are exact and the logarithms of the smooth
    value stay in [R].  With [fl q = q] this is the evaluator of
    [Shader]; with [fl = binary32] it is the evaluator on IEEE 754 single
    precision, as long as no result leaves the range of the format. *)

Module Rounded.
Import Shader.

Open Scope Q_scope.

(** *** Rounding to single precision *)

(** The integer nearest to [q], the even one on a tie. *)
Definition round_half_even (q : Q) : Z :=
  let f := Qfloor q in
  match Qcompare (q - inject_Z f) (1 # 2) with
  | Lt => f
  | Gt => (f + 1)%Z
  | Eq => if Z.even f then f else (f + 1)%Z
  end.

(** The binary exponent of a rational other than zero: the [e] with
    [2^e <= |q| < 2^(e+1)]. *)
Definition exponent (q : Q) : Z :=
  let a := Qabs q in
  let e := (Z.log2 (Qnum a) - Z.log2 (Zpos (Qden a)))%Z in
  if Qle_bool (2 ^ e) a then e else (e - 1)%Z.

(** Round to nearest, ties to even, on 24 significant bits, with the
    subnormal numbers below [2^-126].  Overflow to infinity is not
    modelled: the exponent is not bounded above. *)
Definition binary32 (q : Q) : Q :=
  if Qeq_bool q 0 then 0
  else
    let ulp := 2 ^ (Z.max (exponent q) (-126) - 23) in
    Qred (inject_Z (round_half_even (q / ulp)) * ulp).

Section Rounding.

(** The rounding of the result of an operation. *)
Variable fl : Q -> Q.

(** [a + b] on [vec2] *)
Definition vadd (a b : vec2) : vec2 :=
  Vec2 (fl (X a + X b)) (fl (Y a + Y b)).

(** [dot(a, b)] *)
Definition dot (a b : vec2) : Q := fl (fl (X a * X b) + fl (Y a * Y b)).

(** [vec2 complexSquare(vec2 z)] *)
Definition complexSquare (z : vec2) : vec2 :=
  let x := X z in
  let y := Y z in
  Vec2 (fl (fl (x * x) - fl (y * y))) (fl (fl (2 * x) * y)).

Section Evaluator.

Variable u_maxIterations : Z.

(** The loop of [mandelbrot], as in [Shader.mandelbrot_loop]. *)
Fixpoint mandelbrot_loop (c : vec2) (fuel : nat) (i : Z) (z : vec2)
  : loopExit :=
  match fuel with
  | O => Exhausted
  | S fuel' =>
      if (i >=? u_maxIterations)%Z then Exhausted
      else
        let z := vadd (complexSquare z) c in
        let zMagnitudeSquared := dot z z in
        if Qltb 256 zMagnitudeSquared then Escaped i zMagnitudeSquared
        else mandelbrot_loop c fuel' (i + 1)%Z z
  end.

(** [float mandelbrot(vec2 c, vec2 z0)] *)
Definition mandelbrot_exit (c z0 : vec2) : loopExit :=
  mandelbrot_loop c 2000 0%Z z0.

Definition mandelbrot (c z0 : vec2) : R := returned (mandelbrot_exit c z0).

End Evaluator.

(** *** The iteration, as the design document words it

    [z <- z^2 + c] on complex numbers [x + iy], with
    [(x + iy)^2 = (x^2 - y^2) + i(2xy)], and the squared magnitude
    [|z|^2 = x^2 + y^2]; in the arithmetic of the shader every product,
    difference and sum is rounded.  These definitions do not go through
    [complexSquare], [vadd] or [dot]. *)

Definition z_squared_plus_c (c z : vec2) : vec2 :=
  Vec2 (fl (fl (fl (X z * X z) - fl (Y z * Y z)) + X c))
       (fl (fl (fl (2 * X z) * Y z) + Y c)).

(** [iterates c z0 n] is [z_n], with [z_0 = z0]. *)
Definition iterates (c z0 : vec2) (n : nat) : vec2 :=
  Nat.iter n (z_squared_plus_c c) z0.

Definition magnitude_squared (z : vec2) : Q :=
  fl (fl (X z * X z) + fl (Y z * Y z)).

End Rounding.

(** No rounding: the exact arithmetic of [Shader]. *)
Definition no_rounding (q : Q) : Q := q.

End Rounded.

(** ** JavaScript numbers *)

Module JS.

Open Scope Q_scope.

(** A JavaScript number: a finite value, [NaN], or an infinity with its
    sign ([Inf false] is [Infinity], [Inf true] is [-Infinity]). *)
Inductive number : Type :=
| Fin (q : Q)
| NaN
| Inf (negative : bool).

Coercion Fin : Q >-> number.

Declare Scope num_scope.
Delimit Scope num_scope with num.
Bind Scope num_scope with number.


(** Equality of numbers, up to the representation of the rational. *)
Definition num_eq (a b : number) : Prop :=
  match a, b with
  | Fin p, Fin q => p == q
  | NaN, NaN => True
  | Inf s, Inf t => s = t
  | _, _ => False
  end.

Definition nopp (a : number) : number :=
  match a with
  | Fin q => Fin (- q)
  | NaN => NaN
  | Inf s => Inf (negb s)
  end.

Definition nadd (a b : number) : number :=
  match a, b with
  | NaN, _ | _, NaN => NaN
  | Fin p, Fin q => Fin (p + q)
  | Inf s, Fin _ | Fin _, Inf s => Inf s
  | Inf s, Inf t => if Bool.eqb s t then Inf s else NaN
  end.

Definition nsub (a b : number) : number := nadd a (nopp b).

Definition nmul (a b : number) : number :=
  match a, b with
  | NaN, _ | _, NaN => NaN
  | Fin p, Fin q => Fin (p * q)
  | Inf s, Fin q | Fin q, Inf s =>
      if Qeq_bool q 0 then NaN else Inf (xorb s (Qltb q 0))
  | Inf s, Inf t => Inf (xorb s t)
  end.

(** Division; a zero divisor is taken as [+0]. *)
Definition ndiv (a b : number) : number :=
  match a, b with
  | NaN, _ | _, NaN => NaN
  | Fin p, Fin q =>
      if Qeq_bool q 0
      then (if Qeq_bool p 0 then NaN else Inf (Qltb p 0))
      else Fin (p / q)
  | Fin _, Inf _ => Fin 0
  | Inf s, Fin q => Inf (xorb s (Qltb q 0))
  | Inf _, Inf _ => NaN
  end.

Infix "+" := nadd : num_scope.
Infix "-" := nsub : num_scope.
Infix "*" := nmul : num_scope.
Infix "/" := ndiv : num_scope.
Notation "- a" := (nopp a) : num_scope.

(** [a <= b] on numbers other than [NaN]. *)
Definition nle (a b : number) : bool :=
  match a, b with
  | Fin p, Fin q => Qle_bool p q
  | Inf true, _ | _, Inf false => true
  | _, _ => false
  end.

(** [a > b]; false as soon as one side is [NaN]. *)
Definition gt (a b : number) : bool :=
  match a, b with
  | NaN, _ | _, NaN => false
  | _, _ => negb (nle a b)
  end.

(** [a === b] on numbers. *)
Definition strict_eq (a b : number) : bool :=
  match a, b with
  | Fin p, Fin q => Qeq_bool p q
  | Inf s, Inf t => Bool.eqb s t
  | _, _ => false
  end.

Definition Math_abs (a : number) : number :=
  match a with
  | Fin q => Fin (Qabs q)
  | NaN => NaN
  | Inf _ => Inf false
  end.

Definition Math_min (a b : number) : number :=
  match a, b with
  | NaN, _ | _, NaN => NaN
  | _, _ => if nle a b then a else b
  end.

Definition Math_max (a b : number) : number :=
  match a, b with
  | NaN, _ | _, NaN => NaN
  | _, _ => if nle a b then b else a
  end.

(** The base-10 logarithm of a positive real. *)
Definition log10 (r : R) : R := (ln r / ln 10)%R.

(** *** The arithmetic under the floor of the iteration budget

    [Math.floor] turns a change in the last bit of its argument into a
    change by one of its result.  The expression under the floor of the
    budget, [100 + Math.log10(zoom) * 50], is therefore evaluated with
    the arithmetic of the platform: [Math_log10] is the value that
    [Math.log10] returns for a positive number (ECMAScript leaves it
    implementation-approximated) and [fl] is the rounding of a product
    or of a sum to a binary64 number.  The values are taken in [R]. *)
Record Platform : Type := {
  Math_log10 : R -> R;
  fl : R -> R
}.

(** The platform of the exact model: the real logarithm, no rounding. *)
Definition ideal : Platform :=
  {| Math_log10 := log10; fl := fun r => r |}.

(** A platform that rounds: every result, the logarithm included, is
    taken to the nearest multiple of [2^-40].  (Below [2^13] the spacing
    of the binary64 numbers is at most [2^-40].) *)
Definition to_40_places (r : R) : R :=
  (IZR (Zfloor (r * 1099511627776 + / 2)) / 1099511627776)%R.

Definition forty_places : Platform :=
  {| Math_log10 := fun r => to_40_places (log10 r); fl := to_40_places |}.

(** [Math.floor(100 + Math.log10(zoom) * 50)]; only the floor, an integer,
    comes back as a number.  [Math.log10] is [NaN] below zero and
    [-Infinity] at zero. *)
Definition floor_100_plus_log10_times_50 (P : Platform) (zoom : number)
  : number :=
  match zoom with
  | Fin z =>
      if Qltb z 0 then NaN
      else if Qeq_bool z 0 then Inf true
      else
        Fin (inject_Z
               (Zfloor (fl P (100 + fl P (Math_log10 P (Q2R z) * 50)))))
  | NaN => NaN
  | Inf false => Inf false
  | Inf true => NaN
  end.

(** Truthiness of a nullable number, as in
    [... && interaction.lastPinchDistance]. *)
Definition truthy (a : option number) : bool :=
  match a with
  | Some (Fin q) => negb (Qeq_bool q 0)
  | Some (Inf _) => true
  | Some NaN | None => false
  end.

End JS.

(** ** [types.ts] and the state container of [App.tsx] *)

Module Types.
Import JS.

(** [{ x: number; y: number }] *)
Record point : Type := { x : number; y : number }.

Record FractalState : Type := {
  center : point;
  zoom : number;
  maxIterations : number;
  colorPalette : number;
  isJulia : bool;
  juliaC : point;
  autoZoom : bool;
  animationSpeed : number
}.

Record InteractionState : Type := {
  isDragging : bool;
  lastMousePos : option point;
  velocity : point;
  isPinching : bool;
  lastPinchDistance : option number
}.

(** [Partial<FractalState>]: every field may be absent. *)
Record Partial_FractalState : Type := {
  p_center : option point;
  p_zoom : option number;
  p_maxIterations : option number;
  p_colorPalette : option number;
  p_isJulia : option bool;
  p_juliaC : option point;
  p_autoZoom : option bool;
  p_animationSpeed : option number
}.

(** The empty object [{}]. *)
Definition no_updates : Partial_FractalState :=
  {| p_center := None; p_zoom := None; p_maxIterations := None;
     p_colorPalette := None; p_isJulia := None; p_juliaC := None;
     p_autoZoom := None; p_animationSpeed := None |}.

Definition or_else {A : Type} (o : option A) (d : A) : A :=
  match o with Some a => a | None => d end.

(** [setState((prev) => ({ ...prev, ...updates }))] *)
Definition setState (prev : FractalState) (updates : Partial_FractalState)
  : FractalState :=
  {| center := or_else (p_center updates) (center prev);
     zoom := or_else (p_zoom updates) (zoom prev);
     maxIterations := or_else (p_maxIterations updates) (maxIterations prev);
     colorPalette := or_else (p_colorPalette updates) (colorPalette prev);
     isJulia := or_else (p_isJulia updates) (isJulia prev);
     juliaC := or_else (p_juliaC updates) (juliaC prev);
     autoZoom := or_else (p_autoZoom updates) (autoZoom prev);
     animationSpeed :=
       or_else (p_animationSpeed updates) (animationSpeed prev) |}.

Open Scope Q_scope.

(** [DEFAULT_STATE] of [App.tsx] *)
Definition DEFAULT_STATE : FractalState :=
  {| center := {| x := -0.5; y := 0.0 |};
     zoom := 1.0;
     maxIterations := 150;
     colorPalette := 0;
     isJulia := false;
     juliaC := {| x := -0.7; y := 0.27015 |};
     autoZoom := false;
     animationSpeed := 3 |}.

End Types.

(** ** The viewport controller ([MandelbrotRenderer.tsx]) *)

Module Renderer.
Import JS.
Import Types.

Open Scope Q_scope.
Open Scope num_scope.

(** [viewRef.current] *)
Record View : Type := {
  center : point;
  zoom : number;
  targetCenter : point;
  targetZoom : number
}.

(** [material.uniforms]; [u_centerDP] is the [Vector4] as a 4-tuple. *)
Record ShaderUniforms : Type := {
  u_center : point;
  u_centerDP : number * number * number * number;
  u_zoom : number;
  u_useDP : bool;
  u_maxIterations : number;
  u_colorPalette : number;
  u_isJulia : bool;
  u_juliaC : point;
  u_resolution : point;
  u_time : number
}.

(** Everything the component keeps between calls: the two refs, the
    uniforms of the material, and the variables captured by the closures
    of the mount effect ([lastTime], [width], [height]). *)
Record Component : Type := {
  view : View;
  interaction : InteractionState;
  uniforms : ShaderUniforms;
  lastTime : number;
  width : number;
  height : number
}.

(** The component right after mount: the initial values of the refs and
    of the uniforms, for a window of [innerWidth] by [innerHeight]. *)
Definition mount (state : FractalState) (innerWidth innerHeight : number)
  : Component :=
  {| view :=
       {| center := {| x := x (Types.center state);
                       y := y (Types.center state) |};
          zoom := Types.zoom state;
          targetCenter := {| x := x (Types.center state);
                             y := y (Types.center state) |};
          targetZoom := Types.zoom state |};
     interaction :=
       {| isDragging := false;
          lastMousePos := None;
          velocity := {| x := 0; y := 0 |};
          isPinching := false;
          lastPinchDistance := None |};
     uniforms :=
       {| u_center := Types.center state;
          u_centerDP := (x (Types.center state), Fin 0,
                         y (Types.center state), Fin 0);
          u_zoom := Types.zoom state;
          u_useDP := false;
          u_maxIterations := maxIterations state;
          u_colorPalette := colorPalette state;
          u_isJulia := isJulia state;
          u_juliaC := juliaC state;
          u_resolution := {| x := innerWidth; y := innerHeight |};
          u_time := 0 |};
     lastTime := 0;
     width := innerWidth;
     height := innerHeight |}.

(** *** [animate]: one frame *)

(** The camera easing of [animate]. *)
Definition animate_view (lerpFactor : number) (v : View) : View :=
  {| center :=
       {| x := x (center v)
               + (x (targetCenter v) - x (center v)) * lerpFactor;
          y := y (center v)
               + (y (targetCenter v) - y (center v)) * lerpFactor |};
     zoom := zoom v + (targetZoom v - zoom v) * lerpFactor;
     targetCenter := targetCenter v;
     targetZoom := targetZoom v |}.

(** The inertia block of [animate]: new target centre and velocity. *)
Definition animate_inertia (aspect : number) (v : View) (i : InteractionState)
  : View * InteractionState :=
  if negb (isDragging i)
     && (gt (Math_abs (x (velocity i))) 0.01
         || gt (Math_abs (y (velocity i))) 0.01)
  then
    ({| center := center v;
        zoom := zoom v;
        targetCenter :=
          {| x := x (targetCenter v)
                  + x (velocity i) / zoom v * aspect * 0.002;
             y := y (targetCenter v)
                  - y (velocity i) / zoom v * 0.002 |};
        targetZoom := targetZoom v |},
     {| isDragging := isDragging i;
        lastMousePos := lastMousePos i;
        velocity := {| x := x (velocity i) * 0.85;
                       y := y (velocity i) * 0.85 |};
        isPinching := isPinching i;
        lastPinchDistance := lastPinchDistance i |})
  else if negb (isDragging i) then
    (v,
     {| isDragging := isDragging i;
        lastMousePos := lastMousePos i;
        velocity := {| x := 0; y := 0 |};
        isPinching := isPinching i;
        lastPinchDistance := lastPinchDistance i |})
  else (v, i).

(** [const animate = (time: number) => { ... }] *)
Definition animate (time : number) (c : Component) : Component :=
  let deltaTime := time - lastTime c in
  let lerpFactor := Math_min (deltaTime * 0.005) 1 in
  let v := animate_view lerpFactor (view c) in
  let '(v, i) := animate_inertia (width c / height c) v (interaction c) in
  let useDP := gt (zoom v) 1000000 in
  {| view := v;
     interaction := i;
     uniforms :=
       {| u_center := center v;
          u_centerDP :=
            if useDP then (x (center v), Fin 0, y (center v), Fin 0)
            else u_centerDP (uniforms c);
          u_zoom := zoom v;
          u_useDP := useDP;
          u_maxIterations := u_maxIterations (uniforms c);
          u_colorPalette := u_colorPalette (uniforms c);
          u_isJulia := u_isJulia (uniforms c);
          u_juliaC := u_juliaC (uniforms c);
          u_resolution := u_resolution (uniforms c);
          u_time := time * 0.001 |};
     lastTime := time;
     width := width c;
     height := height c |}.

(** Frames in sequence, one [animate] per timestamp. *)
Definition frames (times : list number) (c : Component) : Component :=
  fold_left (fun c time => animate time c) times c.

(** *** The effect on [[state]] *)

(** [useEffect(() => { ... }, [state])]: the uniforms and the targets
    follow the state. *)
Definition stateEffect (state : FractalState) (c : Component) : Component :=
  {| view :=
       {| center := center (view c);
          zoom := zoom (view c);
          targetCenter := {| x := x (Types.center state);
                             y := y (Types.center state) |};
          targetZoom := Types.zoom state |};
     interaction := interaction c;
     uniforms :=
       {| u_center := u_center (uniforms c);
          u_centerDP := u_centerDP (uniforms c);
          u_zoom := u_zoom (uniforms c);
          u_useDP := u_useDP (uniforms c);
          u_maxIterations := maxIterations state;
          u_colorPalette := colorPalette state;
          u_isJulia := isJulia state;
          u_juliaC := {| x := x (juliaC state); y := y (juliaC state) |};
          u_resolution := u_resolution (uniforms c);
          u_time := u_time (uniforms c) |};
     lastTime := lastTime c;
     width := width c;
     height := height c |}.

(** *** Auto-zoom *)

(** The callback of [setInterval] in the auto-zoom effect: the argument
    of [onStateChange]. *)
Definition autoZoomTick (P : Platform) (state : FractalState) (v : View)
  : Partial_FractalState :=
  let newZoom := targetZoom v * (1 + animationSpeed state * 0.01) in
  let iterationsNeeded :=
    Math_min 2000 (Math_max 100 (floor_100_plus_log10_times_50 P newZoom)) in
  {| p_center := None;
     p_zoom := Some newZoom;
     p_maxIterations := Some iterationsNeeded;
     p_colorPalette := None; p_isJulia := None; p_juliaC := None;
     p_autoZoom := None; p_animationSpeed := None |}.

(** *** Mouse wheel *)

Record WheelEvent : Type := {
  clientX : number;
  clientY : number;
  deltaY : number
}.

(** [getBoundingClientRect()] *)
Record DOMRect : Type := {
  left : number;
  top : number;
  rect_width : number;
  rect_height : number
}.

Definition wheel_mouseX (e : WheelEvent) (rect : DOMRect) : number :=
  (clientX e - left rect) / rect_width rect - 0.5.

Definition wheel_mouseY (e : WheelEvent) (rect : DOMRect) : number :=
  - ((clientY e - top rect) / rect_height rect - 0.5).

(** [handleWheel]: the argument of [onStateChange], or nothing when the
    container has no rectangle. *)
Definition handleWheel (P : Platform) (e : WheelEvent)
  (rect : option DOMRect) (v : View) : option Partial_FractalState :=
  match rect with
  | None => None
  | Some rect =>
      let mouseX := wheel_mouseX e rect in
      let mouseY := wheel_mouseY e rect in
      let aspect := rect_width rect / rect_height rect in
      let zoomFactor : number := if gt (deltaY e) 0 then 0.9 else 1.1 in
      let newZoom := targetZoom v * zoomFactor in
      let worldX := x (targetCenter v) + (mouseX * aspect) / targetZoom v in
      let worldY := y (targetCenter v) + mouseY / targetZoom v in
      let newCenter :=
        {| x := worldX - (mouseX * aspect) / newZoom;
           y := worldY - mouseY / newZoom |} in
      let iterationsNeeded :=
        Math_min 2000
          (Math_max 100 (floor_100_plus_log10_times_50 P newZoom)) in
      Some {| p_center := Some newCenter;
              p_zoom := Some newZoom;
              p_maxIterations := Some iterationsNeeded;
              p_colorPalette := None; p_isJulia := None; p_juliaC := None;
              p_autoZoom := None; p_animationSpeed := None |}
  end.

(** *** Mouse drag *)

Record MouseEvent : Type := {
  button : number;
  mouse_clientX : number;
  mouse_clientY : number
}.

(** [handleMouseDown] *)
Definition handleMouseDown (e : MouseEvent) (c : Component) : Component :=
  if negb (strict_eq (button e) 0) then c
  else
    {| view := view c;
       interaction :=
         {| isDragging := true;
            lastMousePos := Some {| x := mouse_clientX e;
                                    y := mouse_clientY e |};
            velocity := {| x := 0; y := 0 |};
            isPinching := isPinching (interaction c);
            lastPinchDistance := lastPinchDistance (interaction c) |};
       uniforms := uniforms c;
       lastTime := lastTime c;
       width := width c;
       height := height c |}.

(** [handleMouseMove] *)
Definition handleMouseMove (e : MouseEvent) (rect : option DOMRect)
  (c : Component) : Component :=
  let i := interaction c in
  match isDragging i, lastMousePos i with
  | true, Some last =>
      let deltaX := mouse_clientX e - x last in
      let deltaY := mouse_clientY e - y last in
      match rect with
      | None => c
      | Some rect =>
          let aspect := rect_width rect / rect_height rect in
          let v := view c in
          {| view :=
               {| center := center v;
                  zoom := zoom v;
                  targetCenter :=
                    {| x := x (targetCenter v)
                            - (deltaX / rect_width rect) * aspect
                              / targetZoom v;
                       y := y (targetCenter v)
                            + (deltaY / rect_height rect) / targetZoom v |};
                  targetZoom := targetZoom v |};
             interaction :=
               {| isDragging := isDragging i;
                  lastMousePos := Some {| x := mouse_clientX e;
                                          y := mouse_clientY e |};
                  velocity := {| x := deltaX; y := deltaY |};
                  isPinching := isPinching i;
                  lastPinchDistance := lastPinchDistance i |};
             uniforms := uniforms c;
             lastTime := lastTime c;
             width := width c;
             height := height c |}
      end
  | _, _ => c
  end.

(** [handleMouseUp] *)
Definition handleMouseUp (c : Component) : Component :=
  {| view := view c;
     interaction :=
       {| isDragging := false;
          lastMousePos := None;
          velocity := velocity (interaction c);
          isPinching := isPinching (interaction c);
          lastPinchDistance := lastPinchDistance (interaction c) |};
     uniforms := uniforms c;
     lastTime := lastTime c;
     width := width c;
     height := height c |}.

(** *** Touch *)

Record Touch : Type := { touch_clientX : number; touch_clientY : number }.

(** [handleTouchStart].  [distance] is the [Math.hypot] of the
    two-touch branch, supplied by the caller (see [handleTouchMove]). *)
Definition handleTouchStart (touches : list Touch) (distance : number)
  (c : Component) : Component :=
  let i := interaction c in
  match touches with
  | [touch] =>
      {| view := view c;
         interaction :=
           {| isDragging := true;
              lastMousePos := Some {| x := touch_clientX touch;
                                      y := touch_clientY touch |};
              velocity := {| x := 0; y := 0 |};
              isPinching := isPinching i;
              lastPinchDistance := lastPinchDistance i |};
         uniforms := uniforms c;
         lastTime := lastTime c;
         width := width c;
         height := height c |}
  | [touch1; touch2] =>
      {| view := view c;
         interaction :=
           {| isDragging := isDragging i;
              lastMousePos := lastMousePos i;
              velocity := velocity i;
              isPinching := true;
              lastPinchDistance := Some distance |};
         uniforms := uniforms c;
         lastTime := lastTime c;
         width := width c;
         height := height c |}
  | _ => c
  end.

(** [handleTouchMove].  [distance] is
    [Math.hypot(touch2.clientX - touch1.clientX,
                touch2.clientY - touch1.clientY)]
    of the two-touch branch, a square root, which the caller supplies.
    The result is the component after the handler and the argument of
    [onStateChange], if it was called. *)
Definition handleTouchMove (touches : list Touch) (distance : number)
  (rect : option DOMRect) (c : Component)
  : Component * option Partial_FractalState :=
  let i := interaction c in
  match touches, isDragging i, lastMousePos i with
  | [touch], true, Some last =>
      let deltaX := touch_clientX touch - x last in
      let deltaY := touch_clientY touch - y last in
      match rect with
      | None => (c, None)
      | Some rect =>
          let aspect := rect_width rect / rect_height rect in
          let v := view c in
          ({| view :=
                {| center := center v;
                   zoom := zoom v;
                   targetCenter :=
                     {| x := x (targetCenter v)
                             - (deltaX / rect_width rect) * aspect
                               / targetZoom v;
                        y := y (targetCenter v)
                             + (deltaY / rect_height rect) / targetZoom v |};
                   targetZoom := targetZoom v |};
              interaction :=
                {| isDragging := isDragging i;
                   lastMousePos := Some {| x := touch_clientX touch;
                                           y := touch_clientY touch |};
                   velocity := velocity i;
                   isPinching := isPinching i;
                   lastPinchDistance := lastPinchDistance i |};
              uniforms := uniforms c;
              lastTime := lastTime c;
              width := width c;
              height := height c |},
           None)
      end
  | _, _, _ =>
      match touches, isPinching i && truthy (lastPinchDistance i),
            lastPinchDistance i with
      | [touch1; touch2], true, Some last =>
          let scale := distance / last in
          let newZoom := targetZoom (view c) * scale in
          ({| view := view c;
              interaction :=
                {| isDragging := isDragging i;
                   lastMousePos := lastMousePos i;
                   velocity := velocity i;
                   isPinching := isPinching i;
                   lastPinchDistance := Some distance |};
              uniforms := uniforms c;
              lastTime := lastTime c;
              width := width c;
              height := height c |},
           Some {| p_center := None;
                   p_zoom := Some newZoom;
                   p_maxIterations := None;
                   p_colorPalette := None; p_isJulia := None;
                   p_juliaC := None;
                   p_autoZoom := None; p_animationSpeed := None |})
      | _, _, _ => (c, None)
      end
  end.

(** *** The gesture, end to end

    A handler calls [onStateChange]; [App] merges the update into the
    state; the effect on [[state]] copies the state into the targets. *)
Definition dispatch (updates : option Partial_FractalState)
  (state : FractalState) (c : Component) : FractalState * Component :=
  match updates with
  | None => (state, c)
  | Some u => let state' := setState state u in (state', stateEffect state' c)
  end.

(** *** Wording of the design document *)

(** The world point under the aspect-corrected pointer position [p]:
    [targetCenter + p / targetZoom]. *)
Definition worldUnder (v : View) (p : point) : point :=
  {| x := x (targetCenter v) + x p / targetZoom v;
     y := y (targetCenter v) + y p / targetZoom v |}.

(** [clamp(floor(100 + log10(zoom) * 50), 100, 2000)] for a positive
    zoom, in the reals. *)
Definition iterations (zoom : Q) : Z :=
  Z.min 2000 (Z.max 100 (Zfloor (100 + log10 (Q2R zoom) * 50))).

(** The same formula in the arithmetic of a platform: its logarithm,
    and each of the product and the sum rounded. *)
Definition iterations_on (P : Platform) (zoom : Q) : Z :=
  let product := fl P (Math_log10 P (Q2R zoom) * 50) in
  Z.min 2000 (Z.max 100 (Zfloor (fl P (100 + product)))).

(** A platform whose logarithm and whose rounding keep the order. *)
Definition monotone (P : Platform) : Prop :=
  (forall a b : R, (0 < a)%R -> (a <= b)%R ->
                   (Math_log10 P a <= Math_log10 P b)%R)
  /\ (forall a b : R, (a <= b)%R -> (fl P a <= fl P b)%R).

(** The platform evaluates [100 + log10(zoom) * 50] to within [delta] of
    its value in the reals. *)
Definition evaluates_within (P : Platform) (delta : R) (zoom : Q) : Prop :=
  (Rabs (fl P (100 + fl P (Math_log10 P (Q2R zoom) * 50))
         - (100 + log10 (Q2R zoom) * 50)) <= delta)%R.

(** The value of [100 + log10(zoom) * 50] in the reals is at least
    [delta] away from the integers around it: the zoom is not within
    [delta] of a step of the budget. *)
Definition clear_of_steps (delta : R) (zoom : Q) : Prop :=
  let t := (100 + log10 (Q2R zoom) * 50)%R in
  (IZR (Zfloor t) + delta <= t)%R /\ (t + delta < IZR (Zfloor t) + 1)%R.

(** Counts up from [budget] while the next power of ten is still at most
    [z50]; [p] is the current power of ten. *)
Fixpoint climb (fuel : nat) (p z50 : Q) (budget : Z) : Z :=
  match fuel with
  | O => budget
  | S fuel' =>
      let p' := (p * 10)%Q in
      if Qle_bool p' z50 then climb fuel' p' z50 (budget + 1)%Z else budget
  end.

(** The budget of a positive zoom without logarithms:
    [floor(100 + log10(zoom) * 50) >= 100 + j] exactly when
    [10^j <= zoom^50]. *)
Definition iterations_exec (zoom : Q) : Z :=
  climb 1900 1%Q (zoom ^ 50)%Q 100%Z.

(** Not dragging, with the finite velocity [(vx, vy)]. *)
Definition coasting (i : InteractionState) (vx vy : Q) : Prop :=
  isDragging i = false /\ velocity i = {| x := Fin vx; y := Fin vy |}.

(** A flick: from the default view in a 1920 by 1080 window, the left
    button goes down, one mouse event moves the pointer 100 pixels to the
    right, and the button is released. *)
Definition flick : Component :=
  let rect := Some {| left := 0; top := 0;
                      rect_width := 1920; rect_height := 1080 |} in
  let c := mount DEFAULT_STATE 1920 1080 in
  let c := handleMouseDown
             {| button := 0; mouse_clientX := 500; mouse_clientY := 300 |} c in
  let c := handleMouseMove
             {| button := 0; mouse_clientX := 600; mouse_clientY := 300 |}
             rect c in
  handleMouseUp c.

(** Equally spaced frame timestamps [period, 2 period, ..., n period]. *)
Definition timestamps (period : Q) (n : nat) : list number :=
  map (fun k => Fin (inject_Z (Z.of_nat k) * period)) (seq 1 n).

(** Equality of points, component by component. *)
Definition point_eq (p q : point) : Prop :=
  num_eq (x p) (x q) /\ num_eq (y p) (y q).

(** The largest speed that the inertia block zeroes after [n] decaying
    frames: [0.01 / 0.85^n]. *)
Fixpoint decays_within (n : nat) : Q :=
  match n with
  | O => 0.01
  | S n' => decays_within n' / 0.85
  end.

(** *** The remaining handlers *)

(** [handleTouchEnd] *)
Definition handleTouchEnd (c : Component) : Component :=
  {| view := view c;
     interaction :=
       {| isDragging := false;
          lastMousePos := None;
          velocity := velocity (interaction c);
          isPinching := false;
          lastPinchDistance := None |};
     uniforms := uniforms c;
     lastTime := lastTime c;
     width := width c;
     height := height c |}.

(** [handleResize], for a window that is now [newWidth] by [newHeight]:
    the uniform follows; the [width] and [height] that [animate] reads
    are constants of the mount effect and stay. *)
Definition handleResize (newWidth newHeight : number) (c : Component)
  : Component :=
  {| view := view c;
     interaction := interaction c;
     uniforms :=
       {| u_center := u_center (uniforms c);
          u_centerDP := u_centerDP (uniforms c);
          u_zoom := u_zoom (uniforms c);
          u_useDP := u_useDP (uniforms c);
          u_maxIterations := u_maxIterations (uniforms c);
          u_colorPalette := u_colorPalette (uniforms c);
          u_isJulia := u_isJulia (uniforms c);
          u_juliaC := u_juliaC (uniforms c);
          u_resolution := {| x := newWidth; y := newHeight |};
          u_time := u_time (uniforms c) |};
     lastTime := lastTime c;
     width := width c;
     height := height c |}.

(** *** The component as a transition system

    What can happen to the mounted component: a frame, a resize of the
    window, a call of [onStateChange] from outside the renderer (the
    control panel, the loading of the URL), a tick of the auto-zoom
    interval, and the events of the container ([onWheel], [onMouseDown],
    [onMouseMove], [onMouseUp], [onMouseLeave], [onTouchStart],
    [onTouchMove], [onTouchEnd]). *)
Inductive Event : Type :=
| Frame (time : number)
| Resize (newWidth newHeight : number)
| StateChange (updates : Partial_FractalState)
| AutoZoom
| Wheel (e : WheelEvent) (rect : option DOMRect)
| MouseDown (e : MouseEvent)
| MouseMove (e : MouseEvent) (rect : option DOMRect)
| MouseUp
| MouseLeave
| TouchStart (touches : list Touch) (distance : number)
| TouchMove (touches : list Touch) (distance : number) (rect : option DOMRect)
| TouchEnd.

(** The state of [App] and the component after an event.  The interval
    of the auto-zoom effect exists only while [state.autoZoom] is set;
    [onMouseLeave] is bound to [handleMouseUp]. *)
Definition handle (P : Platform) (ev : Event) (s : FractalState * Component)
  : FractalState * Component :=
  let '(state, c) := s in
  match ev with
  | Frame time => (state, animate time c)
  | Resize newWidth newHeight => (state, handleResize newWidth newHeight c)
  | StateChange updates => dispatch (Some updates) state c
  | AutoZoom =>
      if autoZoom state
      then dispatch (Some (autoZoomTick P state (view c))) state c
      else (state, c)
  | Wheel e rect => dispatch (handleWheel P e rect (view c)) state c
  | MouseDown e => (state, handleMouseDown e c)
  | MouseMove e rect => (state, handleMouseMove e rect c)
  | MouseUp | MouseLeave => (state, handleMouseUp c)
  | TouchStart touches distance => (state, handleTouchStart touches distance c)
  | TouchMove touches distance rect =>
      let '(c', updates) := handleTouchMove touches distance rect c in
      dispatch updates state c'
  | TouchEnd => (state, handleTouchEnd c)
  end.

Definition run (P : Platform) (events : list Event)
  (s : FractalState * Component) : FractalState * Component :=
  fold_left (fun s ev => handle P ev s) events s.

Definition is_MouseMove (ev : Event) : bool :=
  match ev with MouseMove _ _ => true | _ => false end.

(** *** Wording of the properties of the controller *)

(** The aspect-corrected position that [handleWheel] computes for a
    pointer at the client coordinates [(px, py)]:
    [(mouseX * aspect, mouseY)]. *)
Definition pointerAt (rect : DOMRect) (px py : number) : point :=
  let e := {| clientX := px; clientY := py; deltaY := 0 |} in
  {| x := wheel_mouseX e rect * (rect_width rect / rect_height rect);
     y := wheel_mouseY e rect |}.

(** [b] lies between [a] and [t]. *)
Definition between (a t b : Q) : Prop :=
  (a <= b /\ b <= t)%Q \/ (t <= b /\ b <= a)%Q.

(** Frame timestamps [t0 + period, t0 + 2 period, ..., t0 + n period]. *)
Definition timestamps_from (t0 period : Q) (n : nat) : list number :=
  map (fun k => Fin (t0 + inject_Z (Z.of_nat k) * period)%Q) (seq 1 n).

(** The low components of [u_centerDP] are zero, and while the
    extended-precision branch is switched on its high components are
    [u_center]. *)
Definition centerDP_plain (u : ShaderUniforms) : Prop :=
  let '(hi_x, lo_x, hi_y, lo_y) := u_centerDP u in
  lo_x = Fin 0 /\ lo_y = Fin 0
  /\ (u_useDP u = true -> hi_x = x (u_center u) /\ hi_y = y (u_center u)).

End Renderer.

(** ** The shareable-state codec ([useUrlState.ts]) *)

Module UrlState.
Import JS.
Import Types.

Open Scope string_scope.
Open Scope Q_scope.

(** *** Decimal digits *)

Definition code (c : ascii) : N := N_of_ascii c.

(** The character of a digit [0..9]; ["0"] has code 48. *)
Definition digit_char (d : N) : ascii := ascii_of_N (48 + d).

Definition digit_val (c : ascii) : option N :=
  if (48 <=? code c)%N && (code c <=? 57)%N then Some (code c - 48)%N
  else None.

(** The decimal digits of [n], most significant first, put in front of
    [acc]; [fuel] bounds the number of digits. *)
Fixpoint digits_onto (fuel : nat) (n : N) (acc : string) : string :=
  let acc := String (digit_char (n mod 10)) acc in
  match fuel with
  | O => acc
  | S fuel' => if (n / 10 =? 0)%N then acc else digits_onto fuel' (n / 10) acc
  end.

(** The decimal representation of [n], without leading zeros. *)
Definition digits (n : N) : string := digits_onto (N.to_nat (N.size n)) n "".

(** The last [width] decimal digits of [n], put in front of [acc]. *)
Fixpoint fixed_onto (width : nat) (n : N) (acc : string) : string :=
  match width with
  | O => acc
  | S w => fixed_onto w (n / 10) (String (digit_char (n mod 10)) acc)
  end.

Definition pow10 (n : nat) : N := (10 ^ N.of_nat n)%N.

(** Reads the longest run of digits at the head of [s]: the value
    (continuing from [acc]), the number of digits read (continuing from
    [count]) and the rest of the string. *)
Fixpoint span_digits (s : string) (acc : N) (count : nat)
  : N * nat * string :=
  match s with
  | String c s' =>
      match digit_val c with
      | Some d => span_digits s' (10 * acc + d)%N (S count)
      | None => (acc, count, s)
      end
  | EmptyString => (acc, count, s)
  end.

(** *** Strings of digits, for the statements about the parsers *)

Fixpoint digit_string (s : string) : bool :=
  match s with
  | String c s' =>
      match digit_val c with
      | Some _ => digit_string s'
      | None => false
      end
  | EmptyString => true
  end.

(** The number a string of digits reads as, continuing from [acc]. *)
Fixpoint value_from (s : string) (acc : N) : N :=
  match s with
  | String c s' =>
      match digit_val c with
      | Some d => value_from s' (10 * acc + d)%N
      | None => acc
      end
  | EmptyString => acc
  end.

Definition head_is_digit (s : string) : bool :=
  match s with
  | String c _ => match digit_val c with Some _ => true | None => false end
  | EmptyString => false
  end.

(** *** [Number.prototype.toString] and [Number.prototype.toFixed]

    Both are partial here.  The digits that JavaScript prints for a value
    that is not an integer are chosen from its binary64 representation,
    which the exact model does not have: there [toString] is [None].
    From [10^21] on both functions print the scientific notation of
    [Number::toString]; every binary64 number of that size is an
    integer, and the model prints the digits of that integer.  (For an
    integer of more than 17 significant digits JavaScript stops at the
    shortest run of digits that still identifies the binary64 number;
    [parseFloat] returns that same number for either string.) *)

Definition sign_string (negative : bool) : string :=
  if negative then "-" else "".

(** The integer a rational is equal to, if any. *)
Definition integral (q : Q) : option Z :=
  let r := Qred q in
  if (Qden r =? 1)%positive then Some (Qnum r) else None.

(** [n] without its trailing decimal zeros, and their number added to
    [t]; [fuel] bounds the number of digits. *)
Fixpoint strip_zeros (fuel : nat) (n : N) (t : nat) : N * nat :=
  match fuel with
  | O => (n, t)
  | S fuel' =>
      if (n mod 10 =? 0)%N then strip_zeros fuel' (n / 10) (S t) else (n, t)
  end.

(** The scientific notation of a positive integer: its first digit, the
    other digits up to the last one that is not zero after a point (if
    there are any), then [e+] and the decimal exponent. *)
Definition exponential (n : N) : string :=
  let '(s, t) := strip_zeros (N.to_nat (N.size n)) n 0 in
  match digits s with
  | String c rest =>
      String c (if (String.length rest =? 0)%nat then "" else "." ++ rest)
      ++ "e+" ++ digits (N.of_nat (String.length rest + t))
  | EmptyString => ""
  end.

Definition Number_toString (a : number) : option string :=
  match a with
  | NaN => Some "NaN"
  | Inf negative => Some (if negative then "-Infinity" else "Infinity")
  | Fin q =>
      match integral q with
      | Some z =>
          if Qltb (Qabs q) (10 ^ 21)
          then Some (sign_string (z <? 0)%Z ++ digits (Z.abs_N z))
          else Some (sign_string (z <? 0)%Z ++ exponential (Z.abs_N z))
      | None => None
      end
  end.

(** [x.toFixed(fractionDigits)]: below [10^21], the integer [n] nearest
    to [|x| * 10^f] (the larger one on a tie), printed with a point
    before its last [f] digits, after the sign; from [10^21] on, what
    [toString] prints. *)
Definition toFixed (a : number) (fractionDigits : nat) : option string :=
  match a with
  | Fin q =>
      let negative := Qltb q 0 in
      let x := Qabs q in
      if Qle_bool (10 ^ 21) x then Number_toString a
      else
        let f := fractionDigits in
        let n := Z.to_N (Qfloor (x * inject_Z (Z.of_N (pow10 f)) + (1 # 2))) in
        let m :=
          if (f =? 0)%nat then digits n
          else digits (n / pow10 f) ++ "." ++ fixed_onto f (n mod pow10 f) "" in
        Some (sign_string negative ++ m)
  | _ => Number_toString a
  end.

(** *** [parseFloat] and [parseInt(_, 10)] *)

(** Tab, line feed, vertical tab, form feed, carriage return, space. *)
Definition is_whitespace (c : ascii) : bool :=
  ((9 <=? code c)%N && (code c <=? 13)%N) || (code c =? 32)%N.

Fixpoint trimStart (s : string) : string :=
  match s with
  | String c s' => if is_whitespace c then trimStart s' else s
  | EmptyString => s
  end.

(** An optional sign: whether it is ["-"], and the rest. *)
Definition sign_prefix (s : string) : bool * string :=
  match s with
  | String c s' =>
      if (code c =? 45)%N then (true, s')
      else if (code c =? 43)%N then (false, s')
      else (false, s)
  | EmptyString => (false, s)
  end.

Definition signed (negative : bool) (q : Q) : Q :=
  if negative then - q else q.

(** An optional exponent part [e], [e+], [e-] followed by digits; 0
    when there is none. *)
Definition exponent_part (s : string) : Z :=
  match s with
  | String c s' =>
      if (code c =? 101)%N || (code c =? 69)%N then
        let '(negative, s'') := sign_prefix s' in
        let '(e, count, _) := span_digits s'' 0 0 in
        if (count =? 0)%nat then 0%Z
        else if negative then (- Z.of_N e)%Z else Z.of_N e
      else 0%Z
  | EmptyString => 0%Z
  end.

(** [parseFloat(s)]: leading white space, then the longest prefix that
    is a decimal literal; [NaN] when there is none. *)
Definition parseFloat (s : string) : number :=
  let s := trimStart s in
  let '(negative, s) := sign_prefix s in
  if prefix "Infinity" s then Inf negative
  else
    let '(int_part, int_count, s) := span_digits s 0 0 in
    let '(frac_part, frac_count, s) :=
      match s with
      | String c s' =>
          if (code c =? 46)%N then span_digits s' 0 0 else (0%N, 0%nat, s)
      | EmptyString => (0%N, 0%nat, s)
      end in
    if (int_count + frac_count =? 0)%nat then NaN
    else
      let mantissa :=
        inject_Z (Z.of_N int_part)
        + inject_Z (Z.of_N frac_part) / inject_Z (Z.of_N (pow10 frac_count)) in
      Fin (signed negative (mantissa * 10 ^ exponent_part s)).

(** [parseInt(s, 10)] *)
Definition parseInt (s : string) : number :=
  let s := trimStart s in
  let '(negative, s) := sign_prefix s in
  let '(value, count, _) := span_digits s 0 0 in
  if (count =? 0)%nat then NaN
  else Fin (signed negative (inject_Z (Z.of_N value))).

(** *** [URLSearchParams]: name/value pairs, in order *)

Definition URLSearchParams : Type := list (string * string).

Fixpoint get (name : string) (params : URLSearchParams) : option string :=
  match params with
  | [] => None
  | (k, v) :: rest => if String.eqb k name then Some v else get name rest
  end.

Definition delete (name : string) (params : URLSearchParams)
  : URLSearchParams :=
  filter (fun kv => negb (String.eqb (fst kv) name)) params.

(** [params.set(name, value)]: the first pair of that name takes the
    value and the others go; a new name is appended. *)
Fixpoint set (name value : string) (params : URLSearchParams)
  : URLSearchParams :=
  match params with
  | [] => [(name, value)]
  | (k, v) :: rest =>
      if String.eqb k name then (name, value) :: delete name rest
      else (k, v) :: set name value rest
  end.

(** *** The two effects of [useUrlState] *)

(** The first effect, up to [updates]: what the parameters say. *)
Definition loadFromUrl (params : URLSearchParams) : Partial_FractalState :=
  let cx := get "cx" params in
  let cy := get "cy" params in
  let zoom := get "z" params in
  let iter := get "i" params in
  let palette := get "p" params in
  let julia := get "j" params in
  let jx := get "jx" params in
  let jy := get "jy" params in
  {| p_center :=
       match cx, cy with
       | Some cx, Some cy => Some {| x := parseFloat cx; y := parseFloat cy |}
       | _, _ => None
       end;
     p_zoom := option_map parseFloat zoom;
     p_maxIterations := option_map parseInt iter;
     p_colorPalette := option_map parseInt palette;
     p_isJulia := option_map (fun julia => String.eqb julia "1") julia;
     p_juliaC :=
       match jx, jy with
       | Some jx, Some jy => Some {| x := parseFloat jx; y := parseFloat jy |}
       | _, _ => None
       end;
     p_autoZoom := None;
     p_animationSpeed := None |}.

(** [Object.keys(updates).length > 0] *)
Definition has_keys (u : Partial_FractalState) : bool :=
  match p_center u, p_zoom u, p_maxIterations u, p_colorPalette u,
        p_isJulia u, p_juliaC u, p_autoZoom u, p_animationSpeed u with
  | None, None, None, None, None, None, None, None => false
  | _, _, _, _, _, _, _, _ => true
  end.

(** The first effect: the state after loading the parameters of the URL
    into the state [prev] ([App] merges the update). *)
Definition loadState (params : URLSearchParams) (prev : FractalState)
  : FractalState :=
  let updates := loadFromUrl params in
  if has_keys updates then setState prev updates else prev.

Definition bind {A B : Type} (o : option A) (k : A -> option B) : option B :=
  match o with Some a => k a | None => None end.

Notation "x <- a ;; b" := (bind a (fun x => b))
  (at level 61, a at next level, right associativity).

(** The second effect: the parameters written for a state. *)
Definition updateUrl (state : FractalState) : option URLSearchParams :=
  cx <- toFixed (x (center state)) 10 ;;
  cy <- toFixed (y (center state)) 10 ;;
  z <- toFixed (zoom state) 6 ;;
  i <- Number_toString (maxIterations state) ;;
  p <- Number_toString (colorPalette state) ;;
  let params := set "cx" cx [] in
  let params := set "cy" cy params in
  let params := set "z" z params in
  let params := set "i" i params in
  let params := set "p" p params in
  if isJulia state then
    jx <- toFixed (x (juliaC state)) 10 ;;
    jy <- toFixed (y (juliaC state)) 10 ;;
    let params := set "j" "1" params in
    let params := set "jx" jx params in
    let params := set "jy" jy params in
    Some params
  else Some params.

(** *** Wording of the design document *)

(** [q] at [d] decimals, as [toFixed] prints it: the nearest multiple of
    [10^-d], away from zero on a tie. *)
Definition roundTo (d : nat) (q : Q) : Q :=
  signed (Qltb q 0)
    (inject_Z (Qfloor (Qabs q * inject_Z (Z.of_N (pow10 d)) + (1 # 2)))
     / inject_Z (Z.of_N (pow10 d))).

(** A number that a binary64 number can be: below [10^21] in absolute
    value, or an integer (from [2^53] on every binary64 number is one),
    or an exceptional value. *)
Definition printable (a : number) : Prop :=
  match a with
  | Fin q => Qabs q < 10 ^ 21 \/ exists z : Z, q == inject_Z z
  | _ => True
  end.

(** An integer below [10^21] in absolute value, or [NaN]. *)
Definition printable_int (a : number) : Prop :=
  match a with
  | Fin q => exists z : Z, q == inject_Z z /\ (Z.abs z < 10 ^ 21)%Z
  | NaN => True
  | Inf _ => False
  end.

(** The states that can be shared: a centre, a zoom and a Julia constant
    that binary64 numbers can be, and an iteration count and a palette
    index that are integers below [10^21] (or [NaN]). *)
Definition shareable (state : FractalState) : Prop :=
  printable (x (center state)) /\ printable (y (center state))
  /\ printable (zoom state)
  /\ printable_int (maxIterations state)
  /\ printable_int (colorPalette state)
  /\ (isJulia state = true ->
      printable (x (juliaC state)) /\ printable (y (juliaC state))).

(** A number at [d] decimals; the exceptional values are left alone. *)
Definition round_number (d : nat) (a : number) : number :=
  match a with Fin q => Fin (roundTo d q) | _ => a end.

(** A Julia view, and the same state after the user has switched back
    to the Mandelbrot set ([onStateChange({ isJulia: false })]). *)
Definition julia_view : FractalState :=
  {| center := {| x := 0.123456789012; y := -0.25 |};
     zoom := 2.5;
     maxIterations := 300;
     colorPalette := 2;
     isJulia := true;
     juliaC := {| x := 0.3; y := 0.5 |};
     autoZoom := false;
     animationSpeed := 3 |}.

(** The Julia view after auto-zoom has run for a long time: the zoom
    has reached [1.5e21]. *)
Definition deep_view : FractalState :=
  setState julia_view
    {| p_center := None; p_zoom := Some (Fin 1500000000000000000000);
       p_maxIterations := None; p_colorPalette := None; p_isJulia := None;
       p_juliaC := None; p_autoZoom := None; p_animationSpeed := None |}.

Definition back_to_mandelbrot : FractalState :=
  setState julia_view
    {| p_center := None; p_zoom := None; p_maxIterations := None;
       p_colorPalette := None; p_isJulia := Some false; p_juliaC := None;
       p_autoZoom := None; p_animationSpeed := None |}.

(** Two states with the same fields, up to the representation of the
    rationals. *)
Definition same_state (a b : FractalState) : Prop :=
  Renderer.point_eq (center a) (center b)
  /\ num_eq (zoom a) (zoom b)
  /\ num_eq (maxIterations a) (maxIterations b)
  /\ num_eq (colorPalette a) (colorPalette b)
  /\ isJulia a = isJulia b
  /\ Renderer.point_eq (juliaC a) (juliaC b)
  /\ autoZoom a = autoZoom b
  /\ num_eq (animationSpeed a) (animationSpeed b).

End UrlState.

(** ** The heads-up display ([components/HUD.tsx]) *)

Module HUD.
Import JS.
Import Types.
Import UrlState.

Open Scope string_scope.
Open Scope Q_scope.
Open Scope num_scope.

(** [a < b]; false as soon as one side is [NaN]. *)
Definition lt (a b : number) : bool := gt b a.

(** [formatZoom]; [None] where the printing of the number is outside
    the model (see [toFixed]). *)
Definition formatZoom (zoom : number) : option string :=
  if lt zoom 1000 then
    s <- toFixed zoom 1 ;; Some (s ++ "x")
  else if lt zoom 1000000 then
    s <- toFixed (zoom / 1000) 1 ;; Some (s ++ "K")
  else if lt zoom 1000000000 then
    s <- toFixed (zoom / 1000000) 1 ;; Some (s ++ "M")
  else
    s <- toFixed (zoom / 1000000000) 1 ;; Some (s ++ "B").



End HUD.

(* ================================================================== *)
(** * Part II: properties *)
(* ================================================================== *)

(** ** Comparison of rationals *)

Lemma Qltb_true (a b : Q) : Qltb a b = true <-> (a < b)%Q.
Proof.
  unfold Qltb. rewrite negb_true_iff, <- not_true_iff_false, Qle_bool_iff.
  split; [apply Qnot_le_lt | apply Qlt_not_le].
Qed.

Lemma Qltb_false (a b : Q) : Qltb a b = false <-> (b <= a)%Q.
Proof.
  unfold Qltb. rewrite negb_false_iff. apply Qle_bool_iff.
Qed.

#[global] Instance Qltb_comp : Proper (Qeq ==> Qeq ==> eq) Qltb.
Proof.
  intros a a' Ha b b' Hb. unfold Qltb. now rewrite Ha, Hb.
Qed.

Lemma Q2R_inject_Z (z : Z) : Q2R (inject_Z z) = IZR z.
Proof. unfold Q2R, inject_Z. cbn. lra. Qed.

(** ** The fragment shader *)

Module ShaderFacts.
Import Shader.
Open Scope Q_scope.

Example mandelbrot_exit_2_0 :
  mandelbrot_exit 150 (Vec2 2 0) (Vec2 0 0) = Escaped 2 1444.
Proof. vm_compute. reflexivity. Qed.

(** *** The loop against the orbit *)

Lemma orbit_S (c z0 : vec2) (n : nat) :
  orbit c z0 (S n) = step c (orbit c z0 n).
Proof. reflexivity. Qed.

Lemma orbit_shift (c z0 : vec2) (n : nat) :
  orbit c z0 (S n) = orbit c (step c z0) n.
Proof. unfold orbit. apply Nat.iter_succ_r. Qed.

(** One round of the loop that neither breaks nor escapes. *)
Lemma mandelbrot_loop_round
  (n : Z) (c : vec2) (fuel : nat) (i : Z) (z : vec2) :
  (i < n)%Z ->
  dot (step c z) (step c z) <= 256 ->
  mandelbrot_loop n c (S fuel) i z
  = mandelbrot_loop n c fuel (i + 1) (step c z).
Proof.
  intros Hi Hm. cbn [mandelbrot_loop].
  assert (Hge : (i >=? n)%Z = false)
    by (rewrite Z.geb_leb; apply Z.leb_gt; lia).
  rewrite Hge. fold (step c z).
  apply Qltb_false in Hm. rewrite Hm. reflexivity.
Qed.

(** The round in which the escape test succeeds. *)
Lemma mandelbrot_loop_escape
  (n : Z) (c : vec2) (fuel : nat) (i : Z) (z : vec2) :
  (i < n)%Z ->
  256 < dot (step c z) (step c z) ->
  mandelbrot_loop n c (S fuel) i z = Escaped i (dot (step c z) (step c z)).
Proof.
  intros Hi Hm. cbn [mandelbrot_loop].
  assert (Hge : (i >=? n)%Z = false)
    by (rewrite Z.geb_leb; apply Z.leb_gt; lia).
  rewrite Hge. fold (step c z).
  apply Qltb_true in Hm. rewrite Hm. reflexivity.
Qed.

Lemma mandelbrot_loop_break
  (n : Z) (c : vec2) (fuel : nat) (i : Z) (z : vec2) :
  (n <= i)%Z -> mandelbrot_loop n c fuel i z = Exhausted.
Proof.
  intros Hi. destruct fuel as [|fuel]; [reflexivity|]. cbn [mandelbrot_loop].
  assert (Hge : (i >=? n)%Z = true)
    by (rewrite Z.geb_leb; apply Z.leb_le; lia).
  now rewrite Hge.
Qed.

(** [k] rounds without escape advance the loop along the orbit. *)
Lemma mandelbrot_loop_skip (n : Z) (c : vec2) (k : nat) :
  forall (fuel : nat) (i : Z) (z : vec2),
    (i + Z.of_nat k <= n)%Z ->
    (forall j, (j < k)%nat ->
               dot (orbit c z (S j)) (orbit c z (S j)) <= 256) ->
    mandelbrot_loop n c (k + fuel) i z
    = mandelbrot_loop n c fuel (i + Z.of_nat k) (orbit c z k).
Proof.
  induction k as [|k IH]; intros fuel i z Hi Hno.
  - cbn. now rewrite Z.add_0_r.
  - change (S k + fuel)%nat with (S (k + fuel)).
    rewrite mandelbrot_loop_round.
    + rewrite IH.
      * rewrite orbit_shift. f_equal. lia.
      * lia.
      * intros j Hj. rewrite <- orbit_shift. apply Hno. lia.
    + lia.
    + apply (Hno 0%nat). lia.
Qed.

(** *** The smooth value of an escaped sample *)

Lemma ln_2_pos : (0 < ln 2)%R.
Proof. pose proof ln_lt_2. lra. Qed.

Lemma ln_4 : ln 4 = (2 * ln 2)%R.
Proof.
  replace 4%R with (2 * 2)%R by lra. rewrite ln_mult by lra. lra.
Qed.

Lemma ln_256 : ln 256 = (8 * ln 2)%R.
Proof.
  replace 256%R with ((4 * 4) * (4 * 4))%R by lra.
  rewrite !ln_mult by lra. rewrite ln_4. lra.
Qed.

(** Every magnitude that passes the escape test has [nu > 2]: the value
    returned at counter [i] is below [i - 1]. *)
Lemma smoothValue_lt (i : Z) (m : Q) :
  256 < m -> (smoothValue i m < IZR i - 1)%R.
Proof.
  intros Hm. unfold smoothValue.
  pose proof ln_2_pos as H2.
  assert (Hm' : (256 < Q2R m)%R).
  { apply Qlt_Rlt in Hm. change 256 with (inject_Z 256) in Hm.
    now rewrite Q2R_inject_Z in Hm. }
  assert (Hln : (8 * ln 2 < ln (Q2R m))%R).
  { rewrite <- ln_256. apply ln_increasing; lra. }
  assert (Hq : (4 < ln (Q2R m) / 2 / ln 2)%R).
  { apply Rmult_lt_reg_r with (ln 2); [exact H2|].
    unfold Rdiv at 1. rewrite Rmult_assoc, Rinv_l by lra. lra. }
  assert (Hnu : (2 * ln 2 < ln (ln (Q2R m) / 2 / ln 2))%R).
  { rewrite <- ln_4. apply ln_increasing; lra. }
  assert (Hd : (2 < ln (ln (Q2R m) / 2 / ln 2) / ln 2)%R).
  { apply Rmult_lt_reg_r with (ln 2); [exact H2|].
    unfold Rdiv at 1. rewrite Rmult_assoc, Rinv_l by lra. lra. }
  lra.
Qed.

(** *** Escape-time evaluator against the iteration *)

(** The body of the loop is the iteration of the design document, and
    its test is on the squared magnitude. *)
Lemma rounded_round (fl : Q -> Q) (c z : vec2) :
  Rounded.vadd fl (Rounded.complexSquare fl z) c
  = Rounded.z_squared_plus_c fl c z
  /\ (forall w, Rounded.dot fl w w = Rounded.magnitude_squared fl w).
Proof. split; reflexivity. Qed.

Lemma iterates_S (fl : Q -> Q) (c z0 : vec2) (n : nat) :
  Rounded.iterates fl c z0 (S n)
  = Rounded.z_squared_plus_c fl c (Rounded.iterates fl c z0 n).
Proof. reflexivity. Qed.

Lemma iterates_shift (fl : Q -> Q) (c z0 : vec2) (n : nat) :
  Rounded.iterates fl c z0 (S n)
  = Rounded.iterates fl c (Rounded.z_squared_plus_c fl c z0) n.
Proof. unfold Rounded.iterates. apply Nat.iter_succ_r. Qed.

(** One round of the loop that neither breaks nor escapes. *)
Lemma rounded_loop_round
  (fl : Q -> Q) (n : Z) (c : vec2) (fuel : nat) (i : Z) (z : vec2) :
  (i < n)%Z ->
  Rounded.magnitude_squared fl (Rounded.z_squared_plus_c fl c z) <= 256 ->
  Rounded.mandelbrot_loop fl n c (S fuel) i z
  = Rounded.mandelbrot_loop fl n c fuel (i + 1)
      (Rounded.z_squared_plus_c fl c z).
Proof.
  intros Hi Hm. cbn [Rounded.mandelbrot_loop].
  assert (Hge : (i >=? n)%Z = false)
    by (rewrite Z.geb_leb; apply Z.leb_gt; lia).
  rewrite Hge.
  destruct (rounded_round fl c z) as [-> Hd]. rewrite Hd.
  apply Qltb_false in Hm. rewrite Hm. reflexivity.
Qed.

(** The round in which the escape test succeeds. *)
Lemma rounded_loop_escape
  (fl : Q -> Q) (n : Z) (c : vec2) (fuel : nat) (i : Z) (z : vec2) :
  (i < n)%Z ->
  256 < Rounded.magnitude_squared fl (Rounded.z_squared_plus_c fl c z) ->
  Rounded.mandelbrot_loop fl n c (S fuel) i z
  = Escaped i (Rounded.magnitude_squared fl (Rounded.z_squared_plus_c fl c z)).
Proof.
  intros Hi Hm. cbn [Rounded.mandelbrot_loop].
  assert (Hge : (i >=? n)%Z = false)
    by (rewrite Z.geb_leb; apply Z.leb_gt; lia).
  rewrite Hge.
  destruct (rounded_round fl c z) as [-> Hd]. rewrite Hd.
  apply Qltb_true in Hm. rewrite Hm. reflexivity.
Qed.

Lemma rounded_loop_break
  (fl : Q -> Q) (n : Z) (c : vec2) (fuel : nat) (i : Z) (z : vec2) :
  (n <= i)%Z -> Rounded.mandelbrot_loop fl n c fuel i z = Exhausted.
Proof.
  intros Hi. destruct fuel as [|fuel]; [reflexivity|].
  cbn [Rounded.mandelbrot_loop].
  assert (Hge : (i >=? n)%Z = true)
    by (rewrite Z.geb_leb; apply Z.leb_le; lia).
  now rewrite Hge.
Qed.

(** [k] rounds without escape advance the loop by [k] iterates. *)
Lemma rounded_loop_skip (fl : Q -> Q) (n : Z) (c : vec2) (k : nat) :
  forall (fuel : nat) (i : Z) (z : vec2),
    (i + Z.of_nat k <= n)%Z ->
    (forall j, (j < k)%nat ->
               Rounded.magnitude_squared fl (Rounded.iterates fl c z (S j))
               <= 256) ->
    Rounded.mandelbrot_loop fl n c (k + fuel) i z
    = Rounded.mandelbrot_loop fl n c fuel (i + Z.of_nat k)
        (Rounded.iterates fl c z k).
Proof.
  induction k as [|k IH]; intros fuel i z Hi Hno.
  - cbn. now rewrite Z.add_0_r.
  - change (S k + fuel)%nat with (S (k + fuel)).
    rewrite rounded_loop_round.
    + rewrite IH.
      * rewrite iterates_shift. f_equal. lia.
      * lia.
      * intros j Hj. rewrite <- iterates_shift. apply Hno. lia.
    + lia.
    + apply (Hno 0%nat). lia.
Qed.

(** Without rounding the loop is the loop of [Shader]. *)
Lemma rounded_loop_exact (n : Z) (c : vec2) (fuel : nat) :
  forall (i : Z) (z : vec2),
    Rounded.mandelbrot_loop Rounded.no_rounding n c fuel i z
    = mandelbrot_loop n c fuel i z.
Proof.
  induction fuel as [|fuel IH]; intros i z; [reflexivity|].
  cbn [Rounded.mandelbrot_loop mandelbrot_loop].
  destruct (i >=? n)%Z; [reflexivity|].
  change (Rounded.vadd Rounded.no_rounding
            (Rounded.complexSquare Rounded.no_rounding z) c)
    with (vadd (complexSquare z) c).
  set (z' := vadd (complexSquare z) c).
  change (Rounded.dot Rounded.no_rounding z' z') with (dot z' z').
  destruct (Qltb 256 (dot z' z')); [reflexivity | apply IH].
Qed.

(** C2.  For a budget within 1..2000, and whatever the rounding [fl] of
    the arithmetic (none, or single precision), the single-precision
    evaluator iterates [z <- z^2 + c]: if [i] is the first round whose
    iterate has [|z|^2 > 256] and [i] is within the budget, the evaluator
    returns [i + 1 - nu] with [logZn = ln(|z|^2)/2] and
    [nu = ln(logZn / ln 2) / ln 2]; if no iterate within the budget passes
    the test it returns the sentinel [-1].  Without rounding the
    evaluator is [mandelbrot] of the exact model. *)
Theorem mandelbrot_escape_time
  (fl : Q -> Q) (maxIterations : Z) (c z0 : vec2) :
  (1 <= maxIterations <= 2000)%Z ->
  let z := Rounded.iterates fl c z0 in
  let m := fun n : nat => Rounded.magnitude_squared fl (z n) in
  (forall i : nat,
      (Z.of_nat i < maxIterations)%Z ->
      (forall j, (j < i)%nat -> m (S j) <= 256) ->
      256 < m (S i) ->
      Rounded.mandelbrot fl maxIterations c z0
      = (let logZn := ln (Q2R (m (S i))) / 2 in
         let nu := ln (logZn / ln 2) / ln 2 in
         INR i + 1 - nu)%R)
  /\ ((forall i : nat, (Z.of_nat i < maxIterations)%Z -> m (S i) <= 256) ->
      Rounded.mandelbrot fl maxIterations c z0 = (-1)%R)
  /\ Rounded.mandelbrot Rounded.no_rounding maxIterations c z0
     = mandelbrot maxIterations c z0.
Proof.
  intros Hn z m. subst z m. cbv beta. split; [|split].
  - intros i Hi Hbefore Hesc.
    unfold Rounded.mandelbrot, Rounded.mandelbrot_exit.
    replace 2000%nat with (i + S (1999 - i))%nat by lia.
    rewrite rounded_loop_skip by (try lia; exact Hbefore).
    rewrite rounded_loop_escape.
    + cbn [returned]. unfold smoothValue. rewrite <- iterates_S.
      rewrite Z.add_0_l, <- INR_IZR_INZ. reflexivity.
    + lia.
    + rewrite <- iterates_S. exact Hesc.
  - intros Hno.
    unfold Rounded.mandelbrot, Rounded.mandelbrot_exit.
    replace 2000%nat
      with (Z.to_nat maxIterations + (2000 - Z.to_nat maxIterations))%nat
      by lia.
    rewrite rounded_loop_skip.
    + rewrite rounded_loop_break by lia. reflexivity.
    + lia.
    + intros j Hj. apply Hno. lia.
  - unfold Rounded.mandelbrot, Rounded.mandelbrot_exit, mandelbrot,
      mandelbrot_exit.
    now rewrite rounded_loop_exact.
Qed.

(** In single precision the iterates of the origin under [c = 0] stay at
    the origin. *)
Lemma iterates_origin_binary32 (k : nat) :
  Rounded.iterates Rounded.binary32 (Vec2 0 0) (Vec2 0 0) k = Vec2 0 0.
Proof.
  induction k as [|k IH]; [reflexivity|]. rewrite iterates_S, IH.
  vm_compute. reflexivity.
Qed.

(** C2 in single precision, with the default budget of 150: at
    [c = (2, 0)] the iterates 2, 6, 38 escape at counter 2 with
    [|z|^2 = 1444]; at [c = 0] nothing escapes. *)
Lemma mandelbrot_escape_time_witness :
  (1 <= 150 <= 2000)%Z
  /\ Rounded.mandelbrot Rounded.binary32 150 (Vec2 2 0) (Vec2 0 0)
     = (INR 2 + 1 - ln (ln (Q2R 1444) / 2 / ln 2) / ln 2)%R
  /\ Rounded.mandelbrot Rounded.binary32 150 (Vec2 0 0) (Vec2 0 0) = (-1)%R.
Proof.
  assert (Hn : (1 <= 150 <= 2000)%Z) by lia.
  split; [exact Hn|]. split.
  - destruct (mandelbrot_escape_time Rounded.binary32 150 (Vec2 2 0)
                (Vec2 0 0) Hn) as (Hesc & _ & _).
    assert (Hi : (Z.of_nat 2 < 150)%Z) by lia.
    assert (Hbefore :
              forall j, (j < 2)%nat ->
                Rounded.magnitude_squared Rounded.binary32
                  (Rounded.iterates Rounded.binary32 (Vec2 2 0) (Vec2 0 0)
                     (S j)) <= 256).
    { intros j Hj.
      destruct j as [|[|j]];
        [vm_compute; discriminate | vm_compute; discriminate | lia]. }
    assert (Hm : 256 < Rounded.magnitude_squared Rounded.binary32
                         (Rounded.iterates Rounded.binary32 (Vec2 2 0)
                            (Vec2 0 0) 3)) by (vm_compute; reflexivity).
    assert (E : Rounded.magnitude_squared Rounded.binary32
                  (Rounded.iterates Rounded.binary32 (Vec2 2 0) (Vec2 0 0) 3)
                = 1444) by (vm_compute; reflexivity).
    rewrite (Hesc 2%nat Hi Hbefore Hm), E. reflexivity.
  - destruct (mandelbrot_escape_time Rounded.binary32 150 (Vec2 0 0)
                (Vec2 0 0) Hn) as (_ & Hno & _).
    apply Hno. intros i _. rewrite iterates_origin_binary32.
    vm_compute. discriminate.
Defined.

(** Rounding to single precision: [0.1]; a tie, which goes to the even
    neighbour; a value next to 16; a third. *)
Example binary32_samples :
  (Rounded.binary32 0.1, Rounded.binary32 16777217,
   Rounded.binary32 16.0000005, Rounded.binary32 (1 # 3))
  = (13421773 # 134217728, 16777216, 16, 11184811 # 33554432).
Proof. vm_compute. reflexivity. Qed.

(** The sample [(-0.75, 0.1)] in single precision, with the default
    budget: the escape test succeeds at counter 34, with
    [|z|^2 = 3879.1474609375]. *)
Example mandelbrot_exit_single_precision :
  Rounded.mandelbrot_exit Rounded.binary32 150
    (Vec2 (Rounded.binary32 (-0.75)) (Rounded.binary32 0.1)) (Vec2 0 0)
  = Escaped 34 (3972247 # 1024).
Proof. vm_compute. reflexivity. Qed.

(** A sample on which the rounding decides.  [c = 3.53112888336181640625]
    is a single-precision number; [c^2 + c] is just above 16 and is
    rounded to 16, so that [|z|^2 = 256] does not pass the test: with a
    budget of 2 the evaluator returns the sentinel in single precision,
    where exact arithmetic escapes at counter 1. *)
Example rounding_decides :
  let c := Vec2 3.53112888336181640625 0 in
  Rounded.binary32 (X c) == X c
  /\ Rounded.mandelbrot_exit Rounded.binary32 2 c (Vec2 0 0) = Exhausted
  /\ exists m, mandelbrot_exit 2 c (Vec2 0 0) = Escaped 1 m.
Proof.
  split; [vm_compute; reflexivity|]. split; [vm_compute; reflexivity|].
  eexists. vm_compute. reflexivity.
Qed.

(** *** Two literal points *)

Lemma orbit_origin (k : nat) : orbit (Vec2 0 0) (Vec2 0 0) k = Vec2 0 0.
Proof.
  induction k as [|k IH]; [reflexivity|]. rewrite orbit_S, IH. reflexivity.
Qed.

(** C5.  In-set determinism: with [c = 0] and [z0 = 0] no iterate ever
    passes the escape test, and for every budget within 1..2000 the
    evaluator falls out of its loop and returns the sentinel [-1]. *)
Theorem mandelbrot_origin_in_set (maxIterations : Z) :
  (1 <= maxIterations <= 2000)%Z ->
  (forall k : nat,
      Qltb 256 (dot (orbit (Vec2 0 0) (Vec2 0 0) k)
                    (orbit (Vec2 0 0) (Vec2 0 0) k)) = false)
  /\ mandelbrot_exit maxIterations (Vec2 0 0) (Vec2 0 0) = Exhausted
  /\ mandelbrot maxIterations (Vec2 0 0) (Vec2 0 0) = (-1)%R.
Proof.
  intros Hn.
  assert (Hex : mandelbrot_exit maxIterations (Vec2 0 0) (Vec2 0 0)
                = Exhausted).
  { unfold mandelbrot_exit.
    replace 2000%nat
      with (Z.to_nat maxIterations + (2000 - Z.to_nat maxIterations))%nat
      by lia.
    rewrite mandelbrot_loop_skip.
    - apply mandelbrot_loop_break. lia.
    - lia.
    - intros j _. rewrite orbit_origin. discriminate. }
  split; [|split].
  - intros k. rewrite orbit_origin. reflexivity.
  - exact Hex.
  - unfold mandelbrot. now rewrite Hex.
Qed.

(** C5 at the largest budget, 2000. *)
Lemma mandelbrot_origin_in_set_witness :
  (1 <= 2000 <= 2000)%Z
  /\ mandelbrot 2000 (Vec2 0 0) (Vec2 0 0) = (-1)%R.
Proof.
  split; [lia|]. apply (mandelbrot_origin_in_set 2000). lia.
Defined.

(** The orbit of [c = (2, 0)] from [z0 = 0]: 2, 6, 38. *)
Example orbit_2_0 :
  let c := Vec2 2 0 in
  let z0 := Vec2 0 0 in
  (orbit c z0 1, orbit c z0 2, orbit c z0 3)
  = (Vec2 2 0, Vec2 6 0, Vec2 38 0).
Proof. reflexivity. Qed.

(** The other literal point of the design document, [c = (10, 10)]: the
    iterates are [(10, 10)] and [(10, 210)], and the escape test first
    succeeds at counter 1. *)
Example mandelbrot_exit_10_10 :
  mandelbrot_exit 150 (Vec2 10 10) (Vec2 0 0) = Escaped 1 44200.
Proof. vm_compute. reflexivity. Qed.

(** C6, as stated, fails: the escape test does not first succeed at
    counter 1 for [c = (2, 0)].  With the default budget of 150 the loop
    returns at counter 2, with [|z|^2 = 1444]; with a budget of 1 it does
    not return from the escape test at all. *)
Lemma known_escaping_point_not_at_1 :
  ~ (forall maxIterations : Z,
        (1 <= maxIterations)%Z ->
        exists m, mandelbrot_exit maxIterations (Vec2 2 0) (Vec2 0 0)
                  = Escaped 1 m).
Proof.
  intros H. destruct (H 150%Z ltac:(lia)) as [m Hm].
  vm_compute in Hm. discriminate Hm.
Qed.

(** C6, amended.  For [c = (2, 0)], [z0 = 0] the iterates are 2, 6, 38:
    the escape test first succeeds at counter 2 ([|z|^2 = 1444]) for
    every budget of at least 3, and the evaluator returns
    [2 + 1 - nu]; with a budget of 1 or 2 it returns the sentinel. *)
Theorem known_escaping_point (maxIterations : Z) :
  (1 <= maxIterations)%Z ->
  ((3 <= maxIterations)%Z ->
   mandelbrot_exit maxIterations (Vec2 2 0) (Vec2 0 0) = Escaped 2 1444
   /\ mandelbrot maxIterations (Vec2 2 0) (Vec2 0 0) = smoothValue 2 1444)
  /\ ((maxIterations <= 2)%Z ->
      mandelbrot_exit maxIterations (Vec2 2 0) (Vec2 0 0) = Exhausted
      /\ mandelbrot maxIterations (Vec2 2 0) (Vec2 0 0) = (-1)%R).
Proof.
  intros H1.
  assert (Hrun : forall fuel,
             mandelbrot_loop maxIterations (Vec2 2 0) (S (S (S fuel))) 0
                             (Vec2 0 0)
             = if (3 <=? maxIterations)%Z then Escaped 2 1444 else Exhausted).
  { intros fuel.
    rewrite mandelbrot_loop_round by (try lia; discriminate).
    destruct (Z.leb_spec 3 maxIterations) as [H3|H3].
    - rewrite mandelbrot_loop_round by (try lia; discriminate).
      rewrite mandelbrot_loop_escape by (try lia; reflexivity).
      reflexivity.
    - destruct (Z.eq_dec maxIterations 1) as [->|Hne].
      + apply mandelbrot_loop_break. lia.
      + rewrite mandelbrot_loop_round by (try lia; discriminate).
        apply mandelbrot_loop_break. lia. }
  unfold mandelbrot, mandelbrot_exit.
  change 2000%nat with (S (S (S 1997))). rewrite Hrun.
  split; intros Hn.
  - destruct (Z.leb_spec 3 maxIterations); [now split | lia].
  - destruct (Z.leb_spec 3 maxIterations); [lia | now split].
Qed.

(** C6 at the default budget of 150. *)
Lemma known_escaping_point_witness :
  (1 <= 150)%Z
  /\ mandelbrot_exit 150 (Vec2 2 0) (Vec2 0 0) = Escaped 2 1444.
Proof.
  split; [lia|].
  apply (known_escaping_point 150); lia.
Defined.

(** An escape in the very first round returns a value below [-1]. *)
Lemma first_round_escape (n : Z) (c z0 : vec2) :
  (1 <= n)%Z ->
  256 < dot (step c z0) (step c z0) ->
  mandelbrot_exit n c z0 = Escaped 0 (dot (step c z0) (step c z0))
  /\ (mandelbrot n c z0 < -1)%R.
Proof.
  intros Hn Hm.
  assert (Hex : mandelbrot_exit n c z0
                = Escaped 0 (dot (step c z0) (step c z0))).
  { unfold mandelbrot_exit. change 2000%nat with (S 1999).
    apply mandelbrot_loop_escape; [lia | exact Hm]. }
  split; [exact Hex|].
  unfold mandelbrot. rewrite Hex. cbn [returned].
  pose proof (smoothValue_lt 0 _ Hm). lra.
Qed.

(** More generally, whatever escapes at counter 0 or 1 is returned as a
    negative value. *)
Lemma early_escape_negative (i : Z) (m : Q) :
  (i <= 1)%Z -> 256 < m -> (returned (Escaped i m) < 0)%R.
Proof.
  intros Hi Hm. cbn [returned]. pose proof (smoothValue_lt i m Hm) as H.
  apply IZR_le in Hi. lra.
Qed.

Lemma shade_negative (iter : R) : (iter < 0)%R -> shade iter = InSetColor.
Proof.
  intros H. unfold shade.
  destruct (Rlt_dec iter 0) as [_|Hge]; [reflexivity | contradiction].
Qed.

(** C10.  Sentinel collision: the finite sample [c = (16.1, 0)] (Mandelbrot
    binding, any budget of at least 1) passes the escape test in the very
    first round (counter 0), the value returned for it is negative, and
    the test [iter < 0.0] of [main] therefore shades it as in-set: so does
    the pixel at the centre of a view centred on that point. *)
Theorem sentinel_collision (maxIterations : Z) :
  (1 <= maxIterations)%Z ->
  let c := Vec2 16.1 0 in
  let u := {| u_center := c; u_centerDP := Vec4 16.1 0 0 0; u_zoom := 1;
              u_useDP := false; u_maxIterations := maxIterations;
              u_colorPalette := 0; u_isJulia := false;
              u_juliaC := Vec2 (-0.7) 0.27015;
              u_resolution := Vec2 1920 1080; u_time := 0 |} in
  (exists m, mandelbrot_exit maxIterations c (Vec2 0 0) = Escaped 0 m
             /\ 256 < m)
  /\ (mandelbrot maxIterations c (Vec2 0 0) < 0)%R
  /\ shade (mandelbrot maxIterations c (Vec2 0 0)) = InSetColor
  /\ main u (Vec2 0.5 0.5) = InSetColor.
Proof.
  intros Hn c u.
  destruct (first_round_escape maxIterations c (Vec2 0 0) Hn
              ltac:(reflexivity)) as [Hex Hneg].
  split; [|split; [|split]].
  - eexists. split; [exact Hex | reflexivity].
  - lra.
  - apply shade_negative. lra.
  - unfold main, main_iter. cbn [u_useDP u].
    unfold main_iter_SP. cbn [u_isJulia u_maxIterations u].
    apply shade_negative.
    match goal with
    | |- (mandelbrot _ ?c' ?z < 0)%R =>
        destruct (first_round_escape maxIterations c' z Hn
                    ltac:(reflexivity)) as [_ Hneg']
    end.
    lra.
Qed.

(** C10 at a budget of 1. *)
Lemma sentinel_collision_witness :
  (1 <= 1)%Z
  /\ shade (mandelbrot 1 (Vec2 16.1 0) (Vec2 0 0)) = InSetColor.
Proof.
  split; [lia|]. apply (sentinel_collision 1). lia.
Defined.

(** *** Extended precision against single precision *)

Lemma smoothValue_comp (i : Z) (m m' : Q) :
  m == m' -> smoothValue i m = smoothValue i m'.
Proof. intros H. unfold smoothValue. now rewrite (Qeq_eqR _ _ H). Qed.

(** The high components produced by the helpers depend on the high
    components of the operands only; the low components never flow back. *)
Lemma ds_add_hi (a b : vec2) : X (ds_add a b) = X a + X b.
Proof. reflexivity. Qed.

Lemma ds_add_float_hi (a : vec2) (b : Q) : X (ds_add_float a b) = X a + b.
Proof. reflexivity. Qed.

Lemma ds_mul_hi (a b : vec2) : X (ds_mul a b) = X a * X b.
Proof. reflexivity. Qed.

Lemma ds_mul_float_hi (a : vec2) (b : Q) : X (ds_mul_float a b) = X a * b.
Proof. reflexivity. Qed.

Lemma complexSquareDP_hi (zx zy : vec2) (z : vec2) :
  X zx == X z -> X zy == Y z ->
  X (fst (complexSquareDP zx zy)) == X (complexSquare z)
  /\ X (snd (complexSquareDP zx zy)) == Y (complexSquare z).
Proof.
  intros Hx Hy. unfold complexSquareDP, complexSquare. cbn [fst snd].
  rewrite ds_add_hi, !ds_mul_float_hi, !ds_mul_hi. cbn [X Y].
  rewrite Hx, Hy. split; ring.
Qed.

(** The extended-precision loop, run on pairs whose high components are
    those of a single-precision run, returns what that run returns. *)
Lemma mandelbrotDP_loop_hi (n : Z) (c cx cy : vec2) :
  X cx == X c -> X cy == Y c ->
  forall (fuel : nat) (i : Z) (zx zy z : vec2),
    X zx == X z -> X zy == Y z ->
    returned (mandelbrotDP_loop n cx cy fuel i zx zy)
    = returned (mandelbrot_loop n c fuel i z).
Proof.
  intros Hcx Hcy. induction fuel as [|fuel IH]; intros i zx zy z Hx Hy.
  - reflexivity.
  - cbn [mandelbrotDP_loop mandelbrot_loop].
    destruct (i >=? n)%Z; [reflexivity|].
    destruct (complexSquareDP_hi zx zy z Hx Hy) as [Hsx Hsy].
    destruct (complexSquareDP zx zy) as [newZx newZy].
    cbn [fst snd] in Hsx, Hsy.
    assert (Hx' : X (ds_add newZx cx) == X (vadd (complexSquare z) c)).
    { rewrite ds_add_hi. cbn [vadd X]. now rewrite Hsx, Hcx. }
    assert (Hy' : X (ds_add newZy cy) == Y (vadd (complexSquare z) c)).
    { rewrite ds_add_hi. cbn [vadd Y]. now rewrite Hsy, Hcy. }
    set (zx' := ds_add newZx cx) in *. set (zy' := ds_add newZy cy) in *.
    set (z' := vadd (complexSquare z) c) in *.
    assert (Hm : X zx' * X zx' + X zy' * X zy' == dot z' z').
    { unfold dot. now rewrite Hx', Hy'. }
    rewrite Hm.
    destruct (Qltb 256 (dot z' z')).
    + cbn [returned]. now apply smoothValue_comp.
    + now apply IH.
Qed.

(** What [mandelbrotDP] computes: [mandelbrot] on the high components. *)
Lemma mandelbrotDP_high_components (n : Z) (cx cy z0x z0y : vec2) :
  mandelbrotDP n cx cy z0x z0y
  = mandelbrot n (Vec2 (X cx) (X cy)) (Vec2 (X z0x) (X z0y)).
Proof.
  unfold mandelbrotDP, mandelbrot, mandelbrotDP_exit, mandelbrot_exit.
  apply mandelbrotDP_loop_hi; reflexivity.
Qed.

(** *** Bounds on logarithms *)









(** X4.  The two branches of [main] compute the same [iter] for every
    fragment as soon as the high components of [u_centerDP] are the
    centre [u_center], in Mandelbrot and in Julia mode, whatever the low
    components hold. *)
Lemma main_branches_agree (u : Uniforms) (vUv : vec2) :
  X4 (u_centerDP u) == X (u_center u) ->
  Z4 (u_centerDP u) == Y (u_center u) ->
  main_iter_DP u vUv = main_iter_SP u vUv.
Proof.
  intros Hx Hy. unfold main_iter_DP, main_iter_SP.
  unfold mandelbrotDP, mandelbrot, mandelbrotDP_exit, mandelbrot_exit.
  destruct (u_isJulia u).
  - apply mandelbrotDP_loop_hi; try reflexivity.
    + rewrite ds_add_float_hi. cbn [vadd vdivs X Y]. now rewrite Hx.
    + rewrite ds_add_float_hi. cbn [vadd vdivs X Y]. now rewrite Hy.
  - apply mandelbrotDP_loop_hi; try reflexivity.
    + rewrite ds_add_float_hi. cbn [vadd vdivs X Y]. now rewrite Hx.
    + rewrite ds_add_float_hi. cbn [vadd vdivs X Y]. now rewrite Hy.
Qed.

(** X3.  The extended-precision evaluator never reads a low component:
    two calls whose pairs have the same high components return the same
    value, whatever the low components are. *)
Theorem low_components_never_read
  (n : Z) (cx cy z0x z0y cx' cy' z0x' z0y' : vec2) :
  X cx == X cx' -> X cy == X cy' -> X z0x == X z0x' -> X z0y == X z0y' ->
  mandelbrotDP n cx cy z0x z0y = mandelbrotDP n cx' cy' z0x' z0y'.
Proof.
  intros Hcx Hcy Hzx Hzy.
  transitivity (mandelbrot n (Vec2 (X cx') (X cy')) (Vec2 (X z0x') (X z0y'))).
  - unfold mandelbrotDP, mandelbrot, mandelbrotDP_exit, mandelbrot_exit.
    apply mandelbrotDP_loop_hi; assumption.
  - symmetry.
    unfold mandelbrotDP, mandelbrot, mandelbrotDP_exit, mandelbrot_exit.
    apply mandelbrotDP_loop_hi; reflexivity.
Qed.

(** X3 at the pair [(16, 0.0000005)] against [ds_set 16]. *)
Lemma low_components_never_read_witness :
  X (Vec2 16 0.0000005) == X (ds_set 16)
  /\ mandelbrotDP 150 (Vec2 16 0.0000005) (ds_set 0) (ds_set 0) (ds_set 0)
     = mandelbrotDP 150 (ds_set 16) (ds_set 0) (ds_set 0) (ds_set 0).
Proof.
  split; [reflexivity|].
  apply (low_components_never_read 150); reflexivity.
Defined.

(** X4 at a view beyond the switch to extended precision. *)
Lemma main_branches_agree_witness :
  let u := {| u_center := Vec2 (-0.75) 0.1;
              u_centerDP := Vec4 (-0.75) 0 0.1 0;
              u_zoom := 2000000; u_useDP := true; u_maxIterations := 415;
              u_colorPalette := 0; u_isJulia := false;
              u_juliaC := Vec2 (-0.7) 0.27015;
              u_resolution := Vec2 1920 1080; u_time := 0 |} in
  X4 (u_centerDP u) == X (u_center u)
  /\ Z4 (u_centerDP u) == Y (u_center u)
  /\ main_iter_DP u (Vec2 0.25 0.75) = main_iter_SP u (Vec2 0.25 0.75).
Proof.
  intros u. split; [reflexivity|]. split; [reflexivity|].
  apply (main_branches_agree u (Vec2 0.25 0.75)); reflexivity.
Defined.

(** *** The budget *)

Lemma geb_false (i n : Z) : (i < n)%Z -> (i >=? n)%Z = false.
Proof. intros H. rewrite Z.geb_leb. apply Z.leb_gt. lia. Qed.

Lemma geb_true (i n : Z) : (n <= i)%Z -> (i >=? n)%Z = true.
Proof. intros H. rewrite Z.geb_leb. apply Z.leb_le. lia. Qed.

(** Two budgets that the counter cannot reach within the fuel give the
    same run. *)
Lemma mandelbrot_loop_budget (n n' : Z) (c : vec2) :
  forall (fuel : nat) (i : Z) (z : vec2),
    (i + Z.of_nat fuel <= n)%Z -> (i + Z.of_nat fuel <= n')%Z ->
    mandelbrot_loop n c fuel i z = mandelbrot_loop n' c fuel i z.
Proof.
  induction fuel as [|fuel IH]; intros i z Hn Hn'; [reflexivity|].
  cbn [mandelbrot_loop]. rewrite !geb_false by lia.
  destruct (Qltb 256 _); [reflexivity|]. apply IH; lia.
Qed.

Lemma mandelbrotDP_loop_budget (n n' : Z) (cx cy : vec2) :
  forall (fuel : nat) (i : Z) (zx zy : vec2),
    (i + Z.of_nat fuel <= n)%Z -> (i + Z.of_nat fuel <= n')%Z ->
    mandelbrotDP_loop n cx cy fuel i zx zy
    = mandelbrotDP_loop n' cx cy fuel i zx zy.
Proof.
  induction fuel as [|fuel IH]; intros i zx zy Hn Hn'; [reflexivity|].
  cbn [mandelbrotDP_loop]. rewrite !geb_false by lia.
  destruct (complexSquareDP zx zy) as [newZx newZy].
  destruct (Qltb 256 _); [reflexivity|]. apply IH; lia.
Qed.

(** X5.  The loop bound of the shader caps the budget: every
    [u_maxIterations] of 2000 or more gives what 2000 gives, in both
    evaluators. *)
Theorem budget_capped_by_loop_bound (n : Z) (c z0 cx cy z0x z0y : vec2) :
  (2000 <= n)%Z ->
  mandelbrot n c z0 = mandelbrot 2000 c z0
  /\ mandelbrotDP n cx cy z0x z0y = mandelbrotDP 2000 cx cy z0x z0y.
Proof.
  intros Hn. unfold mandelbrot, mandelbrotDP, mandelbrot_exit, mandelbrotDP_exit.
  split; f_equal.
  - apply mandelbrot_loop_budget; lia.
  - apply mandelbrotDP_loop_budget; lia.
Qed.

(** X5 at the budget 5000 and the sample [(2, 0)]. *)
Lemma budget_capped_by_loop_bound_witness :
  (2000 <= 5000)%Z
  /\ mandelbrot 5000 (Vec2 2 0) (Vec2 0 0) = mandelbrot 2000 (Vec2 2 0) (Vec2 0 0).
Proof.
  split; [lia|].
  apply (budget_capped_by_loop_bound 5000 (Vec2 2 0) (Vec2 0 0)
           (Vec2 0 0) (Vec2 0 0) (Vec2 0 0) (Vec2 0 0)). lia.
Defined.

(** X6.  With a budget of zero or less the loop breaks before its first
    round: both branches of [main] get the sentinel for every fragment,
    Mandelbrot or Julia, and [main] shades every fragment as in-set. *)
Theorem empty_budget_all_in_set (u : Uniforms) (vUv : vec2) :
  (u_maxIterations u <= 0)%Z ->
  main_iter u vUv = (-1)%R /\ main u vUv = InSetColor.
Proof.
  intros Hn.
  assert (H : main_iter u vUv = (-1)%R).
  { assert (HSP : forall c z0,
               mandelbrot (u_maxIterations u) c z0 = (-1)%R).
    { intros c z0. unfold mandelbrot, mandelbrot_exit.
      now rewrite mandelbrot_loop_break by lia. }
    unfold main_iter, main_iter_DP, main_iter_SP.
    destruct (u_useDP u), (u_isJulia u);
      rewrite ?mandelbrotDP_high_components; apply HSP. }
  split; [exact H|].
  unfold main. rewrite H. apply shade_negative. lra.
Qed.

(** X6 at the budget 0, on a view centred on [(10, 10)], a point that
    escapes in the second round under any budget of 2 or more. *)
Lemma empty_budget_all_in_set_witness :
  let u := {| u_center := Vec2 10 10; u_centerDP := Vec4 10 0 10 0;
              u_zoom := 1; u_useDP := false; u_maxIterations := 0;
              u_colorPalette := 0; u_isJulia := false;
              u_juliaC := Vec2 (-0.7) 0.27015;
              u_resolution := Vec2 1920 1080; u_time := 0 |} in
  (u_maxIterations u <= 0)%Z /\ main u (Vec2 0.5 0.5) = InSetColor.
Proof.
  intros u. assert (H : (u_maxIterations u <= 0)%Z) by (cbn; lia).
  split; [exact H|].
  apply (empty_budget_all_in_set u (Vec2 0.5 0.5) H).
Defined.

(** An escape is found below the budget, with a magnitude above the
    bound, and a larger budget finds the same escape. *)
Lemma mandelbrot_loop_escaped (n : Z) (c : vec2) :
  forall (fuel : nat) (i : Z) (z : vec2) (j : Z) (m : Q),
    mandelbrot_loop n c fuel i z = Escaped j m ->
    (i <= j < n)%Z /\ (j < i + Z.of_nat fuel)%Z /\ 256 < m
    /\ forall n', (n <= n')%Z -> mandelbrot_loop n' c fuel i z = Escaped j m.
Proof.
  induction fuel as [|fuel IH]; intros i z j m H; [discriminate|].
  cbn [mandelbrot_loop] in H |- *.
  destruct (Z.ltb_spec i n) as [Hlt|Hge].
  - rewrite geb_false in H by lia.
    destruct (Qltb 256 (dot (vadd (complexSquare z) c)
                            (vadd (complexSquare z) c))) eqn:E.
    + injection H as <- <-. apply Qltb_true in E.
      repeat split; try lia; try exact E.
      intros n' Hn'. rewrite geb_false by lia. reflexivity.
    + destruct (IH _ _ _ _ H) as (Hj & Hf & Hm & Hmore).
      repeat split; try lia; try exact Hm.
      intros n' Hn'. rewrite geb_false by lia. now apply Hmore.
  - rewrite geb_true in H by lia. discriminate.
Qed.

(** The same, for the evaluator. *)
Lemma mandelbrot_exit_escaped (n : Z) (c z0 : vec2) (i : Z) (m : Q) :
  mandelbrot_exit n c z0 = Escaped i m ->
  (0 <= i < n)%Z /\ (i < 2000)%Z /\ 256 < m
  /\ forall n', (n <= n')%Z -> mandelbrot_exit n' c z0 = Escaped i m.
Proof.
  unfold mandelbrot_exit. intros H.
  destruct (mandelbrot_loop_escaped n c 2000 0 z0 i m H)
    as (Hi & Hf & Hm & Hmore).
  split; [exact Hi|]. split; [exact Hf|]. split; [exact Hm | exact Hmore].
Qed.

(** X7.  A sample that escapes under a budget escapes at a counter below
    that budget (and below 2000) with a magnitude above 256, and under
    every larger budget the evaluator returns the very same value. *)
Theorem escape_survives_larger_budget (n n' : Z) (c z0 : vec2) (i : Z) (m : Q) :
  mandelbrot_exit n c z0 = Escaped i m ->
  (n <= n')%Z ->
  (0 <= i < n)%Z /\ (i < 2000)%Z /\ 256 < m
  /\ mandelbrot_exit n' c z0 = Escaped i m
  /\ mandelbrot n' c z0 = mandelbrot n c z0.
Proof.
  intros H Hn.
  destruct (mandelbrot_exit_escaped n c z0 i m H) as (Hi & Hf & Hm & Hmore).
  split; [exact Hi|]. split; [exact Hf|]. split; [exact Hm|].
  split; [exact (Hmore n' Hn)|].
  unfold mandelbrot. now rewrite H, (Hmore n' Hn).
Qed.

(** X7 at the sample [(2, 0)], budgets 150 and 2000. *)
Lemma escape_survives_larger_budget_witness :
  mandelbrot_exit 150 (Vec2 2 0) (Vec2 0 0) = Escaped 2 1444
  /\ (150 <= 2000)%Z
  /\ mandelbrot_exit 2000 (Vec2 2 0) (Vec2 0 0) = Escaped 2 1444.
Proof.
  split; [vm_compute; reflexivity|]. split; [lia|].
  apply (escape_survives_larger_budget 150 2000 (Vec2 2 0) (Vec2 0 0) 2 1444);
    [vm_compute; reflexivity | lia].
Defined.

(** X8.  For a budget of at least 1, every value that [main] gets from
    the evaluators, in either branch, is below the budget minus one: the
    quotient [iter / float(u_maxIterations)] is below 1. *)
Theorem returned_below_budget (u : Uniforms) (vUv : vec2) :
  (1 <= u_maxIterations u)%Z ->
  (main_iter u vUv < IZR (u_maxIterations u) - 1)%R
  /\ (main_iter u vUv / IZR (u_maxIterations u) < 1)%R.
Proof.
  intros Hn.
  assert (Hpos : (1 <= IZR (u_maxIterations u))%R) by now apply IZR_le.
  cut (main_iter u vUv < IZR (u_maxIterations u) - 1)%R.
  { intros H. split; [exact H|].
    apply Rmult_lt_reg_r with (IZR (u_maxIterations u)); [lra|].
    unfold Rdiv. rewrite Rmult_assoc, Rinv_l by lra. lra. }
  assert (HSP : forall c z0,
             (mandelbrot (u_maxIterations u) c z0
              < IZR (u_maxIterations u) - 1)%R).
  { intros c z0. unfold mandelbrot.
    destruct (mandelbrot_exit (u_maxIterations u) c z0) as [i m|] eqn:E.
    - destruct (mandelbrot_exit_escaped _ _ _ _ _ E) as (Hi & _ & Hm & _).
      cbn [returned]. pose proof (smoothValue_lt i m Hm).
      assert (IZR i <= IZR (u_maxIterations u) - 1)%R.
      { rewrite <- minus_IZR. apply IZR_le. lia. }
      lra.
    - cbn [returned]. apply IZR_le in Hn. lra. }
  unfold main_iter, main_iter_DP, main_iter_SP.
  destruct (u_useDP u), (u_isJulia u);
    rewrite ?mandelbrotDP_high_components; apply HSP.
Qed.

(** X8 at the default budget of 150, on a view centred on [(2, 0)]. *)
Lemma returned_below_budget_witness :
  let u := {| u_center := Vec2 2 0; u_centerDP := Vec4 2 0 0 0;
              u_zoom := 1; u_useDP := false; u_maxIterations := 150;
              u_colorPalette := 0; u_isJulia := false;
              u_juliaC := Vec2 (-0.7) 0.27015;
              u_resolution := Vec2 1920 1080; u_time := 0 |} in
  (1 <= u_maxIterations u)%Z
  /\ (main_iter u (Vec2 0.5 0.5) < IZR (u_maxIterations u) - 1)%R.
Proof.
  intros u. assert (H : (1 <= u_maxIterations u)%Z) by (cbn; lia).
  split; [exact H|].
  apply (proj1 (returned_below_budget u (Vec2 0.5 0.5) H)).
Defined.

(** *** The sample of a fragment *)

(** The single-precision branch of [main] evaluates the sample
    [main_c]: as [c] in Mandelbrot mode, as [z0] in Julia mode. *)
Lemma main_iter_SP_sample (u : Uniforms) (vUv : vec2) :
  main_iter_SP u vUv
  = if u_isJulia u
    then mandelbrot (u_maxIterations u) (u_juliaC u) (main_c u vUv)
    else mandelbrot (u_maxIterations u) (main_c u vUv) (Vec2 0 0).
Proof. reflexivity. Qed.

(** *** Symmetries of the picture *)

(** Two runs of the loop whose imaginary parts differ by the sign [s]
    throughout ([s] is 1 or -1) return the same value. *)
Lemma mandelbrot_loop_mirror (s : Q) (n : Z) (c c' : vec2) :
  s * s == 1 -> X c' == X c -> Y c' == s * Y c ->
  forall (fuel : nat) (i : Z) (z z' : vec2),
    X z' == X z -> Y z' == s * Y z ->
    returned (mandelbrot_loop n c' fuel i z')
    = returned (mandelbrot_loop n c fuel i z).
Proof.
  intros Hs Hcx Hcy. induction fuel as [|fuel IH]; intros i z z' Hx Hy.
  - reflexivity.
  - cbn [mandelbrot_loop]. destruct (i >=? n)%Z; [reflexivity|].
    set (w := vadd (complexSquare z) c).
    set (w' := vadd (complexSquare z') c').
    assert (Hwx : X w' == X w).
    { unfold w, w', vadd, complexSquare. cbn [X Y].
      rewrite Hx, Hy, Hcx.
      assert (E : s * Y z * (s * Y z) == s * s * (Y z * Y z)) by ring.
      rewrite E, Hs. ring. }
    assert (Hwy : Y w' == s * Y w).
    { unfold w, w', vadd, complexSquare. cbn [X Y].
      rewrite Hx, Hy, Hcy. ring. }
    assert (Hm : dot w' w' == dot w w).
    { unfold dot. rewrite Hwx, Hwy.
      assert (E : s * Y w * (s * Y w) == s * s * (Y w * Y w)) by ring.
      rewrite E, Hs. ring. }
    rewrite Hm. destruct (Qltb 256 (dot w w)).
    + cbn [returned]. now apply smoothValue_comp.
    + now apply IH.
Qed.

(** The first round forgets the sign of the initial value. *)
Lemma mandelbrot_loop_negated (n : Z) (c : vec2) (fuel : nat) (i : Z)
  (z z' : vec2) :
  X z' == - X z -> Y z' == - Y z ->
  returned (mandelbrot_loop n c fuel i z')
  = returned (mandelbrot_loop n c fuel i z).
Proof.
  intros Hx Hy. destruct fuel as [|fuel]; [reflexivity|].
  cbn [mandelbrot_loop]. destruct (i >=? n)%Z; [reflexivity|].
  set (w := vadd (complexSquare z) c).
  set (w' := vadd (complexSquare z') c).
  assert (Hwx : X w' == X w).
  { unfold w, w', vadd, complexSquare. cbn [X Y]. rewrite Hx, Hy. ring. }
  assert (Hwy : Y w' == 1 * Y w).
  { unfold w, w', vadd, complexSquare. cbn [X Y]. rewrite Hx, Hy. ring. }
  assert (Hm : dot w' w' == dot w w).
  { unfold dot. rewrite Hwx, Hwy. ring. }
  rewrite Hm. destruct (Qltb 256 (dot w w)).
  - cbn [returned]. now apply smoothValue_comp.
  - apply (mandelbrot_loop_mirror 1); try reflexivity; try assumption. ring.
Qed.

(** X9.  In Mandelbrot mode with the centre on the real axis the picture
    is mirror-symmetric about the horizontal midline ([vUv.y] against
    [1 - vUv.y]); in Julia mode with the centre at the origin it is
    point-symmetric about the middle of the canvas. *)
Theorem picture_symmetry (u : Uniforms) (vUv : vec2) :
  (u_isJulia u = false -> Y (u_center u) == 0 ->
   main_iter_SP u (Vec2 (X vUv) (1 - Y vUv)) = main_iter_SP u vUv)
  /\ (u_isJulia u = true -> X (u_center u) == 0 -> Y (u_center u) == 0 ->
      main_iter_SP u (Vec2 (1 - X vUv) (1 - Y vUv)) = main_iter_SP u vUv).
Proof.
  split.
  - intros HJ Hc. unfold main_iter_SP. rewrite HJ.
    unfold mandelbrot, mandelbrot_exit.
    apply (mandelbrot_loop_mirror (-1)); try reflexivity.
    + unfold main_uv, vadd, vdivs, vsub. cbn [X Y]. rewrite Hc.
      unfold Qdiv. ring.
  - intros HJ Hx Hy. unfold main_iter_SP. rewrite HJ.
    unfold mandelbrot, mandelbrot_exit.
    apply mandelbrot_loop_negated.
    + unfold main_uv, vadd, vdivs, vsub. cbn [X Y]. rewrite Hx.
      unfold Qdiv. ring.
    + unfold main_uv, vadd, vdivs, vsub. cbn [X Y]. rewrite Hy.
      unfold Qdiv. ring.
Qed.

(** X9 in Mandelbrot mode, on the default view, at the fragments
    [(0.25, 0.75)] and [(0.25, 0.25)]. *)
Lemma picture_symmetry_witness :
  let u := {| u_center := Vec2 (-0.5) 0; u_centerDP := Vec4 (-0.5) 0 0 0;
              u_zoom := 1; u_useDP := false; u_maxIterations := 150;
              u_colorPalette := 0; u_isJulia := false;
              u_juliaC := Vec2 (-0.7) 0.27015;
              u_resolution := Vec2 1920 1080; u_time := 0 |} in
  u_isJulia u = false /\ Y (u_center u) == 0
  /\ main_iter_SP u (Vec2 0.25 (1 - 0.75)) = main_iter_SP u (Vec2 0.25 0.75).
Proof.
  intros u. split; [reflexivity|]. split; [reflexivity|].
  apply (proj1 (picture_symmetry u (Vec2 0.25 0.75))); reflexivity.
Defined.

(** *** Colour *)

Lemma glow_range (iter : R) :
  (0 <= iter)%R -> (0 < 1.0 / (1.0 + iter * 0.1) <= 1)%R.
Proof.
  intros H. assert (Hd : (1 <= 1.0 + iter * 0.1)%R) by lra.
  split.
  - apply Rdiv_lt_0_compat; lra.
  - apply Rmult_le_reg_r with (1.0 + iter * 0.1)%R; [lra|].
    unfold Rdiv. rewrite Rmult_assoc, Rinv_l by lra. lra.
Qed.

(** X10.  With the Plasma palette (index 1) the three channels handed to
    [pow(color, vec3(0.8))] in the gradient branch ([iter >= 0]) are
    positive, at most 1.2, 1.15 and 1.3. *)
Theorem plasma_channels_positive (u : Uniforms) (iter : R) :
  u_colorPalette u = 1%Z -> (0 <= iter)%R ->
  let color := main_gradient u iter in
  (0 < R3 color <= 1.2 /\ 0 < G3 color <= 1.15 /\ 0 < B3 color <= 1.3)%R.
Proof.
  intros Hp Hi color. subst color. unfold main_gradient. rewrite Hp.
  unfold palette, cosine_palette. cbn [Z.eqb Pos.eqb R3 G3 B3].
  pose proof (glow_range iter Hi) as Hg.
  set (g := (1.0 / (1.0 + iter * 0.1))%R) in *.
  set (t := main_t u iter).
  pose proof (COS_bound (6.28318 * (2.0 * t + 0.5))).
  pose proof (COS_bound (6.28318 * (1.0 * t + 0.20))).
  pose proof (COS_bound (6.28318 * (0.0 * t + 0.25))).
  repeat split; lra.
Qed.

(** X10 at [iter = 12], budget 150. *)
Lemma plasma_channels_positive_witness :
  let u := {| u_center := Vec2 (-0.5) 0; u_centerDP := Vec4 (-0.5) 0 0 0;
              u_zoom := 1; u_useDP := false; u_maxIterations := 150;
              u_colorPalette := 1; u_isJulia := false;
              u_juliaC := Vec2 (-0.7) 0.27015;
              u_resolution := Vec2 1920 1080; u_time := 0 |} in
  u_colorPalette u = 1%Z /\ (0 <= 12)%R
  /\ (0 < R3 (main_gradient u 12))%R.
Proof.
  intros u. split; [reflexivity|].
  assert (H : (0 <= 12)%R) by lra.
  split; [exact H|].
  apply (plasma_channels_positive u 12 eq_refl H).
Defined.

Lemma INR_fact (n : nat) (z : Z) :
  Z.of_nat (fact n) = z -> INR (fact n) = IZR z.
Proof. intros <-. apply INR_IZR_INZ. Qed.

Lemma cos_1_bounds : (0 <= cos 1 <= 0.5404)%R.
Proof.
  pose proof PI2_3_2 as Hpi.
  destruct (COS 1) as [Hlo Hhi]; [lra | lra |].
  unfold cos_lb, cos_ub, cos_approx in Hlo, Hhi.
  cbn [sum_f_R0 Nat.mul Nat.add] in Hlo, Hhi. unfold cos_term in Hlo, Hhi.
  cbn [Nat.mul Nat.add] in Hlo, Hhi.
  rewrite !pow1 in Hlo, Hhi.
  rewrite (INR_fact 0 1), (INR_fact 2 2), (INR_fact 4 24), (INR_fact 6 720)
    in Hlo, Hhi by reflexivity.
  rewrite (INR_fact 8 40320) in Hhi by reflexivity.
  cbn [pow] in Hlo, Hhi.
  lra.
Qed.

Lemma cos_2_bound : (cos 2 <= -0.41)%R.
Proof.
  pose proof cos_1_bounds as H1.
  replace 2%R with (2 * 1)%R by lra. rewrite cos_2a_cos.
  nra.
Qed.

Lemma cos_between_2_and_3 (a : R) : (2 <= a <= 3)%R -> (cos a <= -0.41)%R.
Proof.
  intros [H2 H3]. pose proof PI2_3_2 as Hpi.
  pose proof cos_2_bound.
  assert (cos a <= cos 2)%R by (apply cos_decr_1; lra).
  lra.
Qed.

Lemma fract_small (x : R) : (0 <= x < 1)%R -> fract x = x.
Proof.
  intros [H0 H1]. unfold fract.
  pose proof (Zfloor_bound x) as [Hlo Hhi].
  assert (Hz : Zfloor x = 0%Z).
  { assert (A : (Zfloor x < 1)%Z) by (apply lt_IZR; lra).
    assert (B : (-1 < Zfloor x)%Z) by (apply lt_IZR; lra).
    lia. }
  rewrite Hz. lra.
Qed.

(** X11.  With the Inferno palette (index 2), whenever the animated
    gradient position [t] lies in [0.32, 0.47] the red channel handed to
    [pow(color, vec3(0.8))] is negative, whatever the glow adds. *)
Theorem inferno_red_channel_negative (u : Uniforms) (iter : R) :
  u_colorPalette u = 2%Z -> (0 <= iter)%R ->
  (0.32 <= main_t u iter <= 0.47)%R ->
  (R3 (main_gradient u iter) < 0)%R.
Proof.
  intros Hp Hi Ht. unfold main_gradient. rewrite Hp.
  unfold palette, cosine_palette. cbn [Z.eqb Pos.eqb R3 G3 B3].
  pose proof (glow_range iter Hi) as Hg.
  set (g := (1.0 / (1.0 + iter * 0.1))%R) in *.
  set (t := main_t u iter) in *.
  assert (Hc : (cos (6.28318 * (1.0 * t + 0.0)) <= -0.41)%R)
    by (apply cos_between_2_and_3; lra).
  lra.
Qed.

(** X11 at [iter = 0] and [u_time = 20], where [t] is 0.4. *)
Lemma inferno_red_channel_negative_witness :
  let u := {| u_center := Vec2 (-0.5) 0; u_centerDP := Vec4 (-0.5) 0 0 0;
              u_zoom := 1; u_useDP := false; u_maxIterations := 150;
              u_colorPalette := 2; u_isJulia := false;
              u_juliaC := Vec2 (-0.7) 0.27015;
              u_resolution := Vec2 1920 1080; u_time := 20 |} in
  u_colorPalette u = 2%Z /\ (0 <= 0)%R
  /\ (0.32 <= main_t u 0 <= 0.47)%R
  /\ (R3 (main_gradient u 0) < 0)%R.
Proof.
  intros u. split; [reflexivity|].
  assert (H : (0 <= 0)%R) by lra.
  assert (Ht : (0.32 <= main_t u 0 <= 0.47)%R).
  { unfold main_t, u. cbn [u_maxIterations u_time].
    change 20 with (inject_Z 20). rewrite Q2R_inject_Z.
    rewrite fract_small; lra. }
  split; [exact H|]. split; [exact Ht|].
  apply (inferno_red_channel_negative u 0 eq_refl H Ht).
Defined.

(** X12.  On the unit square of texture coordinates the vignette factor
    lies in [0.85, 1]; a fragment of the in-set branch has red and green
    0 and blue between 0.0425 and 0.05. *)
Theorem in_set_color_range (vUv : vec2) :
  0 <= X vUv <= 1 -> 0 <= Y vUv <= 1 ->
  0.85 <= vignette vUv <= 1
  /\ (let '(r, g, b) := in_set_color vUv in
      r == 0 /\ g == 0 /\ 0.0425 <= b <= 0.05).
Proof.
  intros [Hx0 Hx1] [Hy0 Hy1].
  assert (Hv : 0.85 <= vignette vUv <= 1).
  { unfold vignette, dot, vsub. cbn [X Y].
    set (a := X vUv) in *. set (b := Y vUv) in *.
    assert (Ha : - (1 # 2) <= a - 0.5 <= 1 # 2) by (split; lra).
    assert (Hb : - (1 # 2) <= b - 0.5 <= 1 # 2) by (split; lra).
    set (da := a - 0.5) in *. set (db := b - 0.5) in *.
    split; nra. }
  split; [exact Hv|].
  unfold in_set_color. set (v := vignette vUv) in *.
  repeat split; lra.
Qed.

(** X12 at a corner of the canvas. *)
Lemma in_set_color_range_witness :
  0 <= 0 <= 1 /\ 0 <= 1 <= 1 /\ 0.85 <= vignette (Vec2 0 1) <= 1.
Proof.
  assert (H0 : 0 <= 0 <= 1) by (split; discriminate).
  assert (H1 : 0 <= 1 <= 1) by (split; discriminate).
  split; [exact H0|]. split; [exact H1|].
  apply (in_set_color_range (Vec2 0 1) H0 H1).
Defined.

End ShaderFacts.

(** ** The viewport controller *)

Module RendererFacts.
Import JS Types Renderer.
Open Scope Q_scope.

(** *** Numbers *)

Lemma ndiv_Fin (p q : Q) : ~ q == 0 -> ndiv (Fin p) (Fin q) = Fin (p / q).
Proof.
  intros Hq. unfold ndiv.
  destruct (Qeq_bool q 0) eqn:E; [|reflexivity].
  apply Qeq_bool_iff in E. contradiction.
Qed.

Lemma gt_Fin (p q : Q) : gt (Fin p) (Fin q) = Qltb q p.
Proof. reflexivity. Qed.



Example division_by_zero :
  ((1 / 0)%num, (-1 / 0)%num, (0 / 0)%num, (Inf false - Inf false)%num)
  = (Inf false, Inf true, NaN, NaN).
Proof. reflexivity. Qed.

Example comparisons_with_NaN :
  (gt NaN 0, gt 0 NaN, gt (Inf false) 1000000, Math_min NaN 1)
  = (false, false, true, NaN).
Proof. reflexivity. Qed.

(** *** Cursor-anchored zoom *)

(** One wheel notch in, with the pointer at three quarters of the width
    and one quarter of the height of a 1920 by 1080 container, from the
    default view: the zoom goes from 1 to 1.1. *)
Example handleWheel_zoom_in :
  option_map p_zoom
    (handleWheel ideal {| clientX := 1440; clientY := 270; deltaY := -100 |}
       (Some {| left := 0; top := 0;
                rect_width := 1920; rect_height := 1080 |})
       (view (mount DEFAULT_STATE 1920 1080)))
  = Some (Some (Fin (1.0 * 1.1))).
Proof. reflexivity. Qed.





(** *** Iteration budget *)

Lemma ln_10_pos : (0 < ln 10)%R.
Proof. rewrite <- ln_1. apply ln_increasing; lra. Qed.

Lemma log10_le (a b : R) : (0 < a)%R -> (a <= b)%R -> (log10 a <= log10 b)%R.
Proof.
  intros Ha [Hlt|Heq]; [|subst b; lra].
  unfold log10. pose proof ln_10_pos. pose proof (ln_increasing a b Ha Hlt).
  apply Rmult_le_compat_r; [|lra].
  apply Rlt_le, Rinv_0_lt_compat. assumption.
Qed.

Lemma Q2R_pos (q : Q) : 0 < q -> (0 < Q2R q)%R.
Proof. intros H. apply Qlt_Rlt in H. now rewrite RMicromega.Q2R_0 in H. Qed.

Lemma Qle_bool_inject_Z (a b : Z) :
  Qle_bool (inject_Z a) (inject_Z b) = (a <=? b)%Z.
Proof. unfold Qle_bool, inject_Z. cbn. now rewrite !Z.mul_1_r. Qed.

Lemma Math_max_inject_Z (a b : Z) :
  Math_max (Fin (inject_Z a)) (Fin (inject_Z b)) = Fin (inject_Z (Z.max a b)).
Proof.
  unfold Math_max, nle. rewrite Qle_bool_inject_Z.
  destruct (Z.leb_spec a b); do 2 f_equal; lia.
Qed.

Lemma Math_min_inject_Z (a b : Z) :
  Math_min (Fin (inject_Z a)) (Fin (inject_Z b)) = Fin (inject_Z (Z.min a b)).
Proof.
  unfold Math_min, nle. rewrite Qle_bool_inject_Z.
  destruct (Z.leb_spec a b); do 2 f_equal; lia.
Qed.

(** The budget expression of the handlers, on a positive finite zoom. *)
Lemma iterationsNeeded_positive (P : Platform) (z : Q) :
  0 < z ->
  Math_min 2000 (Math_max 100 (floor_100_plus_log10_times_50 P (Fin z)))
  = Fin (inject_Z (iterations_on P z)).
Proof.
  intros Hz. unfold floor_100_plus_log10_times_50, iterations_on.
  assert (E1 : Qltb z 0 = false) by (apply Qltb_false; lra).
  assert (E2 : Qeq_bool z 0 = false).
  { apply not_true_iff_false. intros E. apply Qeq_bool_iff in E. lra. }
  rewrite E1, E2.
  change (Fin 100) with (Fin (inject_Z 100)).
  change (Fin 2000) with (Fin (inject_Z 2000)).
  now rewrite Math_max_inject_Z, Math_min_inject_Z.
Qed.

(** On the platform of the exact model the formula is the one in the
    reals. *)
Lemma iterations_on_ideal (zoom : Q) :
  iterations_on ideal zoom = iterations zoom.
Proof. reflexivity. Qed.

Lemma iterations_on_comp (P : Platform) (z z' : Q) :
  z == z' -> iterations_on P z = iterations_on P z'.
Proof. intros H. unfold iterations_on. now rewrite (Qeq_eqR _ _ H). Qed.

(** The budget at zoom 1 and at zoom 10. *)
Example iterations_1 : iterations 1 = 100%Z.
Proof.
  unfold iterations, log10. rewrite RMicromega.Q2R_1, ln_1.
  replace (100 + 0 / ln 10 * 50)%R with (IZR 100) by (unfold Rdiv; lra).
  now rewrite ZfloorZ.
Qed.

Example iterations_10 : iterations 10 = 150%Z.
Proof.
  unfold iterations, log10.
  change 10 with (inject_Z 10). rewrite Q2R_inject_Z.
  pose proof ln_10_pos.
  replace (100 + ln 10 / ln 10 * 50)%R with (IZR 150)
    by (unfold Rdiv; rewrite Rinv_r by lra; lra).
  now rewrite ZfloorZ.
Qed.

(** *** The budget without logarithms *)

Lemma ln_le_iff (a b : R) :
  (0 < a)%R -> (0 < b)%R -> (ln a <= ln b <-> a <= b)%R.
Proof.
  intros Ha Hb. split.
  - intros H. destruct (Rle_or_lt a b) as [Hle|Hlt]; [exact Hle|].
    pose proof (ln_increasing b a Hb Hlt). lra.
  - intros [Hlt|Heq]; [|subst; lra].
    pose proof (ln_increasing a b Ha Hlt). lra.
Qed.

Lemma Q2R_pow_nat (q : Q) (n : nat) : Q2R (q ^ Z.of_nat n) = (Q2R q ^ n)%R.
Proof.
  rewrite RMicromega.Q2RpowerRZ by (right; lia). now rewrite <- pow_powerRZ.
Qed.

(** Whether the floor reaches [100 + j], decided on rationals. *)
Lemma budget_reaches (z : Q) (j : nat) :
  0 < z ->
  (100 + Z.of_nat j <= Zfloor (100 + log10 (Q2R z) * 50))%Z
  <-> 10 ^ Z.of_nat j <= z ^ 50.
Proof.
  intros Hz. pose proof (Q2R_pos z Hz) as Hz'. pose proof ln_10_pos as H10.
  assert (Hreal : (IZR (100 + Z.of_nat j) <= 100 + log10 (Q2R z) * 50
                   <-> 10 ^ j <= Q2R z ^ 50)%R).
  { assert (E : (10 ^ j <= Q2R z ^ 50 <-> ln (10 ^ j) <= ln (Q2R z ^ 50))%R)
      by (symmetry; apply ln_le_iff; apply pow_lt; lra).
    rewrite E, !ln_pow by lra. rewrite plus_IZR, <- INR_IZR_INZ.
    replace (INR 50) with 50%R by (simpl; lra).
    unfold log10.
    split; intros H.
    - assert (H' : (INR j <= ln (Q2R z) / ln 10 * 50)%R) by lra.
      apply Rmult_le_compat_r with (r := ln 10) in H'; [|lra].
      replace (ln (Q2R z) / ln 10 * 50 * ln 10)%R
        with (50 * ln (Q2R z))%R in H' by (field; lra).
      exact H'.
    - assert (H' : (INR j <= ln (Q2R z) / ln 10 * 50)%R).
      { apply Rmult_le_reg_r with (r := ln 10); [lra|].
        replace (ln (Q2R z) / ln 10 * 50 * ln 10)%R
          with (50 * ln (Q2R z))%R by (field; lra).
        exact H. }
      lra. }
  assert (HQ : 10 ^ Z.of_nat j <= z ^ 50 <-> (10 ^ j <= Q2R z ^ 50)%R).
  { change 50%Z with (Z.of_nat 50).
    split; intros H.
    - apply Qle_Rle in H. rewrite !Q2R_pow_nat in H.
      change 10 with (inject_Z 10) in H. now rewrite Q2R_inject_Z in H.
    - apply Rle_Qle. rewrite !Q2R_pow_nat.
      change 10 with (inject_Z 10). now rewrite Q2R_inject_Z. }
  rewrite HQ, <- Hreal. split.
  - intros H. pose proof (Zfloor_bound (100 + log10 (Q2R z) * 50)) as [Hb _].
    apply IZR_le in H. lra.
  - apply Zfloor_lub.
Qed.

Lemma climb_spec (z : Q) :
  0 < z ->
  forall (fuel j : nat) (p : Q),
    p == 10 ^ Z.of_nat j ->
    (j + fuel = 1900)%nat ->
    (100 + Z.of_nat j <= iterations z)%Z ->
    climb fuel p (z ^ 50) (100 + Z.of_nat j) = iterations z.
Proof.
  intros Hz. induction fuel as [|fuel IH]; intros j p Hp Hj Hinv.
  - cbn [climb]. unfold iterations in *. lia.
  - cbn [climb].
    assert (Hp' : p * 10 == 10 ^ Z.of_nat (S j)).
    { rewrite Nat2Z.inj_succ. unfold Z.succ.
      rewrite Qpower_plus by discriminate. rewrite Hp. reflexivity. }
    rewrite Hp'.
    destruct (Qle_bool (10 ^ Z.of_nat (S j)) (z ^ 50)) eqn:E.
    + apply Qle_bool_iff, (budget_reaches z (S j) Hz) in E.
      replace (100 + Z.of_nat j + 1)%Z with (100 + Z.of_nat (S j))%Z by lia.
      apply IH; [exact Hp' | lia |]. unfold iterations. lia.
    + assert (HF : ~ (100 + Z.of_nat (S j)
                      <= Zfloor (100 + log10 (Q2R z) * 50))%Z).
      { intros H. apply (budget_reaches z (S j) Hz), Qle_bool_iff in H.
        congruence. }
      unfold iterations in *. lia.
Qed.

(** The budget, computed on rationals. *)
Lemma iterations_exec_correct (zoom : Q) :
  0 < zoom -> iterations zoom = iterations_exec zoom.
Proof.
  intros Hz. symmetry. unfold iterations_exec.
  apply (climb_spec zoom Hz 1900 0 1); [reflexivity | reflexivity |].
  unfold iterations. lia.
Qed.

Example iterations_2 : iterations 2 = 115%Z.
Proof.
  rewrite iterations_exec_correct by reflexivity. vm_compute. reflexivity.
Qed.

Example iterations_million : iterations 1000000 = 400%Z.
Proof.
  rewrite iterations_exec_correct by reflexivity. vm_compute. reflexivity.
Qed.

Example iterations_half : iterations 0.5 = 100%Z.
Proof.
  rewrite iterations_exec_correct by reflexivity. vm_compute. reflexivity.
Qed.

(** Below zero the handlers' expression is [NaN]; at zero it is 100. *)
Lemma iterationsNeeded_negative (P : Platform) (z : Q) :
  z < 0 ->
  Math_min 2000 (Math_max 100 (floor_100_plus_log10_times_50 P (Fin z))) = NaN.
Proof.
  intros Hz. unfold floor_100_plus_log10_times_50.
  assert (E : Qltb z 0 = true) by now apply Qltb_true.
  now rewrite E.
Qed.

Lemma iterationsNeeded_zero (P : Platform) :
  Math_min 2000 (Math_max 100 (floor_100_plus_log10_times_50 P (Fin 0)))
  = Fin 100.
Proof. reflexivity. Qed.

(** *** The budget of the two handlers *)

Lemma Rabs_bound (a b : R) : (Rabs a <= b)%R -> (- b <= a <= b)%R.
Proof.
  intros H. pose proof (Rle_abs a) as H1. pose proof (Rle_abs (- a)) as H2.
  rewrite Rabs_Ropp in H2. lra.
Qed.

Lemma Zfloor_within (v t delta : R) :
  (Rabs (v - t) <= delta)%R ->
  (IZR (Zfloor t) + delta <= t)%R -> (t + delta < IZR (Zfloor t) + 1)%R ->
  Zfloor v = Zfloor t.
Proof.
  intros Hv Hlo Hhi. apply Zfloor_eq.
  apply Rabs_bound in Hv. lra.
Qed.

(** Where the platform is accurate and the zoom is clear of the steps,
    the platform gives the budget of the formula in the reals. *)
Lemma iterations_on_exact (P : Platform) (delta : R) (zoom : Q) :
  evaluates_within P delta zoom -> clear_of_steps delta zoom ->
  iterations_on P zoom = iterations zoom.
Proof.
  unfold evaluates_within, clear_of_steps, iterations_on, iterations.
  intros Hv [Hlo Hhi]. cbv zeta in *.
  now rewrite (Zfloor_within _ _ delta Hv Hlo Hhi).
Qed.

Lemma iterations_on_le (P : Platform) (zoom zoom' : Q) :
  monotone P -> 0 < zoom -> zoom <= zoom' ->
  (iterations_on P zoom <= iterations_on P zoom')%Z.
Proof.
  intros [Hlog Hfl] Hz Hle. unfold iterations_on. cbv zeta.
  set (v := fl P (100 + fl P (Math_log10 P (Q2R zoom) * 50))).
  set (v' := fl P (100 + fl P (Math_log10 P (Q2R zoom') * 50))).
  assert (H : (Zfloor v <= Zfloor v')%Z).
  { apply Zfloor_le, Hfl.
    pose proof (Hlog (Q2R zoom) (Q2R zoom') (Q2R_pos _ Hz) (Qle_Rle _ _ Hle)).
    assert (H50 : (fl P (Math_log10 P (Q2R zoom) * 50)
                   <= fl P (Math_log10 P (Q2R zoom') * 50))%R)
      by (apply Hfl; lra).
    lra. }
  lia.
Qed.

Lemma monotone_ideal : monotone ideal.
Proof.
  split; cbn [Math_log10 fl ideal].
  - intros a b Ha Hab. now apply log10_le.
  - intros a b Hab. exact Hab.
Qed.

(** The rounding to 40 binary places: its error and its order. *)
Lemma to_40_places_error (r : R) :
  (- / 2199023255552 <= to_40_places r - r <= / 2199023255552)%R.
Proof.
  unfold to_40_places.
  pose proof (Zfloor_bound (r * 1099511627776 + / 2)) as [Hlo Hhi].
  set (k := IZR (Zfloor (r * 1099511627776 + / 2))) in *.
  assert (E : (k / 1099511627776 - r
               = (k - r * 1099511627776) / 1099511627776)%R) by (field; lra).
  rewrite E.
  replace (/ 2199023255552)%R with (/ 2 / 1099511627776)%R by (field; lra).
  split.
  - replace (- (/ 2 / 1099511627776))%R with (- / 2 / 1099511627776)%R
      by (field; lra).
    apply Rmult_le_compat_r; [|lra].
    apply Rlt_le, Rinv_0_lt_compat. lra.
  - apply Rmult_le_compat_r; [|lra].
    apply Rlt_le, Rinv_0_lt_compat. lra.
Qed.

Lemma to_40_places_le (a b : R) :
  (a <= b)%R -> (to_40_places a <= to_40_places b)%R.
Proof.
  intros Hab. unfold to_40_places.
  apply Rmult_le_compat_r; [apply Rlt_le, Rinv_0_lt_compat; lra|].
  apply IZR_le, Zfloor_le. lra.
Qed.

Lemma monotone_forty_places : monotone forty_places.
Proof.
  split; cbn [Math_log10 fl forty_places].
  - intros a b Ha Hab. now apply to_40_places_le, log10_le.
  - exact to_40_places_le.
Qed.

(** The platform that rounds to 40 places evaluates the expression under
    the floor to within [52 * 2^-41] of its value, hence to within any
    larger bound. *)
Lemma forty_places_accuracy (delta : R) (zoom : Q) :
  (52 / 2199023255552 <= delta)%R -> evaluates_within forty_places delta zoom.
Proof.
  intros Hd. unfold evaluates_within. cbn [Math_log10 fl forty_places].
  set (L := log10 (Q2R zoom)).
  pose proof (to_40_places_error L) as H1.
  set (L' := to_40_places L) in *.
  pose proof (to_40_places_error (L' * 50)) as H2.
  set (A := to_40_places (L' * 50)) in *.
  pose proof (to_40_places_error (100 + A)) as H3.
  set (B := to_40_places (100 + A)) in *.
  apply Rabs_le. lra.
Qed.

(** Whether [100 + log10(z) * 50] reaches [100 + a / b], decided on
    rationals. *)
Lemma value_reaches (z : Q) (a b : nat) :
  0 < z -> (0 < b)%nat ->
  (100 + INR a / INR b <= 100 + log10 (Q2R z) * 50)%R
  <-> 10 ^ Z.of_nat a <= z ^ Z.of_nat (50 * b).
Proof.
  intros Hz Hb. pose proof (Q2R_pos z Hz) as Hz'. pose proof ln_10_pos as H10.
  assert (Hb' : (0 < INR b)%R) by now apply lt_0_INR.
  assert (HQ : 10 ^ Z.of_nat a <= z ^ Z.of_nat (50 * b)
               <-> (10 ^ a <= Q2R z ^ (50 * b))%R).
  { split; intros H.
    - apply Qle_Rle in H. rewrite !Q2R_pow_nat in H.
      change 10 with (inject_Z 10) in H. now rewrite Q2R_inject_Z in H.
    - apply Rle_Qle. rewrite !Q2R_pow_nat.
      change 10 with (inject_Z 10). now rewrite Q2R_inject_Z. }
  rewrite HQ.
  assert (E : (10 ^ a <= Q2R z ^ (50 * b)
               <-> ln (10 ^ a) <= ln (Q2R z ^ (50 * b)))%R)
    by (symmetry; apply ln_le_iff; apply pow_lt; lra).
  rewrite E, !ln_pow by lra. rewrite mult_INR.
  replace (INR 50) with 50%R by (simpl; lra).
  unfold log10. split; intros H.
  - assert (H' : (INR a / INR b <= ln (Q2R z) / ln 10 * 50)%R) by lra.
    apply Rmult_le_compat_r with (r := (INR b * ln 10)%R) in H'; [|nra].
    replace (INR a / INR b * (INR b * ln 10))%R with (INR a * ln 10)%R in H'
      by (field; lra).
    replace (ln (Q2R z) / ln 10 * 50 * (INR b * ln 10))%R
      with (50 * INR b * ln (Q2R z))%R in H' by (field; lra).
    exact H'.
  - assert (H' : (INR a / INR b <= ln (Q2R z) / ln 10 * 50)%R).
    { apply Rmult_le_reg_r with (r := (INR b * ln 10)%R); [nra|].
      replace (INR a / INR b * (INR b * ln 10))%R with (INR a * ln 10)%R
        by (field; lra).
      replace (ln (Q2R z) / ln 10 * 50 * (INR b * ln 10))%R
        with (50 * INR b * ln (Q2R z))%R by (field; lra).
      exact H. }
    lra.
Qed.

(** One wheel notch in from the default zoom: [100 + log10(1.1) * 50]
    lies between 102.05 and 102.95, clear of the steps at 102 and 103. *)
Lemma clear_of_steps_notch : clear_of_steps (/ 20) 1.1.
Proof.
  assert (Hlo : (100 + INR 41 / INR 20 <= 100 + log10 (Q2R 1.1) * 50)%R).
  { apply (value_reaches 1.1 41 20); [reflexivity | lia |].
    vm_compute. discriminate. }
  assert (Hhi : ~ (100 + INR 59 / INR 20 <= 100 + log10 (Q2R 1.1) * 50)%R).
  { intros H. apply (value_reaches 1.1 59 20) in H; [|reflexivity | lia].
    revert H. vm_compute. intros H. now apply H. }
  rewrite (INR_IZR_INZ 41), (INR_IZR_INZ 20) in Hlo.
  rewrite (INR_IZR_INZ 59), (INR_IZR_INZ 20) in Hhi.
  change (Z.of_nat 41) with 41%Z in Hlo. change (Z.of_nat 59) with 59%Z in Hhi.
  change (Z.of_nat 20) with 20%Z in Hlo, Hhi.
  unfold clear_of_steps. cbv zeta.
  set (t := (100 + log10 (Q2R 1.1) * 50)%R) in *.
  assert (Ef : Zfloor t = 102%Z) by (apply Zfloor_eq; lra).
  rewrite Ef. lra.
Qed.

(** C3.  On positive zooms the budget
    [min(2000, max(100, floor(100 + log10(zoom) * 50)))] lies in
    [100, 2000] and is non-decreasing in the zoom, in the reals and in
    the arithmetic of every platform that keeps the order; the wheel
    handler and the auto-zoom driver both send it, computed on the
    platform, with the zoom that they send; and the budget computed on
    the platform is the one of the formula in the reals wherever the
    platform is accurate to within a [delta] that keeps the zoom clear
    of the steps. *)
Theorem iteration_budget (P : Platform) (zoom zoom' : Q) :
  0 < zoom -> zoom <= zoom' ->
  ((100 <= iterations zoom <= 2000)%Z
   /\ (iterations zoom <= iterations zoom')%Z)
  /\ (100 <= iterations_on P zoom <= 2000)%Z
  /\ (monotone P -> (iterations_on P zoom <= iterations_on P zoom')%Z)
  /\ (forall delta : R,
        evaluates_within P delta zoom -> clear_of_steps delta zoom ->
        iterations_on P zoom = iterations zoom)
  /\ (forall (e : WheelEvent) (rect : DOMRect) (v : View) (tz : Q),
        targetZoom v = Fin tz ->
        tz * (if gt (deltaY e) 0 then 0.9 else 1.1) == zoom ->
        exists (updates : Partial_FractalState) (z : Q),
          handleWheel P e (Some rect) v = Some updates
          /\ p_zoom updates = Some (Fin z) /\ z == zoom
          /\ p_maxIterations updates
             = Some (Fin (inject_Z (iterations_on P zoom))))
  /\ (forall (state : FractalState) (v : View) (tz speed : Q),
        targetZoom v = Fin tz -> animationSpeed state = Fin speed ->
        tz * (1 + speed * 0.01) == zoom ->
        exists z : Q,
          p_zoom (autoZoomTick P state v) = Some (Fin z) /\ z == zoom
          /\ p_maxIterations (autoZoomTick P state v)
             = Some (Fin (inject_Z (iterations_on P zoom)))).
Proof.
  intros Hz Hle. split; [|split; [|split; [|split; [|split]]]].
  - rewrite <- !iterations_on_ideal. split.
    + unfold iterations_on. cbv zeta. lia.
    + apply iterations_on_le; [exact monotone_ideal | exact Hz | exact Hle].
  - unfold iterations_on. cbv zeta. lia.
  - intros Hm. now apply iterations_on_le.
  - intros delta. apply iterations_on_exact.
  - intros e rect v tz Htz Hzoom. unfold handleWheel. rewrite Htz.
    destruct (gt (deltaY e) 0); cbn [nmul];
      (eexists; eexists; split; [reflexivity|];
       cbn [p_zoom p_maxIterations];
       split; [reflexivity|]; split; [exact Hzoom|];
       rewrite iterationsNeeded_positive by lra;
       now rewrite (iterations_on_comp P _ _ Hzoom)).
  - intros state v tz speed Htz Hs Hzoom. unfold autoZoomTick.
    rewrite Htz, Hs. cbn [nmul nadd p_zoom p_maxIterations].
    eexists. split; [reflexivity|]. split; [exact Hzoom|].
    rewrite iterationsNeeded_positive by lra.
    now rewrite (iterations_on_comp P _ _ Hzoom).
Qed.

(** The default state with the animation speed at 10. *)
Lemma speed_10 :
  animationSpeed
    (setState DEFAULT_STATE
       {| p_center := None; p_zoom := None; p_maxIterations := None;
          p_colorPalette := None; p_isJulia := None; p_juliaC := None;
          p_autoZoom := None; p_animationSpeed := Some (Fin 10) |})
  = Fin 10.
Proof. reflexivity. Qed.

(** C3 on the platform that rounds to 40 binary places, at the zoom 1.1
    that one wheel notch in, or one auto-zoom tick at speed 10, reaches
    from the default view: both handlers send the budget of the formula
    in the reals. *)
Lemma iteration_budget_witness :
  let e := {| clientX := 1440; clientY := 270; deltaY := -100 |} in
  let rect := {| left := 0; top := 0;
                 rect_width := 1920; rect_height := 1080 |} in
  let v := view (mount DEFAULT_STATE 1920 1080) in
  let state :=
    setState DEFAULT_STATE
      {| p_center := None; p_zoom := None; p_maxIterations := None;
         p_colorPalette := None; p_isJulia := None; p_juliaC := None;
         p_autoZoom := None; p_animationSpeed := Some (Fin 10) |} in
  0 < 1.1 /\ 1.1 <= 10
  /\ monotone forty_places
  /\ evaluates_within forty_places (/ 20) 1.1 /\ clear_of_steps (/ 20) 1.1
  /\ (100 <= iterations 1.1 <= 2000)%Z
  /\ (iterations_on forty_places 1.1 <= iterations_on forty_places 10)%Z
  /\ (exists updates : Partial_FractalState,
         handleWheel forty_places e (Some rect) v = Some updates
         /\ p_maxIterations updates = Some (Fin (inject_Z (iterations 1.1))))
  /\ p_maxIterations (autoZoomTick forty_places state v)
     = Some (Fin (inject_Z (iterations 1.1))).
Proof.
  intros e rect v state.
  assert (H0 : 0 < 1.1) by reflexivity.
  assert (H1 : 1.1 <= 10) by discriminate.
  assert (Hm : monotone forty_places) by exact monotone_forty_places.
  assert (Ha : evaluates_within forty_places (/ 20) 1.1)
    by (apply forty_places_accuracy; lra).
  assert (Hc : clear_of_steps (/ 20) 1.1) by exact clear_of_steps_notch.
  destruct (iteration_budget forty_places 1.1 10 H0 H1)
    as ((Hr & _) & _ & Hmono & Hexact & Hwheel & Htick).
  split; [exact H0|]. split; [exact H1|]. split; [exact Hm|].
  split; [exact Ha|]. split; [exact Hc|]. split; [exact Hr|].
  split; [exact (Hmono Hm)|].
  rewrite <- (Hexact (/ 20)%R Ha Hc).
  split.
  - destruct (Hwheel e rect v 1.0) as (updates & z & Hu & _ & _ & Hi);
      [reflexivity | reflexivity |].
    exists updates. split; assumption.
  - destruct (Htick state v 1.0 10) as (z & _ & _ & Hi);
      [reflexivity | exact speed_10 | reflexivity |].
    exact Hi.
Defined.

(** The budgets of the formula at zoom 1.1 and at the binary64 number
    just below 10, [10 - 2^-49]. *)
Example iterations_notch : iterations 1.1 = 102%Z.
Proof.
  rewrite iterations_exec_correct by reflexivity. vm_compute. reflexivity.
Qed.

Example iterations_below_10 :
  iterations (10 - (1 # 562949953421312)) = 149%Z.
Proof.
  rewrite iterations_exec_correct by reflexivity. vm_compute. reflexivity.
Qed.

(** Within [10^-15] of a step the rounding decides.  For the binary64
    number just below 10 the logarithm is [1 - 7.7e-17], between the
    binary64 numbers [1 - 2^-53] and [1].  Whichever of the two
    [Math.log10] returns, binary64 arithmetic brings the expression
    under the floor to 150 (from [1 - 2^-53] the product rounds to
    [50 - 2^-47] and the sum to 150), and the handlers send 150, one more
    than the formula in the reals. *)
Lemma rounding_moves_a_step (P : Platform) :
  let zoom := 10 - (1 # 562949953421312) in
  let below_1 := (1 - / 9007199254740992)%R in
  (Math_log10 P (Q2R zoom) = 1%R /\ fl P 50 = 50%R
   \/ Math_log10 P (Q2R zoom) = below_1
      /\ fl P (below_1 * 50) = (50 - / 140737488355328)%R) ->
  fl P 150 = 150%R ->
  fl P (100 + (50 - / 140737488355328)) = 150%R ->
  iterations_on P zoom = 150%Z /\ iterations zoom = 149%Z.
Proof.
  intros zoom below_1 HL H150 H150'. split; [|exact iterations_below_10].
  unfold iterations_on. cbv zeta.
  assert (E : fl P (100 + fl P (Math_log10 P (Q2R zoom) * 50)) = IZR 150).
  { destruct HL as [[HL H50]|[HL H50]]; rewrite HL.
    - replace (1 * 50)%R with 50%R by lra. rewrite H50.
      replace (100 + 50)%R with 150%R by lra. exact H150.
    - rewrite H50. exact H150'. }
  rewrite E. now rewrite ZfloorZ.
Qed.

(** *** Inertia *)

(** The interaction state after a frame depends on the interaction state
    before it only. *)
Lemma animate_interaction (time : number) (c : Component) :
  interaction (animate time c)
  = snd (animate_inertia (width c / height c)%num
           (animate_view (Math_min ((time - lastTime c) * 0.005) 1)%num
              (view c))
           (interaction c)).
Proof.
  unfold animate.
  destruct (animate_inertia _ _ _) as [v i]. reflexivity.
Qed.

Lemma inertia_decay (a : number) (v : View) (i : InteractionState) (vx vy : Q) :
  coasting i vx vy ->
  (0.01 < Qabs vx \/ 0.01 < Qabs vy) ->
  coasting (snd (animate_inertia a v i)) (vx * 0.85) (vy * 0.85).
Proof.
  intros [Hd Hv] Hbig. unfold animate_inertia. rewrite Hd, Hv.
  cbn [negb andb x y Math_abs].
  rewrite !gt_Fin.
  assert (E : Qltb 0.01 (Qabs vx) || Qltb 0.01 (Qabs vy) = true).
  { apply orb_true_iff. rewrite !Qltb_true. exact Hbig. }
  rewrite E. cbn [snd]. split; reflexivity.
Qed.

Lemma inertia_stop (a : number) (v : View) (i : InteractionState) (vx vy : Q) :
  coasting i vx vy ->
  Qabs vx <= 0.01 -> Qabs vy <= 0.01 ->
  coasting (snd (animate_inertia a v i)) 0 0.
Proof.
  intros [Hd Hv] Hx Hy. unfold animate_inertia. rewrite Hd, Hv.
  cbn [negb andb x y Math_abs].
  rewrite !gt_Fin.
  assert (E : Qltb 0.01 (Qabs vx) || Qltb 0.01 (Qabs vy) = false).
  { apply orb_false_iff. rewrite !Qltb_false. now split. }
  rewrite E. cbn [snd]. split; reflexivity.
Qed.

Lemma frames_cons (t : number) (ts : list number) (c : Component) :
  frames (t :: ts) c = frames ts (animate t c).
Proof. reflexivity. Qed.

Lemma frames_stopped (ts : list number) :
  forall c, coasting (interaction c) 0 0 ->
            coasting (interaction (frames ts c)) 0 0.
Proof.
  induction ts as [|t ts IH]; intros c Hc; [exact Hc|].
  rewrite frames_cons. apply IH. rewrite animate_interaction.
  apply (inertia_stop _ _ _ 0 0 Hc); discriminate.
Qed.

Lemma decays_within_pos (n : nat) : 0 < decays_within n.
Proof.
  induction n as [|n IH]; cbn [decays_within]; [reflexivity|].
  apply Qlt_shift_div_l; lra.
Qed.

Lemma scaled_bound (v d : Q) : Qabs v <= d / 0.85 -> Qabs (v * 0.85) <= d.
Proof.
  intros H. rewrite Qabs_Qmult. change (Qabs 0.85) with 0.85.
  assert (E : d == d / 0.85 * 0.85) by field.
  rewrite E. apply Qmult_le_compat_r; [exact H | discriminate].
Qed.

Lemma frames_decay (n : nat) :
  forall (ts : list number) (c : Component) (vx vy : Q),
    coasting (interaction c) vx vy ->
    Qabs vx <= decays_within n -> Qabs vy <= decays_within n ->
    (n < List.length ts)%nat ->
    coasting (interaction (frames ts c)) 0 0.
Proof.
  induction n as [|n IH]; intros ts c vx vy Hc Hx Hy Hlen.
  - destruct ts as [|t ts]; [cbn in Hlen; lia|].
    rewrite frames_cons. apply frames_stopped. rewrite animate_interaction.
    now apply (inertia_stop _ _ _ vx vy).
  - destruct ts as [|t ts]; [cbn in Hlen; lia|].
    rewrite frames_cons.
    destruct (Qlt_le_dec 0.01 (Qabs vx)) as [Bx|Sx];
      [|destruct (Qlt_le_dec 0.01 (Qabs vy)) as [By|Sy]].
    + apply (IH ts _ (vx * 0.85) (vy * 0.85)).
      * rewrite animate_interaction. apply inertia_decay; auto.
      * now apply scaled_bound.
      * now apply scaled_bound.
      * cbn [List.length] in Hlen. lia.
    + apply (IH ts _ (vx * 0.85) (vy * 0.85)).
      * rewrite animate_interaction. apply inertia_decay; auto.
      * now apply scaled_bound.
      * now apply scaled_bound.
      * cbn [List.length] in Hlen. lia.
    + apply frames_stopped. rewrite animate_interaction.
      now apply (inertia_stop _ _ _ vx vy).
Qed.

(** The bound grows without limit: [0.01 * (1 + 3n/17) <= 0.01 / 0.85^n]. *)
Lemma decays_within_linear (n : nat) :
  0.01 * (1 + inject_Z (Z.of_nat n) * (3 # 17)) <= decays_within n.
Proof.
  induction n as [|n IH].
  - cbn. discriminate.
  - cbn [decays_within]. rewrite Nat2Z.inj_succ. unfold Z.succ.
    rewrite inject_Z_plus.
    assert (E : decays_within n / 0.85
                == decays_within n + decays_within n * (3 # 17)) by field.
    rewrite E. pose proof (decays_within_pos n).
    assert (0.01 <= decays_within n).
    { eapply Qle_trans; [|exact IH].
      assert (0 <= inject_Z (Z.of_nat n)).
      { change 0 with (inject_Z 0). rewrite <- Zle_Qle. lia. }
      nra. }
    change (inject_Z 1) with 1. lra.
Qed.

Lemma decays_within_unbounded (M : Q) : exists n, M <= decays_within n.
Proof.
  exists (Z.to_nat (Qceiling (M * 100 * (17 # 3)))).
  eapply Qle_trans; [|apply decays_within_linear].
  set (k := Qceiling (M * 100 * (17 # 3))).
  assert (Hk : M * 100 * (17 # 3) <= inject_Z k) by apply Qle_ceiling.
  assert (Hk' : inject_Z k <= inject_Z (Z.of_nat (Z.to_nat k))).
  { rewrite <- Zle_Qle. lia. }
  lra.
Qed.

Example decays_within_57 : 100 <= decays_within 57.
Proof. vm_compute. discriminate. Qed.

Example decays_within_49 : ~ 100 <= decays_within 49.
Proof. vm_compute. intros H; apply H; reflexivity. Qed.


Lemma decays_within_ge (n : nat) : 0.01 <= decays_within n.
Proof.
  eapply Qle_trans; [|apply decays_within_linear].
  assert (0 <= inject_Z (Z.of_nat n)).
  { change 0 with (inject_Z 0). rewrite <- Zle_Qle. lia. }
  lra.
Qed.

Lemma scaled_above (v d : Q) : d / 0.85 < Qabs v -> d < Qabs (v * 0.85).
Proof.
  intros H. rewrite Qabs_Qmult. change (Qabs 0.85) with 0.85.
  assert (E : d == d / 0.85 * 0.85) by field.
  rewrite E. apply Qmult_lt_compat_r; [reflexivity | exact H].
Qed.

(** A velocity above [0.01 / 0.85^n] is still above the threshold after
    [n] frames. *)
Lemma frames_fast (ts : list number) :
  forall (c : Component) (vx vy : Q),
    coasting (interaction c) vx vy ->
    decays_within (List.length ts) < Qabs vx ->
    exists vx' vy',
      coasting (interaction (frames ts c)) vx' vy' /\ 0.01 < Qabs vx'.
Proof.
  induction ts as [|t ts IH]; intros c vx vy Hc Hv.
  - exists vx, vy. split; [exact Hc | exact Hv].
  - rewrite frames_cons. cbn [List.length decays_within] in Hv.
    apply (IH _ (vx * 0.85) (vy * 0.85)).
    + rewrite animate_interaction. apply inertia_decay; [exact Hc|].
      left. pose proof (decays_within_ge (List.length ts)).
      pose proof (decays_within_pos (List.length ts)).
      assert (decays_within (List.length ts)
              <= decays_within (List.length ts) / 0.85).
      { apply Qle_shift_div_l; [reflexivity|]. lra. }
      lra.
    + now apply scaled_above.
Qed.

(** C9, as stated, fails: 50 frames are not enough for every velocity
    with components up to 100.  After the flick the velocity is
    [(100, 0)], and 50 frames later it is still above the threshold (it
    is [100 * 0.85^50], about 0.03), not [(0, 0)]. *)
Lemma not_within_50 :
  let ts := timestamps 16 50 in
  List.length ts = 50%nat
  /\ coasting (interaction flick) 100 0
  /\ velocity (interaction (frames ts flick)) <> {| x := 0; y := 0 |}.
Proof.
  intros ts. split; [reflexivity|]. 
  assert (Hc : coasting (interaction flick) 100 0) by (split; reflexivity).
  split; [exact Hc|].
  destruct (frames_fast ts flick 100 0 Hc) as (vx' & vy' & [_ Hv] & Hbig).
  - vm_compute. reflexivity.
  - rewrite Hv. intros E. injection E as E _. rewrite E in Hbig. 
    vm_compute in Hbig. discriminate.
Qed.

(** C9, amended.  From any state that is not dragging and has a finite
    velocity, the frames bring the velocity to exactly [(0, 0)] after a
    bounded number of frames, and it stays there; for components of
    absolute value at most 100, 58 frames are enough. *)
Theorem inertial_decay_terminates (c : Component) (vx vy : Q) :
  coasting (interaction c) vx vy ->
  (exists N : nat, forall ts : list number,
        (N <= List.length ts)%nat ->
        velocity (interaction (frames ts c)) = {| x := 0; y := 0 |})
  /\ (Qabs vx <= 100 -> Qabs vy <= 100 ->
      forall ts : list number,
        (58 <= List.length ts)%nat ->
        velocity (interaction (frames ts c)) = {| x := 0; y := 0 |}).
Proof.
  intros Hc. split.
  - destruct (decays_within_unbounded (Qabs vx + Qabs vy)) as [n Hn].
    exists (S n). intros ts Hlen.
    pose proof (Qabs_nonneg vx). pose proof (Qabs_nonneg vy).
    apply (frames_decay n ts c vx vy Hc); try lra. lia.
  - intros Hx Hy ts Hlen.
    pose proof decays_within_57.
    apply (frames_decay 57 ts c vx vy Hc); try lra. lia.
Qed.

(** C9 at the flick, after 58 frames 16 ms apart. *)
Lemma inertial_decay_terminates_witness :
  coasting (interaction flick) 100 0
  /\ velocity (interaction (frames (timestamps 16 58) flick))
     = {| x := 0; y := 0 |}.
Proof.
  assert (Hc : coasting (interaction flick) 100 0) by (split; reflexivity).
  split; [exact Hc|].
  apply (proj2 (inertial_decay_terminates flick 100 0 Hc));
    [discriminate | discriminate | apply Nat.le_refl].
Defined.

(** *** The wheel handler against the shader *)

(** X13.  The wheel handler and the shader agree on the point under the
    pointer.  For a view at rest (uniforms equal to the targets, canvas
    filling the container), the sample [c] that [main] computes for the
    fragment under the pointer, whose texture coordinate is
    [((clientX - left) / width, 1 - (clientY - top) / height)], is the
    same before the wheel event and after the view has settled on the
    centre and zoom that [handleWheel] sends. *)
Theorem wheel_anchors_fragment_sample (P : Platform)
  (cX cY l t w h tx ty tz : Q) (dY : number) (v : View) :
  0 < w -> 0 < h -> 0 < tz ->
  targetCenter v = {| x := Fin tx; y := Fin ty |} ->
  targetZoom v = Fin tz ->
  let e := {| clientX := Fin cX; clientY := Fin cY; deltaY := dY |} in
  let rect := {| left := Fin l; top := Fin t;
                 rect_width := Fin w; rect_height := Fin h |} in
  let vUv := Shader.Vec2 ((cX - l) / w) (1 - (cY - t) / h) in
  exists (updates : Partial_FractalState) (nx ny nz : Q),
    handleWheel P e (Some rect) v = Some updates
    /\ p_center updates = Some {| x := Fin nx; y := Fin ny |}
    /\ p_zoom updates = Some (Fin nz)
    /\ forall u u' : Shader.Uniforms,
         Shader.u_resolution u = Shader.Vec2 w h ->
         Shader.u_center u = Shader.Vec2 tx ty -> Shader.u_zoom u = tz ->
         Shader.u_resolution u' = Shader.Vec2 w h ->
         Shader.u_center u' = Shader.Vec2 nx ny -> Shader.u_zoom u' = nz ->
         Shader.X (Shader.main_c u' vUv) == Shader.X (Shader.main_c u vUv)
         /\ Shader.Y (Shader.main_c u' vUv) == Shader.Y (Shader.main_c u vUv).
Proof.
  intros Hw Hh Hz Htc Htz e rect vUv.
  assert (Hw' : ~ w == 0) by lra.
  assert (Hh' : ~ h == 0) by lra.
  assert (Hz' : ~ tz == 0) by lra.
  unfold handleWheel, wheel_mouseX, wheel_mouseY.
  rewrite Htc, Htz. subst e rect.
  cbn [clientX clientY deltaY left top rect_width rect_height x y].
  destruct (gt dY 0).
  - assert (Hn : ~ tz * 0.9 == 0) by lra.
    repeat (cbn [nadd nsub nmul nopp]; rewrite ?ndiv_Fin by assumption).
    eexists. eexists. eexists. eexists.
    split; [reflexivity|]. split; [reflexivity|]. split; [reflexivity|].
    intros u u' Hr Hc Hzm Hr' Hc' Hzm'.
    unfold Shader.main_c, Shader.main_uv, Shader.vadd, Shader.vdivs, Shader.vsub.
    rewrite Hr, Hc, Hzm, Hr', Hc', Hzm'. subst vUv. cbn [Shader.X Shader.Y].
    split; field; auto.
  - assert (Hn : ~ tz * 1.1 == 0) by lra.
    repeat (cbn [nadd nsub nmul nopp]; rewrite ?ndiv_Fin by assumption).
    eexists. eexists. eexists. eexists.
    split; [reflexivity|]. split; [reflexivity|]. split; [reflexivity|].
    intros u u' Hr Hc Hzm Hr' Hc' Hzm'.
    unfold Shader.main_c, Shader.main_uv, Shader.vadd, Shader.vdivs, Shader.vsub.
    rewrite Hr, Hc, Hzm, Hr', Hc', Hzm'. subst vUv. cbn [Shader.X Shader.Y].
    split; field; auto.
Qed.

(** X13 at one wheel notch in on the default view, pointer at
    [(1440, 270)] in a 1920 by 1080 container. *)
Lemma wheel_anchors_fragment_sample_witness :
  let v := view (mount DEFAULT_STATE 1920 1080) in
  let e := {| clientX := Fin 1440; clientY := Fin 270; deltaY := -100 |} in
  let rect := {| left := Fin 0; top := Fin 0;
                 rect_width := Fin 1920; rect_height := Fin 1080 |} in
  0 < 1920 /\ 0 < 1080 /\ 0 < 1.0
  /\ exists (updates : Partial_FractalState) (nx ny nz : Q),
       handleWheel ideal e (Some rect) v = Some updates
       /\ p_center updates = Some {| x := Fin nx; y := Fin ny |}
       /\ p_zoom updates = Some (Fin nz).
Proof.
  intros v e rect.
  split; [reflexivity|]. split; [reflexivity|]. split; [reflexivity|].
  destruct (wheel_anchors_fragment_sample ideal 1440 270 0 0 1920 1080
              (-0.5) 0.0 1.0 (-100) v)
    as (updates & nx & ny & nz & Hw & Hc & Hz & _); try reflexivity.
  exists updates, nx, ny, nz. repeat split; assumption.
Defined.

(** *** Camera easing *)

(** The view after a frame: the easing, then the inertia block. *)
Lemma animate_view_inertia (time : number) (c : Component) :
  view (animate time c)
  = fst (animate_inertia (width c / height c)%num
           (animate_view (Math_min ((time - lastTime c) * 0.005) 1)%num
              (view c))
           (interaction c)).
Proof.
  unfold animate.
  destruct (animate_inertia _ _ _) as [v i]. reflexivity.
Qed.

(** The inertia block moves the target centre and nothing else. *)
Lemma inertia_keeps_camera (a : number) (v : View) (i : InteractionState) :
  center (fst (animate_inertia a v i)) = center v
  /\ zoom (fst (animate_inertia a v i)) = zoom v
  /\ targetZoom (fst (animate_inertia a v i)) = targetZoom v.
Proof.
  unfold animate_inertia.
  destruct (negb (isDragging i) && _); [now repeat split|].
  destruct (negb (isDragging i)); now repeat split.
Qed.

Lemma lastTime_animate (time : number) (c : Component) :
  lastTime (animate time c) = time.
Proof.
  unfold animate. destruct (animate_inertia _ _ _) as [v i]. reflexivity.
Qed.

(** [Math.min(deltaTime * 0.005, 1)] on a finite [deltaTime]. *)
Lemma lerpFactor_finite (d : Q) :
  exists lam : Q,
    Math_min (Fin d * 0.005)%num 1 = Fin lam
    /\ lam <= 1 /\ (0 <= d -> 0 <= lam)
    /\ (d <= 200 -> lam = d * 0.005) /\ (200 <= d -> lam == 1).
Proof.
  cbn [nmul]. unfold Math_min, nle.
  destruct (Qle_bool (d * 0.005) 1) eqn:E.
  - apply Qle_bool_iff in E. exists (d * 0.005).
    repeat split; try reflexivity; try lra.
  - assert (H : 1 < d * 0.005).
    { apply Qnot_le_lt. intros H. apply Qle_bool_iff in H. congruence. }
    exists 1. repeat split; try reflexivity; try lra.
Qed.

Lemma lerp_between (a t lam : Q) :
  0 <= lam -> lam <= 1 -> between a t (a + (t - a) * lam).
Proof.
  intros H0 H1. unfold between.
  destruct (Qlt_le_dec a t) as [Hlt|Hle]; [left | right]; split; nra.
Qed.

(** X14.  A frame whose timestamp is not before the previous one moves
    the centre and the zoom of the camera towards their targets without
    overshooting: each lands between its old value and its target.  When
    200 ms or more have passed, the camera lands on the targets. *)
Theorem camera_eases_without_overshoot
  (c : Component) (cx cy z tx ty tz t0 t1 : Q) :
  center (view c) = {| x := Fin cx; y := Fin cy |} ->
  zoom (view c) = Fin z ->
  targetCenter (view c) = {| x := Fin tx; y := Fin ty |} ->
  targetZoom (view c) = Fin tz ->
  lastTime c = Fin t0 -> t0 <= t1 ->
  exists cx' cy' z' : Q,
    center (view (animate (Fin t1) c)) = {| x := Fin cx'; y := Fin cy' |}
    /\ zoom (view (animate (Fin t1) c)) = Fin z'
    /\ between cx tx cx' /\ between cy ty cy' /\ between z tz z'
    /\ (200 <= t1 - t0 -> cx' == tx /\ cy' == ty /\ z' == tz).
Proof.
  intros Hc Hz Htc Htz Hl Ht.
  rewrite animate_view_inertia.
  destruct (inertia_keeps_camera (width c / height c)%num
              (animate_view (Math_min ((Fin t1 - lastTime c) * 0.005) 1)%num
                 (view c)) (interaction c)) as (Ec & Ez & _).
  rewrite Ec, Ez. rewrite Hl.
  change (Fin t1 - Fin t0)%num with (Fin (t1 + - t0)).
  destruct (lerpFactor_finite (t1 + - t0)) as (lam & El & H1 & H0 & _ & Hsnap).
  rewrite El. unfold animate_view. cbn [center zoom].
  rewrite Hc, Hz, Htc, Htz. cbn [x y nadd nsub nmul nopp].
  eexists. eexists. eexists.
  split; [reflexivity|]. split; [reflexivity|].
  assert (Hlam : 0 <= lam) by (apply H0; lra).
  split; [|split; [|split]].
  - assert (E : cx + (tx + - cx) * lam == cx + (tx - cx) * lam) by ring.
    unfold between. rewrite E. now apply lerp_between.
  - assert (E : cy + (ty + - cy) * lam == cy + (ty - cy) * lam) by ring.
    unfold between. rewrite E. now apply lerp_between.
  - assert (E : z + (tz + - z) * lam == z + (tz - z) * lam) by ring.
    unfold between. rewrite E. now apply lerp_between.
  - intros H200. rewrite Hsnap by lra. repeat split; ring.
Qed.

(** X14 at a frame 16 ms after a state update that moves the targets. *)
Lemma camera_eases_without_overshoot_witness :
  let c := snd (dispatch
                  (Some {| p_center := Some {| x := 0; y := 1 |};
                           p_zoom := Some (Fin 3);
                           p_maxIterations := None; p_colorPalette := None;
                           p_isJulia := None; p_juliaC := None;
                           p_autoZoom := None; p_animationSpeed := None |})
                  DEFAULT_STATE (mount DEFAULT_STATE 1920 1080)) in
  0 <= 16
  /\ exists cx' cy' z' : Q,
       center (view (animate (Fin 16) c)) = {| x := Fin cx'; y := Fin cy' |}
       /\ zoom (view (animate (Fin 16) c)) = Fin z'
       /\ between 1.0 3 z'.
Proof.
  intros c. split; [discriminate|].
  destruct (camera_eases_without_overshoot c (-0.5) 0.0 1.0 0 1 3 0 16)
    as (cx' & cy' & z' & Hc & Hz & _ & _ & Hb & _);
    try reflexivity; try discriminate.
  exists cx', cy', z'. repeat split; assumption.
Defined.

Lemma zoom_after_frame (c : Component) (z tz tl t : Q) :
  zoom (view c) = Fin z -> targetZoom (view c) = Fin tz ->
  lastTime c = Fin tl -> 0 <= t - tl -> t - tl <= 200 ->
  exists z' : Q,
    zoom (view (animate (Fin t) c)) = Fin z'
    /\ targetZoom (view (animate (Fin t) c)) = Fin tz
    /\ tz - z' == (tz - z) * (1 - (t - tl) * 0.005).
Proof.
  intros Hz Htz Hl H0 H200.
  rewrite animate_view_inertia.
  destruct (inertia_keeps_camera (width c / height c)%num
              (animate_view (Math_min ((Fin t - lastTime c) * 0.005) 1)%num
                 (view c)) (interaction c)) as (_ & Ez & Etz).
  rewrite Ez, Etz, Hl.
  change (Fin t - Fin tl)%num with (Fin (t + - tl)).
  destruct (lerpFactor_finite (t + - tl)) as (lam & El & _ & _ & Hlam & _).
  rewrite El, Hlam by lra. unfold animate_view. cbn [zoom targetZoom].
  rewrite Hz, Htz. cbn [nadd nsub nmul nopp].
  eexists. split; [reflexivity|]. split; [reflexivity|]. ring.
Qed.

Lemma frames_zoom_gap (t0 p tz : Q) :
  0 <= p -> p <= 200 ->
  forall (n k : nat) (c : Component) (z tl : Q),
    zoom (view c) = Fin z -> targetZoom (view c) = Fin tz ->
    lastTime c = Fin tl -> tl == t0 + inject_Z (Z.of_nat k) * p ->
    exists z' : Q,
      zoom (view (frames
                    (map (fun j => Fin (t0 + inject_Z (Z.of_nat j) * p))
                         (seq (S k) n)) c)) = Fin z'
      /\ tz - z' == (tz - z) * (1 - p * 0.005) ^ Z.of_nat n.
Proof.
  intros Hp0 Hp. induction n as [|n IH]; intros k c z tl Hz Htz Hl Htl.
  - exists z. split; [exact Hz|]. cbn. ring.
  - cbn [seq map]. rewrite frames_cons.
    assert (Hd : t0 + inject_Z (Z.of_nat (S k)) * p - tl == p).
    { rewrite Htl, Nat2Z.inj_succ. unfold Z.succ. rewrite inject_Z_plus.
      change (inject_Z 1) with 1. ring. }
    destruct (zoom_after_frame c z tz tl
                (t0 + inject_Z (Z.of_nat (S k)) * p) Hz Htz Hl)
      as (z1 & Ez1 & Etz1 & Hgap); [lra | lra |].
    destruct (IH (S k) _ z1 _ Ez1 Etz1 (lastTime_animate _ _)
                ltac:(reflexivity)) as (z' & Ez' & Hgap').
    exists z'. split; [exact Ez'|].
    rewrite Hgap', Hgap, Hd.
    rewrite Nat2Z.inj_succ. unfold Z.succ.
    rewrite Qpower_plus' by lia. ring.
Qed.

(** X15.  Over [n] frames, [period] apart (at most 200 ms), with the
    target left alone, the gap between zoom and target zoom is multiplied
    by [1 - 0.005 period] at each frame. *)
Theorem zoom_gap_shrinks_geometrically
  (c : Component) (z tz t0 p : Q) (n : nat) :
  zoom (view c) = Fin z -> targetZoom (view c) = Fin tz ->
  lastTime c = Fin t0 -> 0 <= p -> p <= 200 ->
  exists z' : Q,
    zoom (view (frames (timestamps_from t0 p n) c)) = Fin z'
    /\ tz - z' == (tz - z) * (1 - p * 0.005) ^ Z.of_nat n.
Proof.
  intros Hz Htz Hl Hp0 Hp.
  destruct (frames_zoom_gap t0 p tz Hp0 Hp n 0 c z t0 Hz Htz Hl)
    as (z' & Ez' & Hgap).
  { cbn. ring. }
  exists z'. split; [exact Ez' | exact Hgap].
Qed.

(** X15 at 60 frames 16 ms apart, from zoom 1 towards zoom 3. *)
Lemma zoom_gap_shrinks_geometrically_witness :
  let c := snd (dispatch
                  (Some {| p_center := None; p_zoom := Some (Fin 3);
                           p_maxIterations := None; p_colorPalette := None;
                           p_isJulia := None; p_juliaC := None;
                           p_autoZoom := None; p_animationSpeed := None |})
                  DEFAULT_STATE (mount DEFAULT_STATE 1920 1080)) in
  0 <= 16 /\ 16 <= 200
  /\ exists z' : Q,
       zoom (view (frames (timestamps_from 0 16 60) c)) = Fin z'
       /\ 3 - z' == (3 - 1.0) * (1 - 16 * 0.005) ^ 60.
Proof.
  intros c. split; [discriminate|]. split; [discriminate|].
  assert (Hz : zoom (view c) = Fin 1.0) by reflexivity.
  assert (Htz : targetZoom (view c) = Fin 3) by reflexivity.
  assert (Hl : lastTime c = Fin 0) by reflexivity.
  assert (H0 : 0 <= 16) by discriminate.
  assert (H2 : 16 <= 200) by discriminate.
  destruct (zoom_gap_shrinks_geometrically c 1.0 3 0 16 60 Hz Htz Hl H0 H2)
    as (z' & Ez & Hgap).
  exists z'. split; assumption.
Defined.

(** *** Invariants of the transition system *)

Lemma run_cons (P : Platform) (ev : Event) (evs : list Event)
  (s : FractalState * Component) :
  run P (ev :: evs) s = run P evs (handle P ev s).
Proof. reflexivity. Qed.

(** What an event does to the uniforms that select the precision. *)
Lemma handle_centerDP (P : Platform) (ev : Event)
  (s : FractalState * Component) :
  centerDP_plain (uniforms (snd s)) ->
  centerDP_plain (uniforms (snd (handle P ev s))).
Proof.
  destruct s as [state c]. cbn [snd]. intros H.
  destruct ev; cbn [handle snd]; try exact H.
  - (* Frame *)
    unfold animate. destruct (animate_inertia _ _ _) as [v i].
    cbn [uniforms]. unfold centerDP_plain in *.
    cbn [u_centerDP u_useDP u_center].
    destruct (gt (zoom v) 1000000).
    + repeat split.
    + destruct (u_centerDP (uniforms c)) as [[[hx lx] hy] ly].
      destruct H as (H1 & H2 & _). repeat split; try assumption; discriminate.
  - (* AutoZoom *)
    destruct (autoZoom state); exact H.
  - (* Wheel *)
    destruct (handleWheel P e rect (view c)); exact H.
  - (* MouseDown *)
    unfold handleMouseDown. destruct (negb _); exact H.
  - (* MouseMove *)
    unfold handleMouseMove.
    destruct (isDragging (interaction c)), (lastMousePos (interaction c)),
      rect; exact H.
  - (* TouchStart *)
    unfold handleTouchStart.
    destruct touches as [|t1 [|t2 [|t3 ts]]]; exact H.
  - (* TouchMove *)
    assert (Hu : uniforms (fst (handleTouchMove touches distance rect c))
                 = uniforms c).
    { unfold handleTouchMove.
      destruct touches as [|t1 [|t2 [|t3 ts]]];
        destruct (isDragging (interaction c)),
          (lastMousePos (interaction c)), rect,
          (isPinching (interaction c)
           && truthy (lastPinchDistance (interaction c))),
          (lastPinchDistance (interaction c)); reflexivity. }
    destruct (handleTouchMove touches distance rect c) as [c' u].
    cbn [fst] in Hu. destruct u as [u|]; cbn [dispatch snd stateEffect uniforms].
    + unfold centerDP_plain in *. cbn [u_centerDP u_useDP u_center].
      now rewrite Hu.
    + now rewrite Hu.
Qed.

(** X16.  Whatever happens to the mounted component, the low components
    of [u_centerDP] are zero, and whenever [u_useDP] is set the high
    components are [u_center]. *)
Theorem low_components_always_zero (P : Platform)
  (state : FractalState) (innerWidth innerHeight : number)
  (events : list Event) :
  centerDP_plain
    (uniforms (snd (run P events (state, mount state innerWidth innerHeight)))).
Proof.
  assert (H0 : centerDP_plain
                 (uniforms (snd (state, mount state innerWidth innerHeight)))).
  { unfold centerDP_plain. cbn. repeat split; discriminate. }
  revert H0. generalize (state, mount state innerWidth innerHeight).
  induction events as [|ev evs IH]; intros s Hs; [exact Hs|].
  rewrite run_cons. apply IH. now apply handle_centerDP.
Qed.

Lemma handle_velocity (P : Platform) (ev : Event)
  (s : FractalState * Component) :
  is_MouseMove ev = false ->
  velocity (interaction (snd s)) = {| x := 0; y := 0 |} ->
  velocity (interaction (snd (handle P ev s))) = {| x := 0; y := 0 |}.
Proof.
  destruct s as [state c]. cbn [snd]. intros Hev H.
  destruct ev; try discriminate; cbn [handle snd]; try exact H.
  - (* Frame *)
    rewrite animate_interaction. unfold animate_inertia. rewrite H.
    cbn [x y Math_abs]. rewrite !gt_Fin.
    replace (Qltb 0.01 (Qabs 0)) with false by reflexivity.
    cbn [orb andb]. rewrite andb_false_r.
    destruct (negb (isDragging (interaction c))); cbn [snd velocity];
      [reflexivity | exact H].
  - destruct (autoZoom state); exact H.
  - destruct (handleWheel P e rect (view c)); exact H.
  - unfold handleMouseDown. destruct (negb _); [exact H | reflexivity].
  - unfold handleTouchStart.
    destruct touches as [|t1 [|t2 [|t3 ts]]]; try exact H; reflexivity.
  - assert (Hi : velocity (interaction
                             (fst (handleTouchMove touches distance rect c)))
                 = velocity (interaction c)).
    { unfold handleTouchMove.
      destruct touches as [|t1 [|t2 [|t3 ts]]];
        destruct (isDragging (interaction c)),
          (lastMousePos (interaction c)), rect,
          (isPinching (interaction c)
           && truthy (lastPinchDistance (interaction c))),
          (lastPinchDistance (interaction c)); reflexivity. }
    destruct (handleTouchMove touches distance rect c) as [c' u].
    cbn [fst] in Hi. destruct u as [u|]; cbn [dispatch snd stateEffect interaction];
      now rewrite Hi.
Qed.

Lemma run_velocity (P : Platform) (events : list Event) :
  forall s : FractalState * Component,
    forallb (fun ev => negb (is_MouseMove ev)) events = true ->
    velocity (interaction (snd s)) = {| x := 0; y := 0 |} ->
    velocity (interaction (snd (run P events s))) = {| x := 0; y := 0 |}.
Proof.
  induction events as [|ev evs IH]; intros s Hall Hs; [exact Hs|].
  cbn [forallb] in Hall. apply andb_true_iff in Hall.
  destruct Hall as [Hev Hall].
  rewrite run_cons. apply IH; [exact Hall|].
  apply handle_velocity; [|exact Hs]. now apply negb_true_iff.
Qed.

(** X17.  Only [handleMouseMove] gives the interaction a velocity.  From
    the mount on, and again from any one-touch [handleTouchStart] on, the
    velocity is [(0, 0)] for as long as no mouse move comes, whatever else
    happens (touch pans, pinches, wheel, auto-zoom, state changes,
    frames): a touch pan is not followed by a glide. *)
Theorem glide_needs_mouse_move (P : Platform)
  (state : FractalState) (innerWidth innerHeight : number)
  (events : list Event) :
  forallb (fun ev => negb (is_MouseMove ev)) events = true ->
  velocity (interaction
              (snd (run P events (state, mount state innerWidth innerHeight))))
  = {| x := 0; y := 0 |}
  /\ forall (s : FractalState * Component) (touch : Touch)
            (distance : number),
       velocity (interaction
                   (snd (run P (TouchStart [touch] distance :: events) s)))
       = {| x := 0; y := 0 |}.
Proof.
  intros Hall. split.
  - now apply run_velocity.
  - intros [st c] touch distance. rewrite run_cons.
    now apply run_velocity.
Qed.

(** X17 at a touch pan: touch down, one move, touch up, one frame. *)
Lemma glide_needs_mouse_move_witness :
  let rect := Some {| left := 0; top := 0;
                      rect_width := 1920; rect_height := 1080 |} in
  let events :=
    [ TouchStart [ {| touch_clientX := 500; touch_clientY := 300 |} ] 0;
      TouchMove [ {| touch_clientX := 600; touch_clientY := 300 |} ] 0 rect;
      TouchEnd; Frame 16 ] in
  forallb (fun ev => negb (is_MouseMove ev)) events = true
  /\ velocity (interaction
                 (snd (run ideal events
                         (DEFAULT_STATE, mount DEFAULT_STATE 1920 1080))))
     = {| x := 0; y := 0 |}.
Proof.
  intros rect events. split; [reflexivity|].
  apply (proj1 (glide_needs_mouse_move ideal DEFAULT_STATE 1920 1080 events
                  eq_refl)).
Defined.

(** *** Dragging *)

(** X18.  While dragging, the world point that was under the pointer at
    the previous mouse event is under the pointer after the move (with
    the pointer position computed as [handleWheel] computes it); a
    one-touch move does to the view what the mouse move does. *)
Theorem drag_keeps_grabbed_point
  (c : Component) (e : MouseEvent) (rect : DOMRect)
  (lx ly mx my l t w h tx ty tz : Q) :
  isDragging (interaction c) = true ->
  lastMousePos (interaction c) = Some {| x := Fin lx; y := Fin ly |} ->
  mouse_clientX e = Fin mx -> mouse_clientY e = Fin my ->
  rect = {| left := Fin l; top := Fin t;
            rect_width := Fin w; rect_height := Fin h |} ->
  0 < w -> 0 < h ->
  targetCenter (view c) = {| x := Fin tx; y := Fin ty |} ->
  targetZoom (view c) = Fin tz -> 0 < tz ->
  let c' := handleMouseMove e (Some rect) c in
  point_eq (worldUnder (view c') (pointerAt rect (Fin mx) (Fin my)))
           (worldUnder (view c) (pointerAt rect (Fin lx) (Fin ly)))
  /\ view (fst (handleTouchMove
                  [ {| touch_clientX := Fin mx; touch_clientY := Fin my |} ]
                  0 (Some rect) c))
     = view c'.
Proof.
  intros Hd Hl Hmx Hmy Hr Hw Hh Htc Htz Hz c'. subst c' rect.
  assert (Hw' : ~ w == 0) by lra.
  assert (Hh' : ~ h == 0) by lra.
  assert (Hz' : ~ tz == 0) by lra.
  unfold handleMouseMove, handleTouchMove. rewrite Hd, Hl, Hmx, Hmy.
  cbn [touch_clientX touch_clientY fst view].
  split; [|reflexivity].
  unfold worldUnder, pointerAt, wheel_mouseX, wheel_mouseY, point_eq.
  cbn [view targetCenter targetZoom x y clientX clientY left top
       rect_width rect_height].
  rewrite Htc, Htz.
  repeat (cbn [nadd nsub nmul nopp x y]; rewrite ?ndiv_Fin by assumption).
  cbn [num_eq]. split; field; auto.
Qed.

(** X18 at a drag from [(500, 300)] to [(600, 250)] on the default view. *)
Lemma drag_keeps_grabbed_point_witness :
  let rect := {| left := 0; top := 0;
                 rect_width := 1920; rect_height := 1080 |} in
  let c := handleMouseDown
             {| button := 0; mouse_clientX := 500; mouse_clientY := 300 |}
             (mount DEFAULT_STATE 1920 1080) in
  let e := {| button := 0; mouse_clientX := 600; mouse_clientY := 250 |} in
  0 < 1920 /\ 0 < 1080 /\ 0 < 1.0
  /\ point_eq
       (worldUnder (view (handleMouseMove e (Some rect) c))
                   (pointerAt rect (Fin 600) (Fin 250)))
       (worldUnder (view c) (pointerAt rect (Fin 500) (Fin 300))).
Proof.
  intros rect c e. split; [reflexivity|]. split; [reflexivity|].
  split; [reflexivity|].
  apply (drag_keeps_grabbed_point c e rect 500 300 600 250 0 0 1920 1080
           (-0.5) 0.0 1.0); reflexivity.
Defined.



(** X20.  A drag moves the target centre of the view but not the centre of
    the state; the effect on the state that follows any update without a
    [center] (auto-zoom tick, pinch, control panel) puts the target back
    on the centre of the state, and the view is what it would have been
    without the drag. *)
Theorem update_without_centre_discards_pan
  (state : FractalState) (c : Component) (e : MouseEvent)
  (rect : option DOMRect) (updates : Partial_FractalState) :
  p_center updates = None ->
  let panned := handleMouseMove e rect c in
  Types.center (fst (dispatch (Some updates) state panned))
  = Types.center state
  /\ targetCenter (view (snd (dispatch (Some updates) state panned)))
     = {| x := x (Types.center state); y := y (Types.center state) |}
  /\ view (snd (dispatch (Some updates) state panned))
     = view (snd (dispatch (Some updates) state c)).
Proof.
  intros Hu panned. subst panned.
  assert (Hv : center (view (handleMouseMove e rect c)) = center (view c)
               /\ zoom (view (handleMouseMove e rect c)) = zoom (view c)).
  { unfold handleMouseMove.
    destruct (isDragging (interaction c)), (lastMousePos (interaction c)),
      rect; split; reflexivity. }
  destruct Hv as [Hc Hz].
  unfold dispatch, stateEffect, setState.
  cbn [fst snd view Types.center targetCenter]. rewrite Hu, Hc, Hz.
  cbn [or_else]. repeat split.
Qed.

(** X20 at a drag of 100 pixels followed by an auto-zoom tick. *)
Lemma update_without_centre_discards_pan_witness :
  let rect := Some {| left := 0; top := 0;
                      rect_width := 1920; rect_height := 1080 |} in
  let state :=
    setState DEFAULT_STATE
      {| p_center := None; p_zoom := None; p_maxIterations := None;
         p_colorPalette := None; p_isJulia := None; p_juliaC := None;
         p_autoZoom := Some true; p_animationSpeed := None |} in
  let c := handleMouseDown
             {| button := 0; mouse_clientX := 500; mouse_clientY := 300 |}
             (mount DEFAULT_STATE 1920 1080) in
  let e := {| button := 0; mouse_clientX := 600; mouse_clientY := 300 |} in
  let panned := handleMouseMove e rect c in
  let tick := autoZoomTick ideal state (view panned) in
  p_center tick = None
  /\ ~ num_eq (x (targetCenter (view panned))) (x (Types.center state))
  /\ targetCenter (view (snd (dispatch (Some tick) state panned)))
     = {| x := x (Types.center state); y := y (Types.center state) |}.
Proof.
  intros rect state c e panned tick.
  split; [reflexivity|]. split; [vm_compute; discriminate|].
  apply (update_without_centre_discards_pan state c e rect tick). reflexivity.
Defined.

(** *** Pinching *)

(** A move of two touches while a pinch is on. *)
Lemma pinch_move (c : Component) (ta tb : Touch) (d : number)
  (rect : option DOMRect) (last : number) :
  isPinching (interaction c) = true ->
  lastPinchDistance (interaction c) = Some last ->
  truthy (Some last) = true ->
  handleTouchMove [ta; tb] d rect c
  = ({| view := view c;
        interaction :=
          {| isDragging := isDragging (interaction c);
             lastMousePos := lastMousePos (interaction c);
             velocity := velocity (interaction c);
             isPinching := isPinching (interaction c);
             lastPinchDistance := Some d |};
        uniforms := uniforms c;
        lastTime := lastTime c;
        width := width c;
        height := height c |},
     Some {| p_center := None;
             p_zoom := Some (targetZoom (view c) * (d / last))%num;
             p_maxIterations := None;
             p_colorPalette := None; p_isJulia := None; p_juliaC := None;
             p_autoZoom := None; p_animationSpeed := None |}).
Proof.
  intros Hp Hl Ht. unfold handleTouchMove. rewrite Hl, Hp, Ht. cbn [andb].
  destruct (isDragging (interaction c)), (lastMousePos (interaction c));
    reflexivity.
Qed.

(** X21.  A pinch multiplies the zoom by the ratio of the distances: two
    moves in a row, through the distance [d1], give the zoom that one
    move from [d0] to [d2] gives, and leave the centre and the iteration
    count of the state as they were. *)
Theorem pinch_follows_distance_ratio
  (state : FractalState) (c : Component) (t1 t2 t3 t4 t5 t6 : Touch)
  (rect rect' : option DOMRect) (d0 d1 d2 z : Q) :
  isPinching (interaction c) = true ->
  lastPinchDistance (interaction c) = Some (Fin d0) ->
  ~ d0 == 0 -> ~ d1 == 0 ->
  targetZoom (view c) = Fin z ->
  let move d touches rect (s : FractalState * Component) :=
    let '(c', updates) := handleTouchMove touches (Fin d) rect (snd s) in
    dispatch updates (fst s) c' in
  let s2 := move d2 [t3; t4] rect' (move d1 [t1; t2] rect (state, c)) in
  let s1 := move d2 [t5; t6] rect (state, c) in
  num_eq (targetZoom (view (snd s2))) (Fin (z * (d2 / d0)))
  /\ num_eq (targetZoom (view (snd s2))) (targetZoom (view (snd s1)))
  /\ num_eq (Types.zoom (fst s2)) (Fin (z * (d2 / d0)))
  /\ Types.center (fst s2) = Types.center state
  /\ maxIterations (fst s2) = maxIterations state.
Proof.
  intros Hp Hl Hd0 Hd1 Hz move s2 s1. subst s2 s1 move.
  assert (T : forall d, ~ d == 0 -> truthy (Some (Fin d)) = true).
  { intros d Hd. cbn [truthy]. apply negb_true_iff, not_true_iff_false.
    intros E. now apply Qeq_bool_iff in E. }
  cbn [fst snd].
  rewrite (pinch_move c t1 t2 (Fin d1) rect (Fin d0) Hp Hl (T d0 Hd0)).
  rewrite (pinch_move c t5 t6 (Fin d2) rect (Fin d0) Hp Hl (T d0 Hd0)).
  cbn [dispatch fst snd].
  rewrite (pinch_move _ t3 t4 (Fin d2) rect' (Fin d1));
    [| exact Hp | reflexivity | exact (T d1 Hd1)].
  cbn [dispatch fst snd stateEffect setState view targetZoom Types.zoom
       Types.center maxIterations p_zoom p_center p_maxIterations or_else].
  rewrite Hz. rewrite !ndiv_Fin by assumption. cbn [nmul num_eq].
  repeat split; try reflexivity; field; auto.
Qed.

(** X21 at a pinch from 100 pixels through 150 to 200 pixels. *)
Lemma pinch_follows_distance_ratio_witness :
  let c := handleTouchStart
             [ {| touch_clientX := 100; touch_clientY := 300 |};
               {| touch_clientX := 200; touch_clientY := 300 |} ] 100
             (mount DEFAULT_STATE 1920 1080) in
  let ta := {| touch_clientX := 80; touch_clientY := 300 |} in
  let tb := {| touch_clientX := 230; touch_clientY := 300 |} in
  let tc := {| touch_clientX := 50; touch_clientY := 300 |} in
  let td := {| touch_clientX := 250; touch_clientY := 300 |} in
  let move d touches (s : FractalState * Component) :=
    let '(c', updates) := handleTouchMove touches (Fin d) None (snd s) in
    dispatch updates (fst s) c' in
  ~ 100 == 0 /\ ~ 150 == 0
  /\ num_eq (targetZoom
               (view (snd (move 200 [tc; td]
                             (move 150 [ta; tb] (DEFAULT_STATE, c))))))
            (Fin (1.0 * (200 / 100))).
Proof.
  intros c ta tb tc td move.
  assert (H0 : ~ 100 == 0) by discriminate.
  assert (H1 : ~ 150 == 0) by discriminate.
  split; [exact H0|]. split; [exact H1|].
  apply (pinch_follows_distance_ratio DEFAULT_STATE c ta tb tc td tc td
           None None 100 150 200 1.0); try reflexivity; assumption.
Defined.

(** *** The wheel, in and out *)

(** X22.  One wheel notch in followed by one notch out multiplies the
    target zoom by 0.99 ([1.1 * 0.9]): the two do not cancel.  An event
    with [deltaY] not above 0 counts as a notch in. *)
Theorem wheel_in_then_out_drifts (P : Platform)
  (state : FractalState) (c : Component) (e_in e_out : WheelEvent)
  (rect rect' : DOMRect) (z : Q) :
  gt (deltaY e_in) 0 = false -> gt (deltaY e_out) 0 = true ->
  targetZoom (view c) = Fin z ->
  let s1 := dispatch (handleWheel P e_in (Some rect) (view c)) state c in
  let s2 := dispatch (handleWheel P e_out (Some rect') (view (snd s1)))
                     (fst s1) (snd s1) in
  num_eq (targetZoom (view (snd s1))) (Fin (z * 1.1))
  /\ num_eq (targetZoom (view (snd s2))) (Fin (z * 0.99))
  /\ num_eq (Types.zoom (fst s2)) (Fin (z * 0.99))
  /\ (~ z == 0 -> ~ num_eq (targetZoom (view (snd s2))) (Fin z)).
Proof.
  intros Hin Hout Hz s1 s2. subst s2 s1.
  unfold handleWheel. rewrite Hin, Hout.
  cbn [dispatch fst snd stateEffect setState view targetZoom Types.zoom
       p_zoom or_else].
  rewrite Hz. cbn [nmul num_eq].
  repeat split; try ring. intros Hne E. apply Hne. lra.
Qed.

(** X22 at one notch in and one notch out on the default view. *)
Lemma wheel_in_then_out_drifts_witness :
  let rect := {| left := 0; top := 0;
                 rect_width := 1920; rect_height := 1080 |} in
  let e_in := {| clientX := 1440; clientY := 270; deltaY := -100 |} in
  let e_out := {| clientX := 1440; clientY := 270; deltaY := 100 |} in
  let c := mount DEFAULT_STATE 1920 1080 in
  let s1 := dispatch (handleWheel ideal e_in (Some rect) (view c))
                     DEFAULT_STATE c in
  let s2 := dispatch (handleWheel ideal e_out (Some rect) (view (snd s1)))
                     (fst s1) (snd s1) in
  gt (deltaY e_in) 0 = false /\ gt (deltaY e_out) 0 = true
  /\ num_eq (targetZoom (view (snd s2))) (Fin (1.0 * 0.99)).
Proof.
  intros rect e_in e_out c s1 s2.
  split; [reflexivity|]. split; [reflexivity|].
  apply (wheel_in_then_out_drifts ideal DEFAULT_STATE c e_in e_out rect rect
           1.0);
    reflexivity.
Defined.

(** *** Resizing the window *)

(** X23.  A resize of the window reaches the uniform [u_resolution] and
    nothing that [animate] computes for the camera: the view and the
    interaction after the next frame are what they would have been without
    the resize, the inertia still using the aspect ratio of the mount. *)
Theorem resize_never_reaches_the_camera
  (c : Component) (newWidth newHeight time : number) :
  let resized := handleResize newWidth newHeight c in
  u_resolution (uniforms (animate time resized))
  = {| x := newWidth; y := newHeight |}
  /\ view (animate time resized) = view (animate time c)
  /\ interaction (animate time resized) = interaction (animate time c).
Proof.
  intros resized. subst resized. split; [|split].
  - unfold animate. destruct (animate_inertia _ _ _) as [v i]. reflexivity.
  - rewrite !animate_view_inertia. reflexivity.
  - rewrite !animate_interaction. reflexivity.
Qed.

End RendererFacts.

(** ** The shareable-state codec *)

Module UrlStateFacts.
Import JS Types UrlState.
Open Scope string_scope.
Open Scope Q_scope.

(** *** Characters *)

Lemma code_digit_char (d : N) : (d < 10)%N -> code (digit_char d) = (48 + d)%N.
Proof.
  intros Hd. unfold code, digit_char. apply N_ascii_embedding. lia.
Qed.

Lemma digit_val_char (d : N) : (d < 10)%N -> digit_val (digit_char d) = Some d.
Proof.
  intros Hd. unfold digit_val. rewrite code_digit_char by exact Hd.
  replace (48 <=? 48 + d)%N with true by (symmetry; apply N.leb_le; lia).
  replace (48 + d <=? 57)%N with true by (symmetry; apply N.leb_le; lia).
  cbn [andb]. f_equal. lia.
Qed.

Lemma digit_val_code (c : ascii) (d : N) :
  digit_val c = Some d -> (48 <= code c <= 57)%N.
Proof.
  unfold digit_val. destruct (48 <=? code c)%N eqn:E1; [|discriminate].
  destruct (code c <=? 57)%N eqn:E2; [|discriminate].
  intros _. apply N.leb_le in E1, E2. lia.
Qed.

(** *** Strings of digits *)

Lemma digit_string_app (s t : string) :
  digit_string (s ++ t) = digit_string s && digit_string t.
Proof.
  induction s as [|c s IH]; [reflexivity|]. cbn [append digit_string].
  destruct (digit_val c); [exact IH | reflexivity].
Qed.

Lemma value_from_app (s t : string) (acc : N) :
  digit_string s = true ->
  value_from (s ++ t) acc = value_from t (value_from s acc).
Proof.
  revert acc. induction s as [|c s IH]; intros acc Hs; [reflexivity|].
  cbn [append value_from digit_string] in *.
  destruct (digit_val c); [now apply IH | discriminate].
Qed.

Lemma append_assoc (s t u : string) : (s ++ t) ++ u = s ++ (t ++ u).
Proof. induction s as [|c s IH]; cbn; [reflexivity | now rewrite IH]. Qed.

Lemma append_nil_r (s : string) : s ++ "" = s.
Proof. induction s as [|c s IH]; cbn; [reflexivity | now rewrite IH]. Qed.

Lemma length_app (s t : string) :
  String.length (s ++ t) = (String.length s + String.length t)%nat.
Proof. induction s as [|c s IH]; cbn; [reflexivity | now rewrite IH]. Qed.

Lemma span_digits_app (s rest : string) :
  digit_string s = true -> head_is_digit rest = false ->
  forall acc count,
    span_digits (s ++ rest) acc count
    = (value_from s acc, (count + String.length s)%nat, rest).
Proof.
  intros Hs Hrest. induction s as [|c s IH]; intros acc count.
  - cbn [append value_from String.length]. rewrite Nat.add_0_r.
    destruct rest as [|c rest]; [reflexivity|].
    cbn [span_digits head_is_digit] in *.
    destruct (digit_val c); [discriminate | reflexivity].
  - cbn [append span_digits value_from digit_string String.length] in *.
    destruct (digit_val c); [|discriminate].
    rewrite IH by exact Hs. f_equal. f_equal. lia.
Qed.

(** *** Printing *)

Lemma digits_onto_spec (fuel : nat) :
  forall (n : N) (acc : string),
    (n < 2 ^ N.of_nat fuel)%N ->
    exists D,
      digits_onto fuel n acc = D ++ acc
      /\ digit_string D = true /\ head_is_digit D = true
      /\ value_from D 0 = n.
Proof.
  assert (Hone : forall n acc, (n < 10)%N ->
            exists D, String (digit_char (n mod 10)) acc = D ++ acc
                      /\ digit_string D = true /\ head_is_digit D = true
                      /\ value_from D 0 = n).
  { intros n acc Hn. exists (String (digit_char (n mod 10)) "").
    rewrite N.mod_small by exact Hn.
    cbn [append digit_string head_is_digit value_from].
    rewrite digit_val_char by exact Hn. repeat split; reflexivity. }
  induction fuel as [|fuel IH]; intros n acc Hn.
  - cbn [digits_onto]. apply Hone. cbn in Hn. lia.
  - cbn [digits_onto].
    destruct (N.eqb_spec (n / 10) 0) as [E|E].
    + apply Hone. apply N.div_small_iff in E; lia.
    + destruct (IH (n / 10)%N (String (digit_char (n mod 10)) acc))
        as (D & HD & Hds & Hhd & Hv).
      { apply N.Div0.div_lt_upper_bound.
        rewrite Nat2N.inj_succ, N.pow_succ_r' in Hn. lia. }
      exists (D ++ String (digit_char (n mod 10)) "").
      assert (Hd : (n mod 10 < 10)%N) by (apply N.mod_lt; lia).
      repeat split.
      * rewrite HD. now rewrite append_assoc.
      * rewrite digit_string_app, Hds. cbn [digit_string andb].
        now rewrite digit_val_char.
      * destruct D as [|c D]; [discriminate|]. exact Hhd.
      * rewrite value_from_app by exact Hds. rewrite Hv.
        cbn [value_from]. rewrite digit_val_char by exact Hd.
        rewrite (N.div_mod n 10) at 3 by lia. reflexivity.
Qed.

Lemma digits_spec (n : N) :
  digit_string (digits n) = true /\ head_is_digit (digits n) = true
  /\ value_from (digits n) 0 = n.
Proof.
  unfold digits.
  destruct (digits_onto_spec (N.to_nat (N.size n)) n "") as (D & HD & H).
  - rewrite N2Nat.id. apply N.size_gt.
  - rewrite HD, append_nil_r. exact H.
Qed.

Lemma fixed_onto_spec (w : nat) :
  forall (n : N) (acc : string),
    exists F,
      fixed_onto w n acc = F ++ acc
      /\ digit_string F = true /\ String.length F = w
      /\ value_from F 0 = (n mod pow10 w)%N.
Proof.
  induction w as [|w IH]; intros n acc.
  - exists "". cbn. repeat split; try reflexivity.
    unfold pow10. cbn. now rewrite N.mod_1_r.
  - cbn [fixed_onto].
    destruct (IH (n / 10)%N (String (digit_char (n mod 10)) acc))
      as (F & HF & Hds & Hlen & Hv).
    exists (F ++ String (digit_char (n mod 10)) "").
    assert (Hd : (n mod 10 < 10)%N) by (apply N.mod_lt; lia).
    repeat split.
    + rewrite HF. now rewrite append_assoc.
    + rewrite digit_string_app, Hds. cbn [digit_string andb].
      now rewrite digit_val_char.
    + rewrite length_app, Hlen. cbn. lia.
    + rewrite value_from_app by exact Hds. rewrite Hv.
      cbn [value_from]. rewrite digit_val_char by exact Hd.
      unfold pow10. rewrite Nat2N.inj_succ, N.pow_succ_r'.
      rewrite N.Div0.mod_mul_r. lia.
Qed.

(** *** Parsing *)

Lemma digit_not_whitespace (c : ascii) (d : N) :
  digit_val c = Some d -> is_whitespace c = false.
Proof.
  intros H. apply digit_val_code in H. unfold is_whitespace.
  replace (code c <=? 13)%N with false by (symmetry; apply N.leb_gt; lia).
  replace (code c =? 32)%N with false by (symmetry; apply N.eqb_neq; lia).
  now rewrite andb_false_r.
Qed.

Lemma digit_not_sign (c : ascii) (d : N) (s : string) :
  digit_val c = Some d -> sign_prefix (String c s) = (false, String c s).
Proof.
  intros H. apply digit_val_code in H. unfold sign_prefix.
  replace (code c =? 45)%N with false by (symmetry; apply N.eqb_neq; lia).
  replace (code c =? 43)%N with false by (symmetry; apply N.eqb_neq; lia).
  reflexivity.
Qed.

Lemma digit_not_Infinity (c : ascii) (d : N) (s : string) :
  digit_val c = Some d -> prefix "Infinity" (String c s) = false.
Proof.
  intros H. apply digit_val_code in H. cbn [prefix].
  destruct (ascii_dec "I" c) as [<-|_]; [|reflexivity].
  cbn in H. lia.
Qed.

(** What the parsers see after the sign of a printed number. *)
Lemma after_sign (negative : bool) (c : ascii) (d : N) (s : string) :
  digit_val c = Some d ->
  sign_prefix (trimStart (sign_string negative ++ String c s))
  = (negative, String c s).
Proof.
  intros H. destruct negative; cbn [sign_string append].
  - reflexivity.
  - cbn [trimStart]. rewrite (digit_not_whitespace c d H).
    now apply digit_not_sign with d.
Qed.

Lemma parseFloat_decimal (negative : bool) (ip fp : string) :
  digit_string ip = true -> head_is_digit ip = true ->
  digit_string fp = true ->
  parseFloat (sign_string negative ++ ip ++ "." ++ fp)
  = Fin (signed negative
           ((inject_Z (Z.of_N (value_from ip 0))
             + inject_Z (Z.of_N (value_from fp 0))
               / inject_Z (Z.of_N (pow10 (String.length fp))))
            * 10 ^ 0)).
Proof.
  intros Hip Hhd Hfp.
  destruct ip as [|c ip]; [discriminate|].
  cbn [head_is_digit] in Hhd.
  destruct (digit_val c) as [d|] eqn:Hc; [|discriminate].
  unfold parseFloat. cbn [append].
  rewrite (after_sign negative c d _ Hc).
  rewrite (digit_not_Infinity c d _ Hc).
  change (String c (ip ++ String "." fp)) with (String c ip ++ String "." fp).
  rewrite span_digits_app by (assumption || reflexivity).
  change (code "." =? 46)%N with true. cbv iota.
  rewrite <- (append_nil_r fp) at 1.
  rewrite span_digits_app by (assumption || reflexivity).
  cbn [String.length Nat.add Nat.eqb exponent_part]. reflexivity.
Qed.

Lemma parseInt_decimal (negative : bool) (ip : string) :
  digit_string ip = true -> head_is_digit ip = true ->
  parseInt (sign_string negative ++ ip)
  = Fin (signed negative (inject_Z (Z.of_N (value_from ip 0)))).
Proof.
  intros Hip Hhd.
  destruct ip as [|c ip]; [discriminate|].
  cbn [head_is_digit] in Hhd.
  destruct (digit_val c) as [d|] eqn:Hc; [|discriminate].
  unfold parseInt.
  rewrite (after_sign negative c d _ Hc).
  rewrite <- (append_nil_r (String c ip)) at 1.
  rewrite span_digits_app by (assumption || reflexivity).
  cbn [String.length Nat.add Nat.eqb]. reflexivity.
Qed.

Example toFixed_samples :
  (toFixed (Fin (-0.5)) 10, toFixed (Fin 1) 6,
   toFixed (Fin 0.00000000005) 10, toFixed (Fin 0.000000000049) 10,
   toFixed (Fin 9.99999999999) 10, toFixed NaN 10, toFixed (Inf true) 6)
  = (Some "-0.5000000000", Some "1.000000",
     Some "0.0000000001", Some "0.0000000000",
     Some "10.0000000000", Some "NaN", Some "-Infinity").
Proof. vm_compute. reflexivity. Qed.

(** From [10^21] on: scientific notation.  The last value is [2^70],
    which JavaScript prints as [1.1805916207174113e+21]. *)
Example toFixed_large_samples :
  (toFixed (Fin 1000000000000000000000) 6,
   toFixed (Fin (-1500000000000000000000)) 10,
   toFixed (Fin 1180591620717411303424) 6,
   Number_toString (Fin 1000000000000000000000))
  = (Some "1e+21", Some "-1.5e+21", Some "1.180591620717411303424e+21",
     Some "1e+21")
  /\ num_eq (parseFloat "-1.5e+21") (Fin (-1500000000000000000000))
  /\ num_eq (parseInt "1e+21") (Fin 1).
Proof. vm_compute. repeat split. Qed.

Example parseFloat_samples :
  num_eq (parseFloat "-0.5000000000") (Fin (-0.5))
  /\ num_eq (parseFloat "  3.14xyz") (Fin 3.14)
  /\ num_eq (parseFloat "2.5e-3") (Fin 0.0025)
  /\ num_eq (parseFloat "-.5") (Fin (-0.5))
  /\ parseFloat "abc" = NaN /\ parseFloat "" = NaN /\ parseFloat "." = NaN
  /\ parseFloat "-Infinity" = Inf true.
Proof. vm_compute. repeat split. Qed.

Example parseInt_samples :
  num_eq (parseInt "150") (Fin 150) /\ num_eq (parseInt "12px") (Fin 12)
  /\ num_eq (parseInt "3.9") (Fin 3) /\ num_eq (parseInt "-7") (Fin (-7))
  /\ parseInt "" = NaN /\ parseInt "Infinity" = NaN.
Proof. vm_compute. repeat split. Qed.

Example updateUrl_default :
  updateUrl DEFAULT_STATE
  = Some [("cx", "-0.5000000000"); ("cy", "0.0000000000");
          ("z", "1.000000"); ("i", "150"); ("p", "0")].
Proof. vm_compute. reflexivity. Qed.

Example updateUrl_julia_view :
  updateUrl julia_view
  = Some [("cx", "0.1234567890"); ("cy", "-0.2500000000");
          ("z", "2.500000"); ("i", "300"); ("p", "2");
          ("j", "1"); ("jx", "0.3000000000"); ("jy", "0.5000000000")].
Proof. vm_compute. reflexivity. Qed.

Example set_replaces :
  set "b" "9" [("a", "1"); ("b", "2"); ("c", "0"); ("b", "3")]
  = [("a", "1"); ("b", "9"); ("c", "0")].
Proof. reflexivity. Qed.

(** *** Printing, then parsing *)


Lemma signed_comp (negative : bool) (a b : Q) :
  a == b -> signed negative a == signed negative b.
Proof. intros H. destruct negative; cbn [signed]; now rewrite H. Qed.

Lemma pow10_pos (f : nat) : (0 < pow10 f)%N.
Proof. unfold pow10. apply N.neq_0_lt_0, N.pow_nonzero. lia. Qed.

Lemma inject_pow10_nonzero (f : nat) : ~ inject_Z (Z.of_N (pow10 f)) == 0.
Proof.
  pose proof (pow10_pos f) as Hp. intros E.
  change 0 with (inject_Z (Z.of_N 0)) in E.
  apply inject_Z_injective, N2Z.inj in E. rewrite E in Hp.
  now apply N.lt_irrefl in Hp.
Qed.

Lemma Qabs_scaled_nonneg (q : Q) (f : nat) :
  0 <= Qabs q * inject_Z (Z.of_N (pow10 f)).
Proof.
  apply Qmult_le_0_compat; [apply Qabs_nonneg|].
  change 0 with (inject_Z 0). rewrite <- Zle_Qle. lia.
Qed.

Lemma rounded_nonneg (q : Q) (f : nat) :
  (0 <= Qfloor (Qabs q * inject_Z (Z.of_N (pow10 f)) + (1 # 2)))%Z.
Proof.
  change 0%Z with (Qfloor 0). apply Qfloor_resp_le.
  pose proof (Qabs_scaled_nonneg q f). lra.
Qed.

Lemma parseFloat_toFixed (q : Q) (f : nat) :
  f <> 0%nat -> Qabs q < 10 ^ 21 ->
  exists s, toFixed (Fin q) f = Some s
            /\ num_eq (parseFloat s) (Fin (roundTo f q)).
Proof.
  intros Hf Hq. unfold toFixed.
  assert (E1 : Qle_bool (10 ^ 21) (Qabs q) = false).
  { apply not_true_iff_false. intros E. apply Qle_bool_iff in E. lra. }
  assert (E2 : (f =? 0)%nat = false) by now apply Nat.eqb_neq.
  rewrite E1, E2.
  set (n := Z.to_N (Qfloor (Qabs q * inject_Z (Z.of_N (pow10 f)) + (1 # 2)))).
  eexists. split; [reflexivity|].
  destruct (digits_spec (n / pow10 f)) as (Hds & Hhd & Hv).
  destruct (fixed_onto_spec f (n mod pow10 f) "")
    as (F & HF & HFds & HFlen & HFv).
  rewrite HF, append_nil_r.
  rewrite parseFloat_decimal by assumption.
  rewrite Hv, HFv, HFlen. cbn [num_eq]. unfold roundTo.
  apply signed_comp.
  pose proof (pow10_pos f) as Hp.
  rewrite N.Div0.mod_mod.
  assert (En : Z.of_N n
               = Qfloor (Qabs q * inject_Z (Z.of_N (pow10 f)) + (1 # 2))).
  { unfold n. apply Z2N.id, rounded_nonneg. }
  rewrite <- En.
  rewrite (N.div_mod n (pow10 f)) at 3 by lia.
  rewrite N2Z.inj_add, N2Z.inj_mul, inject_Z_plus, inject_Z_mult.
  change (10 ^ 0) with 1.
  field. apply inject_pow10_nonzero.
Qed.

Lemma roundTo_error (d : nat) (q : Q) :
  Qabs (roundTo d q - q) <= (1 # 2) / inject_Z (Z.of_N (pow10 d)).
Proof.
  unfold roundTo.
  set (p := inject_Z (Z.of_N (pow10 d))).
  set (k := Qfloor (Qabs q * p + (1 # 2))).
  assert (Hp : 0 < p).
  { unfold p. change 0 with (inject_Z 0). rewrite <- Zlt_Qlt.
    pose proof (pow10_pos d). lia. }
  pose proof (Qfloor_le (Qabs q * p + (1 # 2))) as Hlo. fold k in Hlo.
  pose proof (Qlt_floor (Qabs q * p + (1 # 2))) as Hhi. fold k in Hhi.
  rewrite inject_Z_plus in Hhi. change (inject_Z 1) with 1 in Hhi.
  assert (Hp' : ~ p == 0) by lra.
  assert (Hclose : Qabs (inject_Z k / p - Qabs q) <= (1 # 2) / p).
  { assert (E : (inject_Z k / p - Qabs q) * p == inject_Z k - Qabs q * p)
      by (field; exact Hp').
    apply Qabs_Qle_condition. split.
    - assert (Hneg : - (inject_Z k / p - Qabs q) <= (1 # 2) / p).
      { apply Qle_shift_div_l; [exact Hp|].
        assert (E' : - (inject_Z k / p - Qabs q) * p
                     == - (inject_Z k - Qabs q * p)) by (field; exact Hp').
        rewrite E'. lra. }
      set (h := (1 # 2) / p) in *. set (e := inject_Z k / p - Qabs q) in *.
      lra.
    - apply Qle_shift_div_l; [exact Hp|]. rewrite E. lra. }
  destruct (Qltb q 0) eqn:Hs; cbn [signed].
  - apply Qltb_true in Hs.
    assert (Ea : Qabs q == - q) by (apply Qabs_neg; lra).
    assert (E : - (inject_Z k / p) - q == - (inject_Z k / p - Qabs q))
      by (rewrite Ea; ring).
    rewrite E, Qabs_opp. exact Hclose.
  - apply Qltb_false in Hs.
    assert (Ea : Qabs q == q) by (apply Qabs_pos; lra).
    assert (E : inject_Z k / p - q == inject_Z k / p - Qabs q)
      by (rewrite Ea; ring).
    rewrite E. exact Hclose.
Qed.


Lemma integral_sound (q : Q) (z : Z) : integral q = Some z -> q == inject_Z z.
Proof.
  unfold integral. destruct (Qden (Qred q) =? 1)%positive eqn:E; [|discriminate].
  intros H. injection H as <-. apply Pos.eqb_eq in E.
  rewrite <- (Qred_correct q) at 1.
  destruct (Qred q) as [n d]. cbn in E |- *. subst d. reflexivity.
Qed.

Lemma integral_inject_Z (q : Q) (z : Z) :
  q == inject_Z z -> integral q = Some z.
Proof.
  intros H. unfold integral.
  rewrite (Qred_complete _ _ H).
  assert (E : Qred (inject_Z z) = inject_Z z).
  { apply Qred_identity. cbn. apply Z.gcd_1_r. }
  rewrite E. reflexivity.
Qed.

Lemma parseInt_toString (q : Q) (z : Z) :
  q == inject_Z z -> (Z.abs z < 10 ^ 21)%Z ->
  exists s, Number_toString (Fin q) = Some s
            /\ num_eq (parseInt s) (Fin q).
Proof.
  intros Hq Hz. unfold Number_toString.
  rewrite (integral_inject_Z q z Hq).
  assert (E : Qltb (Qabs q) (10 ^ 21) = true).
  { apply Qltb_true. rewrite Hq.
    change (Qabs (inject_Z z)) with (inject_Z (Z.abs z)).
    change (10 ^ 21) with (inject_Z (10 ^ 21)). now rewrite <- Zlt_Qlt. }
  rewrite E. eexists. split; [reflexivity|].
  destruct (digits_spec (Z.abs_N z)) as (Hds & Hhd & Hv).
  rewrite parseInt_decimal by assumption.
  rewrite Hv, N2Z.inj_abs_N. cbn [num_eq]. rewrite Hq.
  destruct (Z.ltb_spec z 0) as [Hneg|Hpos]; cbn [signed].
  - rewrite Z.abs_neq by lia. rewrite inject_Z_opp. ring.
  - rewrite Z.abs_eq by lia. reflexivity.
Qed.

(** *** Scientific notation *)

Lemma pow10_S (k : nat) : pow10 (S k) = (10 * pow10 k)%N.
Proof. unfold pow10. now rewrite Nat2N.inj_succ, N.pow_succ_r'. Qed.

Lemma strip_zeros_spec (fuel : nat) :
  forall (n : N) (t : nat),
    exists k : nat,
      snd (strip_zeros fuel n t) = (t + k)%nat
      /\ (fst (strip_zeros fuel n t) * pow10 k)%N = n.
Proof.
  induction fuel as [|fuel IH]; intros n t.
  - exists 0%nat. cbn. split; [lia|]. unfold pow10. cbn. lia.
  - cbn [strip_zeros]. destruct (N.eqb_spec (n mod 10) 0) as [E|E].
    + destruct (IH (n / 10)%N (S t)) as (k & Hk & Hv).
      exists (S k). split; [rewrite Hk; lia|].
      set (r := fst (strip_zeros fuel (n / 10) (S t))) in *.
      rewrite pow10_S, (N.div_mod n 10) by lia.
      rewrite E, N.add_0_r, <- Hv. ring.
    + exists 0%nat. cbn [fst snd]. split; [lia|]. unfold pow10; cbn; lia.
Qed.

Lemma value_from_acc (s : string) :
  digit_string s = true ->
  forall acc,
    value_from s acc = (acc * pow10 (String.length s) + value_from s 0)%N.
Proof.
  induction s as [|c s IH]; intros Hs acc.
  - cbn. unfold pow10. cbn. lia.
  - cbn [value_from digit_string String.length] in *.
    destruct (digit_val c) as [d|]; [|discriminate].
    rewrite (IH Hs (10 * acc + d)%N), (IH Hs (10 * 0 + d)%N), pow10_S. lia.
Qed.

Lemma inject_pow10 (k : nat) :
  inject_Z (Z.of_N (pow10 k)) == 10 ^ Z.of_nat k.
Proof.
  unfold pow10. rewrite N2Z.inj_pow, nat_N_Z.
  rewrite Zpower_Qpower by lia. reflexivity.
Qed.

Lemma digits_nonempty (n : N) :
  exists c d rest,
    digits n = String c rest /\ digit_val c = Some d
    /\ digit_string rest = true
    /\ (d * pow10 (String.length rest) + value_from rest 0)%N = n.
Proof.
  destruct (digits_spec n) as (Hds & Hhd & Hv).
  destruct (digits n) as [|c rest]; [discriminate|].
  cbn [head_is_digit digit_string value_from] in *.
  destruct (digit_val c) as [d|] eqn:Hc; [|discriminate].
  exists c, d, rest. split; [reflexivity|]. split; [exact Hc|].
  split; [exact Hds|].
  rewrite (value_from_acc rest Hds) in Hv. exact Hv.
Qed.

(** The exponent part [e+N]. *)
Lemma exponent_part_digits (E : N) :
  exponent_part ("e+" ++ digits E) = Z.of_N E.
Proof.
  destruct (digits_spec E) as (Hds & Hhd & Hv).
  cbn [append exponent_part].
  change (code "e" =? 101)%N with true. cbn [orb].
  change (sign_prefix (String "+" (digits E))) with (false, digits E).
  rewrite <- (append_nil_r (digits E)).
  rewrite span_digits_app by (assumption || reflexivity).
  destruct (digits E) as [|c s]; [discriminate|].
  cbn [String.length Nat.add Nat.eqb]. now rewrite Hv.
Qed.

Lemma head_of_tail (rest t : string) :
  head_is_digit
    ((if (String.length rest =? 0)%nat then "" else "." ++ rest) ++ "e+" ++ t)
  = false.
Proof. destruct (String.length rest =? 0)%nat; reflexivity. Qed.

(** A printed integer of [10^21] or more reads back as itself. *)
Lemma parseFloat_exponential (negative : bool) (n : N) :
  num_eq (parseFloat (sign_string negative ++ exponential n))
         (Fin (signed negative (inject_Z (Z.of_N n)))).
Proof.
  unfold exponential.
  destruct (strip_zeros_spec (N.to_nat (N.size n)) n 0) as (k & Hk & Hv).
  destruct (strip_zeros (N.to_nat (N.size n)) n 0) as [s t].
  cbn [fst snd] in Hk, Hv. cbn [Nat.add] in Hk. subst t.
  destruct (digits_nonempty s) as (c & d & rest & -> & Hc & Hrest & Hs).
  set (E := N.of_nat (String.length rest + k)).
  unfold parseFloat. cbn [append].
  rewrite (after_sign negative c d _ Hc).
  rewrite (digit_not_Infinity c d _ Hc).
  cbn [span_digits]. rewrite Hc.
  destruct rest as [|c' rest'].
  - (* a single digit: no point *)
    cbn [String.length Nat.eqb append span_digits].
    change (digit_val "e") with (@None N). cbv iota.
    change (code "e" =? 46)%N with false. cbv iota.
    cbn [Nat.add Nat.eqb]. fold (append "e+" (digits E)).
    change (String "e" (String "+" (digits E))) with ("e+" ++ digits E).
    rewrite exponent_part_digits. cbn [num_eq]. apply signed_comp.
    unfold E. cbn [String.length Nat.add] in *. rewrite nat_N_Z.
    rewrite <- inject_pow10, <- Hv.
    cbn [value_from String.length] in Hs. unfold pow10 in Hs at 1.
    cbn in Hs. rewrite N2Z.inj_mul, inject_Z_mult.
    replace s with d by lia.
    change (inject_Z (Z.of_N (pow10 0))) with 1.
    change (inject_Z (Z.of_N 0)) with 0. change (10 * 0 + d)%N with d.
    field.
  - (* a point, then the other digits *)
    change ((String.length (String c' rest') =? 0)%nat) with false. cbv iota.
    set (fp := String c' rest') in *.
    change (String "." fp ++ String "e" (String "+" (digits E)))
      with (String "." (fp ++ ("e+" ++ digits E))).
    cbn [span_digits]. change (digit_val ".") with (@None N). cbv iota.
    change (code "." =? 46)%N with true. cbv iota.
    rewrite span_digits_app by (assumption || reflexivity).
    change (0 + String.length fp)%nat with (String.length fp).
    change (1 + String.length fp =? 0)%nat with false. cbv iota.
    rewrite exponent_part_digits. cbn [num_eq].
    apply signed_comp. unfold E. rewrite nat_N_Z, Nat2Z.inj_add.
    rewrite Qpower_plus by discriminate.
    rewrite <- !inject_pow10, <- Hv, <- Hs.
    rewrite !N2Z.inj_mul, !N2Z.inj_add, !N2Z.inj_mul.
    rewrite !inject_Z_mult, !inject_Z_plus, !inject_Z_mult.
    change (10 * 0 + d)%N with d.
    field. apply inject_pow10_nonzero.
Qed.

Lemma digit_val_lt (c : ascii) (d : N) : digit_val c = Some d -> (d < 10)%N.
Proof.
  intros H. pose proof (digit_val_code c d H) as Hc. unfold digit_val in H.
  destruct ((48 <=? code c)%N && (code c <=? 57)%N); [|discriminate].
  injection H as <-. lia.
Qed.

(** [parseInt] stops at the point, or at the [e], of a printed integer of
    [10^21] or more: it returns the first digit. *)
Lemma parseInt_exponential (negative : bool) (n : N) :
  exists d : N,
    (d < 10)%N
    /\ parseInt (sign_string negative ++ exponential n)
       = Fin (signed negative (inject_Z (Z.of_N d))).
Proof.
  unfold exponential.
  destruct (strip_zeros (N.to_nat (N.size n)) n 0) as [s t].
  destruct (digits_nonempty s) as (c & d & rest & -> & Hc & Hrest & Hs).
  exists d. split; [now apply digit_val_lt with c|].
  unfold parseInt. cbn [append].
  rewrite (after_sign negative c d _ Hc).
  match goal with
  | |- context [span_digits (String c ?tail) 0 0] =>
      change (String c tail) with (String c "" ++ tail);
      rewrite span_digits_app by (reflexivity || apply head_of_tail
                                  || (cbn [digit_string]; now rewrite Hc))
  end.
  cbn [String.length Nat.add Nat.eqb value_from]. rewrite Hc. reflexivity.
Qed.

Lemma Qfloor_unique (q : Q) (k : Z) :
  inject_Z k <= q -> q < inject_Z k + 1 -> Qfloor q = k.
Proof.
  intros Hlo Hhi.
  pose proof (Qfloor_le q) as Fl. pose proof (Qlt_floor q) as Fh.
  rewrite inject_Z_plus in Fh. change (inject_Z 1) with 1 in Fh.
  assert (H1 : inject_Z (Qfloor q) < inject_Z k + 1) by lra.
  assert (H2 : inject_Z k < inject_Z (Qfloor q) + 1) by lra.
  change 1 with (inject_Z 1) in H1, H2.
  rewrite <- inject_Z_plus, <- Zlt_Qlt in H1, H2. lia.
Qed.

(** An integer has nothing to round. *)
Lemma roundTo_integer (d : nat) (q : Q) (z : Z) :
  q == inject_Z z -> roundTo d q == q.
Proof.
  intros Hq. unfold roundTo.
  set (p := inject_Z (Z.of_N (pow10 d))).
  assert (Hp : ~ p == 0) by apply inject_pow10_nonzero.
  assert (Ha : Qabs q == inject_Z (Z.abs z)) by (rewrite Hq; reflexivity).
  assert (Hf : Qfloor (Qabs q * p + (1 # 2)) = (Z.abs z * Z.of_N (pow10 d))%Z).
  { apply Qfloor_unique; rewrite Ha, inject_Z_mult; fold p; lra. }
  rewrite Hf, inject_Z_mult. fold p.
  assert (E : inject_Z (Z.abs z) * p / p == inject_Z (Z.abs z))
    by (field; exact Hp).
  rewrite (signed_comp _ _ _ E).
  assert (Eq : Qltb q 0 = Qltb (inject_Z z) 0) by now rewrite Hq.
  rewrite Eq.
  destruct (Qltb (inject_Z z) 0) eqn:Es; cbn [signed]; rewrite Hq.
  - apply Qltb_true in Es. change 0 with (inject_Z 0) in Es.
    rewrite <- Zlt_Qlt in Es. rewrite Z.abs_neq by lia.
    rewrite inject_Z_opp. ring.
  - apply Qltb_false in Es. change 0 with (inject_Z 0) in Es.
    rewrite <- Zle_Qle in Es. rewrite Z.abs_eq by lia. reflexivity.
Qed.

(** From [10^21] on [toFixed] prints the scientific notation, which
    [parseFloat] reads back as the number itself. *)
Lemma toFixed_large (q : Q) (z : Z) (f : nat) :
  10 ^ 21 <= Qabs q -> q == inject_Z z ->
  toFixed (Fin q) f = Some (sign_string (z <? 0)%Z ++ exponential (Z.abs_N z))
  /\ num_eq (parseFloat (sign_string (z <? 0)%Z ++ exponential (Z.abs_N z)))
            (Fin q).
Proof.
  intros Hl Hq. split.
  - unfold toFixed, Number_toString.
    assert (E1 : Qle_bool (10 ^ 21) (Qabs q) = true) by now apply Qle_bool_iff.
    assert (E2 : Qltb (Qabs q) (10 ^ 21) = false) by now apply Qltb_false.
    now rewrite E1, (integral_inject_Z q z Hq), E2.
  - pose proof (parseFloat_exponential (z <? 0)%Z (Z.abs_N z)) as H.
    destruct (parseFloat _) as [r| |]; cbn [num_eq] in *; try contradiction.
    rewrite H, Hq, N2Z.inj_abs_N.
    destruct (Z.ltb_spec z 0) as [Hneg|Hpos]; cbn [signed].
    + rewrite Z.abs_neq by lia. rewrite inject_Z_opp. ring.
    + rewrite Z.abs_eq by lia. reflexivity.
Qed.

Lemma printable_toFixed (a : number) (f : nat) :
  f <> 0%nat -> printable a ->
  exists s, toFixed a f = Some s
            /\ num_eq (parseFloat s) (round_number f a).
Proof.
  intros Hf Ha. destruct a as [q| |[|]].
  - cbn [printable round_number] in *.
    destruct (Qlt_le_dec (Qabs q) (10 ^ 21)) as [Hs|Hl];
      [now apply parseFloat_toFixed|].
    destruct Ha as [Ha|[z Hz]]; [destruct (Qlt_not_le _ _ Ha Hl)|].
    destruct (toFixed_large q z f Hl Hz) as [Es Hr].
    eexists. split; [exact Es|].
    destruct (parseFloat _) as [r| |]; cbn [num_eq] in *; try contradiction.
    rewrite Hr. symmetry. now apply roundTo_integer with z.
  - exists "NaN". split; reflexivity.
  - exists "-Infinity". split; reflexivity.
  - exists "Infinity". split; reflexivity.
Qed.

Lemma printable_int_toString (a : number) :
  printable_int a ->
  exists s, Number_toString a = Some s /\ num_eq (parseInt s) a.
Proof.
  destruct a as [q| |s]; cbn [printable_int].
  - intros (z & Hq & Hz). now apply parseInt_toString with z.
  - intros _. exists "NaN". split; reflexivity.
  - intros [].
Qed.

(** *** The round trip *)

(** C7, amended.  For a state that can be shared (centre, zoom and Julia
    constant binary64 numbers of any size; iteration count and palette
    index integers below [10^21]), writing the parameters and loading
    them into a state [prev] reproduces the centre at 10 decimals, the
    zoom at 6 decimals, the iteration count and the palette index; with
    [isJulia = true] it also reproduces the flag and the Julia constant
    at 10 decimals; with [isJulia = false] neither the flag nor the
    constant is written, and loading leaves those of [prev] in place. *)
Theorem shareable_state_round_trip (state prev : FractalState) :
  shareable state ->
  exists params,
    updateUrl state = Some params
    /\ let state' := loadState params prev in
       num_eq (x (center state')) (round_number 10 (x (center state)))
       /\ num_eq (y (center state')) (round_number 10 (y (center state)))
       /\ num_eq (zoom state') (round_number 6 (zoom state))
       /\ num_eq (maxIterations state') (maxIterations state)
       /\ num_eq (colorPalette state') (colorPalette state)
       /\ (isJulia state = true ->
           isJulia state' = true
           /\ num_eq (x (juliaC state')) (round_number 10 (x (juliaC state)))
           /\ num_eq (y (juliaC state')) (round_number 10 (y (juliaC state))))
       /\ (isJulia state = false ->
           get "j" params = None
           /\ isJulia state' = isJulia prev /\ juliaC state' = juliaC prev).
Proof.
  intros (Hcx & Hcy & Hz & Hi & Hp & Hj).
  destruct (printable_toFixed _ 10 ltac:(discriminate) Hcx)
    as (cx & Ecx & Rcx).
  destruct (printable_toFixed _ 10 ltac:(discriminate) Hcy)
    as (cy & Ecy & Rcy).
  destruct (printable_toFixed _ 6 ltac:(discriminate) Hz) as (z & Ez & Rz).
  destruct (printable_int_toString _ Hi) as (i & Ei & Ri).
  destruct (printable_int_toString _ Hp) as (p & Ep & Rp).
  unfold updateUrl. rewrite Ecx, Ecy, Ez, Ei, Ep. cbn [bind].
  destruct (isJulia state) eqn:EJ.
  - destruct (Hj eq_refl) as [Hjx Hjy].
    destruct (printable_toFixed _ 10 ltac:(discriminate) Hjx)
      as (jx & Ejx & Rjx).
    destruct (printable_toFixed _ 10 ltac:(discriminate) Hjy)
      as (jy & Ejy & Rjy).
    rewrite Ejx, Ejy. cbn [bind].
    eexists. split; [reflexivity|].
    cbv zeta. 
    repeat split; try assumption; try discriminate.
  - eexists. split; [reflexivity|].
    repeat split; try assumption; try discriminate.
Qed.

Lemma shareable_julia_view : shareable julia_view.
Proof.
  unfold shareable, julia_view.
  cbn [center zoom maxIterations colorPalette isJulia juliaC x y
       printable printable_int].
  split; [left; reflexivity|]. split; [left; reflexivity|].
  split; [left; reflexivity|].
  split; [exists 300%Z; repeat split|]. split; [exists 2%Z; repeat split|].
  intros _. split; left; reflexivity.
Defined.

Lemma shareable_deep_view : shareable deep_view.
Proof.
  unfold shareable, deep_view, julia_view, setState.
  cbn [center zoom maxIterations colorPalette isJulia juliaC x y or_else
       p_center p_zoom p_maxIterations p_colorPalette p_isJulia p_juliaC
       printable printable_int].
  split; [left; reflexivity|]. split; [left; reflexivity|].
  split; [right; exists 1500000000000000000000%Z; reflexivity|].
  split; [exists 300%Z; repeat split|]. split; [exists 2%Z; repeat split|].
  intros _. split; left; reflexivity.
Defined.

(** C7 at the Julia view after a long auto-zoom, at zoom [1.5e21],
    loaded into the default state: the zoom is written as [1.5e+21] and
    comes back as it was. *)
Lemma shareable_state_round_trip_witness :
  shareable deep_view
  /\ exists params,
       updateUrl deep_view = Some params
       /\ get "z" params = Some "1.5e+21"
       /\ num_eq (zoom (loadState params DEFAULT_STATE)) (zoom deep_view)
       /\ isJulia (loadState params DEFAULT_STATE) = true
       /\ num_eq (x (juliaC (loadState params DEFAULT_STATE)))
                 (x (juliaC deep_view)).
Proof.
  split; [exact shareable_deep_view|].
  destruct (shareable_state_round_trip deep_view DEFAULT_STATE
              shareable_deep_view)
    as (params & E & _ & _ & Hz & _ & _ & HJ & _).
  exists params. split; [exact E|].
  destruct (HJ eq_refl) as (HJ1 & HJ2 & _).
  assert (Ep : Some params
               = Some [("cx", "0.1234567890"); ("cy", "-0.2500000000");
                       ("z", "1.5e+21"); ("i", "300"); ("p", "2");
                       ("j", "1"); ("jx", "0.3000000000");
                       ("jy", "0.5000000000")])
    by (rewrite <- E; vm_compute; reflexivity).
  assert (Ep' : params
                = [("cx", "0.1234567890"); ("cy", "-0.2500000000");
                   ("z", "1.5e+21"); ("i", "300"); ("p", "2");
                   ("j", "1"); ("jx", "0.3000000000");
                   ("jy", "0.5000000000")]) by congruence.
  split; [rewrite Ep'; reflexivity|].
  split; [|split; [exact HJ1|]].
  - change (zoom deep_view) with (Fin 1500000000000000000000) in *.
    destruct (zoom (loadState params DEFAULT_STATE)) as [r| |];
      cbn [num_eq round_number] in *; try contradiction.
    rewrite Hz. vm_compute. reflexivity.
  - change (x (juliaC deep_view)) with (Fin 0.3) in *.
    destruct (x (juliaC (loadState params DEFAULT_STATE))) as [r| |];
      cbn [num_eq round_number] in *; try contradiction.
    rewrite HJ2. vm_compute. reflexivity.
Defined.

(** C7, as stated, fails for [isJulia = false]: the Julia constant is not
    written.  A user who has set the constant to [(0.3, 0.5)] and switched
    back to the Mandelbrot set shares a link that has no [jx]; loading it
    on the default state yields the default constant [(-0.7, 0.27015)]. *)
Lemma julia_constant_lost :
  let state := back_to_mandelbrot in
  exists params,
    updateUrl state = Some params
    /\ get "jx" params = None
    /\ juliaC state = {| x := 0.3; y := 0.5 |}
    /\ juliaC (loadState params DEFAULT_STATE) = {| x := -0.7; y := 0.27015 |}
    /\ ~ num_eq (x (juliaC (loadState params DEFAULT_STATE)))
                (round_number 10 (x (juliaC state))).
Proof.
  eexists. split; [vm_compute; reflexivity|].
  split; [reflexivity|]. split; [reflexivity|]. split; [reflexivity|].
  vm_compute. discriminate.
Qed.

(** *** Decoding *)

(** C8, amended.  The decoding path does no sanitizing: every numeric
    field that is present is stored as [parseFloat] (centre, zoom, Julia
    constant) or [parseInt(_, 10)] (iterations, palette) returns it, and
    the effect on the state hands it on as it is to the targets and the
    uniforms that the sampling loop reads. *)
Theorem decode_stores_raw (params : URLSearchParams) (prev : FractalState)
  (c : Renderer.Component) :
  let state := loadState params prev in
  let c' := Renderer.stateEffect state c in
  (forall sx sy, get "cx" params = Some sx -> get "cy" params = Some sy ->
      center state = {| x := parseFloat sx; y := parseFloat sy |}
      /\ Renderer.targetCenter (Renderer.view c')
         = {| x := parseFloat sx; y := parseFloat sy |})
  /\ (forall s, get "z" params = Some s ->
        zoom state = parseFloat s
        /\ Renderer.targetZoom (Renderer.view c') = parseFloat s)
  /\ (forall s, get "i" params = Some s ->
        maxIterations state = parseInt s
        /\ Renderer.u_maxIterations (Renderer.uniforms c') = parseInt s)
  /\ (forall s, get "p" params = Some s ->
        colorPalette state = parseInt s
        /\ Renderer.u_colorPalette (Renderer.uniforms c') = parseInt s)
  /\ (forall sx sy, get "jx" params = Some sx -> get "jy" params = Some sy ->
        juliaC state = {| x := parseFloat sx; y := parseFloat sy |}
        /\ Renderer.u_juliaC (Renderer.uniforms c')
           = {| x := parseFloat sx; y := parseFloat sy |}).
Proof.
  intros state c'. subst state c'.
  unfold loadState, loadFromUrl, has_keys.
  repeat split; intros;
    repeat match goal with
           | H : get _ params = Some _ |- _ => rewrite H; clear H
           end;
    cbn [option_map p_center p_zoom p_maxIterations p_colorPalette
         p_isJulia p_juliaC];
    repeat match goal with
           | |- context [get ?k params] => destruct (get k params)
           end;
    reflexivity.
Qed.

(** C8 at a link whose zoom is [1e3] and whose iteration count is not a
    number. *)
Lemma decode_stores_raw_witness :
  let params := [("z", "1e3"); ("i", "many")] in
  get "z" params = Some "1e3" /\ get "i" params = Some "many"
  /\ zoom (loadState params DEFAULT_STATE) = parseFloat "1e3"
  /\ maxIterations (loadState params DEFAULT_STATE) = NaN.
Proof.
  intros params. split; [reflexivity|]. split; [reflexivity|].
  destruct (decode_stores_raw params DEFAULT_STATE
              (Renderer.mount DEFAULT_STATE 1920 1080))
    as (_ & Hz & Hi & _).
  split.
  - apply (Hz "1e3"). reflexivity.
  - apply (Hi "many"). reflexivity.
Defined.

(** C8, as stated, fails: nothing is clamped or rejected.  A link with
    [z=abc], an empty [i] and [cx=Infinity] puts [NaN] in the zoom and in
    the iteration count and [Infinity] in the centre of the state; after
    the effect on the state and one frame they are in [u_maxIterations],
    [u_zoom] and [u_center]. *)
Lemma nan_reaches_the_sampler :
  let params := [("z", "abc"); ("i", ""); ("cx", "Infinity"); ("cy", "0")] in
  let state := loadState params DEFAULT_STATE in
  let c := Renderer.stateEffect state
             (Renderer.mount DEFAULT_STATE 1920 1080) in
  zoom state = NaN
  /\ maxIterations state = NaN
  /\ x (center state) = Inf false
  /\ Renderer.u_maxIterations (Renderer.uniforms c) = NaN
  /\ Renderer.targetZoom (Renderer.view c) = NaN
  /\ Renderer.u_zoom (Renderer.uniforms (Renderer.animate 16 c)) = NaN
  /\ x (Renderer.u_center (Renderer.uniforms (Renderer.animate 16 c)))
     = Inf false.
Proof. vm_compute. repeat split. Qed.

(** The value read back is within half a unit of the last decimal. *)
Lemma round_number_error (d : nat) (q : Q) :
  exists r, round_number d (Fin q) = Fin r
            /\ Qabs (r - q) <= (1 # 2) / inject_Z (Z.of_N (pow10 d)).
Proof. exists (roundTo d q). split; [reflexivity | apply roundTo_error]. Qed.

(** *** Parameters that are absent *)

(** X25.  Loading the parameters never touches [autoZoom] and
    [animationSpeed], and leaves every field whose parameter is absent as
    it was; the centre and the Julia constant need both of their
    parameters. *)
Theorem absent_parameters_change_nothing
  (params : URLSearchParams) (prev : FractalState) :
  let state := loadState params prev in
  autoZoom state = autoZoom prev
  /\ animationSpeed state = animationSpeed prev
  /\ (get "cx" params = None \/ get "cy" params = None ->
      center state = center prev)
  /\ (get "z" params = None -> zoom state = zoom prev)
  /\ (get "i" params = None -> maxIterations state = maxIterations prev)
  /\ (get "p" params = None -> colorPalette state = colorPalette prev)
  /\ (get "j" params = None -> isJulia state = isJulia prev)
  /\ (get "jx" params = None \/ get "jy" params = None ->
      juliaC state = juliaC prev).
Proof.
  intros state. subst state. unfold loadState, loadFromUrl, has_keys.
  cbn [p_center p_zoom p_maxIterations p_colorPalette p_isJulia p_juliaC
       p_autoZoom p_animationSpeed].
  destruct (get "cx" params), (get "cy" params), (get "z" params),
    (get "i" params), (get "p" params), (get "j" params),
    (get "jx" params), (get "jy" params);
    cbn [option_map setState or_else center zoom maxIterations colorPalette
         isJulia juliaC autoZoom animationSpeed p_center p_zoom
         p_maxIterations p_colorPalette p_isJulia p_juliaC p_autoZoom
         p_animationSpeed];
    repeat split; try reflexivity; intros H; try discriminate H;
    destruct H as [H|H]; discriminate H.
Qed.

(** X25 at a link with [cx] and [z] but no [cy]. *)
Lemma absent_parameters_change_nothing_witness :
  let params := [("cx", "1.5"); ("z", "4")] in
  (get "cx" params = None \/ get "cy" params = None)
  /\ center (loadState params DEFAULT_STATE) = center DEFAULT_STATE.
Proof.
  intros params.
  assert (H : get "cx" params = None \/ get "cy" params = None)
    by (right; reflexivity).
  split; [exact H|].
  destruct (absent_parameters_change_nothing params DEFAULT_STATE)
    as (_ & _ & Hc & _).
  exact (Hc H).
Defined.

(** *** What the second effect writes, and what the first reads back *)

Lemma updateUrl_params (state : FractalState) (params : URLSearchParams) :
  updateUrl state = Some params ->
  exists cx cy z i p : string,
    toFixed (x (center state)) 10 = Some cx
    /\ toFixed (y (center state)) 10 = Some cy
    /\ toFixed (zoom state) 6 = Some z
    /\ Number_toString (maxIterations state) = Some i
    /\ Number_toString (colorPalette state) = Some p
    /\ ((isJulia state = false
         /\ params = [("cx", cx); ("cy", cy); ("z", z); ("i", i); ("p", p)])
        \/ (isJulia state = true
            /\ exists jx jy : string,
                 toFixed (x (juliaC state)) 10 = Some jx
                 /\ toFixed (y (juliaC state)) 10 = Some jy
                 /\ params = [("cx", cx); ("cy", cy); ("z", z); ("i", i);
                              ("p", p); ("j", "1"); ("jx", jx); ("jy", jy)])).
Proof.
  unfold updateUrl.
  destruct (toFixed (x (center state)) 10) as [cx|]; [|discriminate].
  destruct (toFixed (y (center state)) 10) as [cy|]; [|discriminate].
  destruct (toFixed (zoom state) 6) as [z|]; [|discriminate].
  destruct (Number_toString (maxIterations state)) as [i|]; [|discriminate].
  destruct (Number_toString (colorPalette state)) as [p|]; [|discriminate].
  cbn [bind]. intros H. exists cx, cy, z, i, p.
  repeat (split; [reflexivity|]).
  destruct (isJulia state).
  - right. split; [reflexivity|].
    destruct (toFixed (x (juliaC state)) 10) as [jx|]; [|discriminate].
    destruct (toFixed (y (juliaC state)) 10) as [jy|]; [|discriminate].
    cbn [bind] in H. exists jx, jy.
    repeat (split; [reflexivity|]).
    injection H as <-. reflexivity.
  - left. split; [reflexivity|]. injection H as <-. reflexivity.
Qed.

Lemma loadState_mandelbrot_link (cx cy z i p : string) (prev : FractalState) :
  loadState [("cx", cx); ("cy", cy); ("z", z); ("i", i); ("p", p)] prev
  = {| center := {| x := parseFloat cx; y := parseFloat cy |};
       zoom := parseFloat z;
       maxIterations := parseInt i;
       colorPalette := parseInt p;
       isJulia := isJulia prev;
       juliaC := juliaC prev;
       autoZoom := autoZoom prev;
       animationSpeed := animationSpeed prev |}.
Proof. reflexivity. Qed.

Lemma loadState_julia_link (cx cy z i p jx jy : string) (prev : FractalState) :
  loadState [("cx", cx); ("cy", cy); ("z", z); ("i", i); ("p", p);
             ("j", "1"); ("jx", jx); ("jy", jy)] prev
  = {| center := {| x := parseFloat cx; y := parseFloat cy |};
       zoom := parseFloat z;
       maxIterations := parseInt i;
       colorPalette := parseInt p;
       isJulia := true;
       juliaC := {| x := parseFloat jx; y := parseFloat jy |};
       autoZoom := autoZoom prev;
       animationSpeed := animationSpeed prev |}.
Proof. reflexivity. Qed.

Lemma num_eq_Fin (a : number) (q : Q) :
  num_eq a (Fin q) -> exists r, a = Fin r /\ r == q.
Proof. destruct a as [r| |s]; cbn; try contradiction. now exists r. Qed.

Lemma num_eq_refl (a : number) : num_eq a a.
Proof. destruct a; cbn; reflexivity. Qed.

(** A finite field read back from a link is the field at [f] decimals. *)
Lemma float_field_read_back (q : Q) (f : nat) (s : string) :
  f <> 0%nat -> toFixed (Fin q) f = Some s ->
  exists r, parseFloat s = Fin r /\ r == roundTo f q.
Proof.
  intros Hf Hs.
  destruct (Qlt_le_dec (Qabs q) (10 ^ 21)) as [Hsmall|Hl].
  - destruct (parseFloat_toFixed q f Hf Hsmall) as (s0 & Es0 & Hr).
    assert (s0 = s) by congruence. subst s0.
    now apply num_eq_Fin.
  - assert (Hz : exists z, q == inject_Z z).
    { unfold toFixed, Number_toString in Hs.
      destruct (Qle_bool (10 ^ 21) (Qabs q)) eqn:E.
      - destruct (integral q) as [z|] eqn:Ez; [|discriminate].
        exists z. now apply integral_sound.
      - apply Qle_bool_iff in Hl. congruence. }
    destruct Hz as [z Hz].
    destruct (toFixed_large q z f Hl Hz) as [Es Hr].
    assert (E : sign_string (z <? 0)%Z ++ exponential (Z.abs_N z) = s)
      by congruence.
    rewrite E in Hr. destruct (num_eq_Fin _ _ Hr) as (r & Pr & Rr).
    exists r. split; [exact Pr|].
    rewrite Rr. symmetry. now apply roundTo_integer with z.
Qed.

Lemma pow10_10 : inject_Z (Z.of_N (pow10 10)) == 10000000000.
Proof. reflexivity. Qed.

Lemma pow10_6 : inject_Z (Z.of_N (pow10 6)) == 1000000.
Proof. reflexivity. Qed.

(** X26.  For a finite centre and zoom, whenever the link can be written,
    loading it gives a centre within [0.00000000005] of the original in
    each coordinate and a zoom within [0.0000005]. *)
Theorem shared_view_accuracy
  (state prev : FractalState) (params : URLSearchParams) (cx cy z : Q) :
  center state = {| x := Fin cx; y := Fin cy |} -> zoom state = Fin z ->
  updateUrl state = Some params ->
  exists cx' cy' z' : Q,
    center (loadState params prev) = {| x := Fin cx'; y := Fin cy' |}
    /\ zoom (loadState params prev) = Fin z'
    /\ Qabs (cx' - cx) <= 0.00000000005
    /\ Qabs (cy' - cy) <= 0.00000000005
    /\ Qabs (z' - z) <= 0.0000005.
Proof.
  intros Hc Hz Hu.
  destruct (updateUrl_params state params Hu)
    as (sx & sy & sz & si & sp & Ex & Ey & Ez & _ & _ & Hp).
  rewrite Hc in Ex, Ey. cbn [x y] in Ex, Ey. rewrite Hz in Ez.
  destruct (float_field_read_back cx 10 sx ltac:(discriminate) Ex)
    as (cx' & Px & Rx).
  destruct (float_field_read_back cy 10 sy ltac:(discriminate) Ey)
    as (cy' & Py & Ry).
  destruct (float_field_read_back z 6 sz ltac:(discriminate) Ez)
    as (z' & Pz & Rz).
  exists cx', cy', z'.
  assert (Hload : center (loadState params prev)
                  = {| x := parseFloat sx; y := parseFloat sy |}
                  /\ zoom (loadState params prev) = parseFloat sz).
  { destruct Hp as [[_ ->]|[_ (jx & jy & _ & _ & ->)]].
    - rewrite loadState_mandelbrot_link. split; reflexivity.
    - rewrite loadState_julia_link. split; reflexivity. }
  destruct Hload as [Lc Lz]. rewrite Lc, Lz, Px, Py, Pz.
  split; [reflexivity|]. split; [reflexivity|].
  pose proof (roundTo_error 10 cx) as Bx.
  pose proof (roundTo_error 10 cy) as By.
  pose proof (roundTo_error 6 z) as Bz.
  rewrite pow10_10 in Bx, By. rewrite pow10_6 in Bz.
  assert (E10 : (1 # 2) / 10000000000 == 0.00000000005) by reflexivity.
  assert (E6 : (1 # 2) / 1000000 == 0.0000005) by reflexivity.
  rewrite E10 in Bx, By. rewrite E6 in Bz.
  rewrite Rx, Ry, Rz. repeat split; assumption.
Qed.

(** X26 at the Julia view, whose centre has twelve decimals. *)
Lemma shared_view_accuracy_witness :
  exists params : URLSearchParams,
    updateUrl julia_view = Some params
    /\ exists cx' cy' z' : Q,
         center (loadState params DEFAULT_STATE)
         = {| x := Fin cx'; y := Fin cy' |}
         /\ Qabs (cx' - 0.123456789012) <= 0.00000000005.
Proof.
  eexists. split; [vm_compute; reflexivity|].
  match goal with
  | |- context [loadState ?p _] =>
      destruct (shared_view_accuracy julia_view DEFAULT_STATE p
                  0.123456789012 (-0.25) 2.5)
        as (cx' & cy' & z' & Hc & _ & Hx & _)
  end; try reflexivity.
  exists cx', cy', z'. split; assumption.
Defined.

(** X27.  A zoom below [0.0000005] in absolute value is written as
    [0.000000] (or [-0.000000]) and loads as zero. *)
Theorem tiny_zoom_is_shared_as_zero
  (state prev : FractalState) (params : URLSearchParams) (z : Q) :
  zoom state = Fin z -> Qabs z < 0.0000005 ->
  updateUrl state = Some params ->
  get "z" params = Some (sign_string (Qltb z 0) ++ "0.000000")
  /\ num_eq (zoom (loadState params prev)) (Fin 0).
Proof.
  intros Hz Hsmall Hu.
  destruct (updateUrl_params state params Hu)
    as (sx & sy & sz & si & sp & _ & _ & Ez & _ & _ & Hp).
  rewrite Hz in Ez.
  assert (Hn : Qfloor (Qabs z * inject_Z (Z.of_N (pow10 6)) + (1 # 2)) = 0%Z).
  { apply Qfloor_unique; rewrite pow10_6; change (inject_Z 0) with 0.
    - pose proof (Qabs_nonneg z). lra.
    - lra. }
  assert (Esz : sz = sign_string (Qltb z 0) ++ "0.000000").
  { unfold toFixed in Ez.
    assert (E : Qle_bool (10 ^ 21) (Qabs z) = false).
    { apply not_true_iff_false. intros E. apply Qle_bool_iff in E.
      assert (H1 : 1 <= 10 ^ 21) by discriminate. lra. }
    rewrite E, Hn in Ez. cbn in Ez. congruence. }
  assert (Hload : get "z" params = Some sz
                  /\ zoom (loadState params prev) = parseFloat sz).
  { destruct Hp as [[_ ->]|[_ (jx & jy & _ & _ & ->)]].
    - rewrite loadState_mandelbrot_link. split; reflexivity.
    - rewrite loadState_julia_link. split; reflexivity. }
  destruct Hload as [Lg Lz]. rewrite Lg, Lz, Esz. split; [reflexivity|].
  destruct (Qltb z 0); vm_compute; reflexivity.
Qed.

(** X27 at the zoom 0.0000004. *)
Lemma tiny_zoom_is_shared_as_zero_witness :
  let state :=
    setState DEFAULT_STATE
      {| p_center := None; p_zoom := Some (Fin 0.0000004);
         p_maxIterations := None; p_colorPalette := None; p_isJulia := None;
         p_juliaC := None; p_autoZoom := None; p_animationSpeed := None |} in
  Qabs 0.0000004 < 0.0000005
  /\ exists params : URLSearchParams,
       updateUrl state = Some params
       /\ num_eq (zoom (loadState params DEFAULT_STATE)) (Fin 0).
Proof.
  intros state. split; [reflexivity|].
  eexists. split; [vm_compute; reflexivity|].
  match goal with
  | |- context [loadState ?p _] =>
      apply (tiny_zoom_is_shared_as_zero state DEFAULT_STATE p 0.0000004)
  end; reflexivity.
Defined.

(** *** Sharing a loaded link again *)

Lemma roundTo_comp (d : nat) (q q' : Q) :
  q == q' -> roundTo d q == roundTo d q'.
Proof.
  intros H. unfold roundTo. rewrite H. reflexivity.
Qed.

(** Rounding a rounded value changes nothing. *)
Lemma roundTo_idempotent (d : nat) (q : Q) :
  roundTo d (roundTo d q) == roundTo d q.
Proof.
  unfold roundTo at 1 3.
  set (p := inject_Z (Z.of_N (pow10 d))).
  set (k := Qfloor (Qabs q * p + (1 # 2))).
  assert (Hp : 0 < p).
  { unfold p. change 0 with (inject_Z 0). rewrite <- Zlt_Qlt.
    pose proof (pow10_pos d). lia. }
  assert (Hp' : ~ p == 0) by lra.
  assert (Hk : (0 <= k)%Z) by apply rounded_nonneg.
  assert (Hk' : 0 <= inject_Z k).
  { change 0 with (inject_Z 0). now rewrite <- Zle_Qle. }
  assert (Hr : roundTo d q == signed (Qltb q 0) (inject_Z k / p)) by reflexivity.
  assert (Hkp : 0 <= inject_Z k / p).
  { apply Qle_shift_div_l; [exact Hp|]. now rewrite Qmult_0_l. }
  assert (Ha : Qabs (roundTo d q) == inject_Z k / p).
  { rewrite Hr. destruct (Qltb q 0); cbn [signed].
    - rewrite Qabs_opp. now apply Qabs_pos.
    - now apply Qabs_pos. }
  assert (Hf : Qfloor (Qabs (roundTo d q) * p + (1 # 2)) = k).
  { apply Qfloor_unique; rewrite Ha.
    - assert (E : inject_Z k / p * p == inject_Z k) by (field; exact Hp').
      rewrite E. lra.
    - assert (E : inject_Z k / p * p == inject_Z k) by (field; exact Hp').
      rewrite E. lra. }
  rewrite Hf.
  destruct (Z.eq_dec k 0) as [K0|K0].
  - rewrite K0. change (inject_Z 0) with 0.
    assert (E : 0 / p == 0) by (field; exact Hp').
    destruct (Qltb (roundTo d q) 0), (Qltb q 0); cbn [signed];
      rewrite E; reflexivity.
  - assert (Hpos : 0 < inject_Z k / p).
    { apply Qlt_shift_div_l; [exact Hp|]. rewrite Qmult_0_l.
      change 0 with (inject_Z 0). rewrite <- Zlt_Qlt. lia. }
    destruct (Qltb q 0) eqn:Es; cbn [signed] in Hr |- *.
    + assert (E : Qltb (roundTo d q) 0 = true).
      { apply Qltb_true. rewrite Hr. lra. }
      rewrite E. reflexivity.
    + assert (E : Qltb (roundTo d q) 0 = false).
      { apply Qltb_false. rewrite Hr. lra. }
      rewrite E. reflexivity.
Qed.

(** A field written at [f] decimals, read back, written again and read
    back again is what it was after the first reading. *)
Lemma float_field_stable (a : number) (f : nat) (s s' : string) :
  f <> 0%nat ->
  toFixed a f = Some s -> toFixed (parseFloat s) f = Some s' ->
  num_eq (parseFloat s') (parseFloat s).
Proof.
  intros Hf Hs Hs'. destruct a as [q| |[|]].
  - destruct (float_field_read_back q f s Hf Hs) as (r & Pr & Rr).
    rewrite Pr in Hs' |- *.
    destruct (float_field_read_back r f s' Hf Hs') as (r' & Pr' & Rr').
    rewrite Pr'. cbn [num_eq].
    rewrite Rr', (roundTo_comp f r (roundTo f q) Rr), roundTo_idempotent.
    symmetry. exact Rr.
  - cbn in Hs. injection Hs as <-.
    change (parseFloat "NaN") with NaN in *. cbn in Hs'.
    injection Hs' as <-. reflexivity.
  - cbn in Hs. injection Hs as <-.
    change (parseFloat "-Infinity") with (Inf true) in *. cbn in Hs'.
    injection Hs' as <-. reflexivity.
  - cbn in Hs. injection Hs as <-.
    change (parseFloat "Infinity") with (Inf false) in *. cbn in Hs'.
    injection Hs' as <-. reflexivity.
Qed.

Lemma int_field_read_back (q : Q) (s : string) :
  Qabs q < 10 ^ 21 ->
  Number_toString (Fin q) = Some s -> num_eq (parseInt s) (Fin q).
Proof.
  intros Hsmall Hs. pose proof Hs as Hs0. unfold Number_toString in Hs.
  destruct (integral q) as [z|] eqn:Ez; [|discriminate].
  pose proof (integral_sound q z Ez) as Hq.
  assert (Hz : (Z.abs z < 10 ^ 21)%Z).
  { rewrite Hq in Hsmall.
    change (Qabs (inject_Z z)) with (inject_Z (Z.abs z)) in Hsmall.
    change (10 ^ 21) with (inject_Z (10 ^ 21)) in Hsmall.
    now rewrite <- Zlt_Qlt in Hsmall. }
  destruct (parseInt_toString q z Hq Hz) as (s0 & Es0 & Hr).
  assert (s0 = s) by congruence. now subst s0.
Qed.

Lemma int_field_stable (a : number) (s s' : string) :
  Number_toString a = Some s -> Number_toString (parseInt s) = Some s' ->
  num_eq (parseInt s') (parseInt s).
Proof.
  intros Hs Hs'. destruct a as [q| |[|]].
  - destruct (Qlt_le_dec (Qabs q) (10 ^ 21)) as [Hsmall|Hl].
    + destruct (num_eq_Fin _ _ (int_field_read_back q s Hsmall Hs))
        as (r & Pr & Rr).
      rewrite Pr in Hs' |- *. apply int_field_read_back; [|exact Hs'].
      now rewrite Rr.
    + unfold Number_toString in Hs.
      destruct (integral q) as [z|]; [|discriminate].
      assert (E : Qltb (Qabs q) (10 ^ 21) = false) by now apply Qltb_false.
      rewrite E in Hs. injection Hs as <-.
      destruct (parseInt_exponential (z <? 0)%Z (Z.abs_N z))
        as (d & Hd & Pd).
      rewrite Pd in Hs' |- *. apply int_field_read_back; [|exact Hs'].
      assert (Ha : Qabs (signed (z <? 0)%Z (inject_Z (Z.of_N d)))
                   == inject_Z (Z.of_N d)).
      { destruct (z <? 0)%Z; cbn [signed].
        - rewrite Qabs_opp. apply Qabs_pos.
          change 0 with (inject_Z 0). rewrite <- Zle_Qle. lia.
        - apply Qabs_pos. change 0 with (inject_Z 0). rewrite <- Zle_Qle. lia. }
      rewrite Ha. change (10 ^ 21) with (inject_Z (10 ^ 21)).
      rewrite <- Zlt_Qlt. lia.
  - cbn in Hs. injection Hs as <-.
    change (parseInt "NaN") with NaN in *. cbn in Hs'.
    injection Hs' as <-. reflexivity.
  - cbn in Hs. injection Hs as <-.
    change (parseInt "-Infinity") with NaN in *. cbn in Hs'.
    injection Hs' as <-. reflexivity.
  - cbn in Hs. injection Hs as <-.
    change (parseInt "Infinity") with NaN in *. cbn in Hs'.
    injection Hs' as <-. reflexivity.
Qed.

(** X28.  Loading a link into a state whose Julia flag is off, writing
    the loaded state and loading that second link gives the loaded state
    again: the rounding of the first round trip is the only loss. *)
Theorem resharing_is_stable
  (state prev : FractalState) (params params' : URLSearchParams) :
  isJulia prev = false ->
  updateUrl state = Some params ->
  updateUrl (loadState params prev) = Some params' ->
  same_state (loadState params' prev) (loadState params prev).
Proof.
  intros HJ Hu Hu'.
  destruct (updateUrl_params state params Hu)
    as (sx & sy & sz & si & sp & Ex & Ey & Ez & Ei & Ep & Hp).
  destruct (updateUrl_params _ params' Hu')
    as (sx' & sy' & sz' & si' & sp' & Ex' & Ey' & Ez' & Ei' & Ep' & Hp').
  pose proof (float_field_stable _ 10 sx sx' ltac:(discriminate) Ex) as Sx.
  pose proof (float_field_stable _ 10 sy sy' ltac:(discriminate) Ey) as Sy.
  pose proof (float_field_stable _ 6 sz sz' ltac:(discriminate) Ez) as Sz.
  pose proof (int_field_stable _ si si' Ei) as Si.
  pose proof (int_field_stable _ sp sp' Ep) as Sp.
  destruct Hp as [[J ->]|[J (jx & jy & Ejx & Ejy & ->)]].
  - rewrite loadState_mandelbrot_link in *.
    cbn [center zoom maxIterations colorPalette isJulia juliaC x y] in *.
    destruct Hp' as [[J' ->]|[J' _]]; [|congruence].
    rewrite loadState_mandelbrot_link.
    unfold same_state, Renderer.point_eq.
    cbn [center zoom maxIterations colorPalette isJulia juliaC autoZoom
         animationSpeed x y].
    repeat split; auto using num_eq_refl.
  - rewrite loadState_julia_link in *.
    cbn [center zoom maxIterations colorPalette isJulia juliaC x y] in *.
    destruct Hp' as [[J' _]|[J' (jx' & jy' & Ejx' & Ejy' & ->)]];
      [discriminate|].
    pose proof (float_field_stable _ 10 jx jx' ltac:(discriminate) Ejx) as Sjx.
    pose proof (float_field_stable _ 10 jy jy' ltac:(discriminate) Ejy) as Sjy.
    rewrite loadState_julia_link.
    unfold same_state, Renderer.point_eq.
    cbn [center zoom maxIterations colorPalette isJulia juliaC autoZoom
         animationSpeed x y].
    repeat split; auto using num_eq_refl.
Qed.

(** X28 at the Julia view, loaded into the default state. *)
Lemma resharing_is_stable_witness :
  isJulia DEFAULT_STATE = false
  /\ exists params params' : URLSearchParams,
       updateUrl julia_view = Some params
       /\ updateUrl (loadState params DEFAULT_STATE) = Some params'
       /\ same_state (loadState params' DEFAULT_STATE)
                     (loadState params DEFAULT_STATE).
Proof.
  split; [reflexivity|].
  eexists. eexists. split; [vm_compute; reflexivity|].
  split; [vm_compute; reflexivity|].
  apply (resharing_is_stable julia_view DEFAULT_STATE);
    [reflexivity | vm_compute; reflexivity | vm_compute; reflexivity].
Defined.

End UrlStateFacts.

(** ** The heads-up display *)

Module HUDFacts.
Import JS Types Renderer RendererFacts UrlState UrlStateFacts HUD.
Open Scope string_scope.
Open Scope Q_scope.

Example formatZoom_samples :
  (formatZoom 1.0, formatZoom 999.94, formatZoom 999.95, formatZoom 1000,
   formatZoom 1500000, formatZoom NaN, formatZoom (-3))
  = (Some "1.0x", Some "999.9x", Some "1000.0x", Some "1.0K",
     Some "1.5M", Some "NaNB", Some "-3.0x").
Proof. vm_compute. reflexivity. Qed.

(** X29.  [formatZoom] picks the unit before it rounds: a zoom in
    [999.95, 1000) is shown as [1000.0x], in [999950, 1000000) as
    [1000.0K] and in [999950000, 1000000000) as [1000.0M]. *)
Theorem formatZoom_rounds_past_its_unit (q : Q) :
  (999.95 <= q < 1000 -> formatZoom (Fin q) = Some "1000.0x")
  /\ (999950 <= q < 1000000 -> formatZoom (Fin q) = Some "1000.0K")
  /\ (999950000 <= q < 1000000000 -> formatZoom (Fin q) = Some "1000.0M").
Proof.
  assert (R : forall r : Q,
             999.95 <= r -> r < 1000 -> toFixed (Fin r) 1 = Some "1000.0").
  { intros r Hlo Hhi. unfold toFixed.
    assert (Ha : Qabs r == r) by (apply Qabs_pos; lra).
    assert (E1 : Qle_bool (10 ^ 21) (Qabs r) = false).
    { apply not_true_iff_false. intros E. apply Qle_bool_iff in E.
      rewrite Ha in E. assert (1000 < 10 ^ 21) by reflexivity. lra. }
    assert (E2 : Qltb r 0 = false) by (apply Qltb_false; lra).
    assert (E3 : Qfloor (Qabs r * inject_Z (Z.of_N (pow10 1)) + (1 # 2))
                 = 10000%Z).
    { apply Qfloor_unique; rewrite Ha;
        change (inject_Z (Z.of_N (pow10 1))) with 10;
        change (inject_Z 10000) with 10000; lra. }
    rewrite E1, E2, E3. reflexivity. }
  assert (L : forall a b : Q, a < b -> lt (Fin a) (Fin b) = true).
  { intros a b H. unfold lt. rewrite RendererFacts.gt_Fin. now apply Qltb_true. }
  assert (G : forall a b : Q, b <= a -> lt (Fin a) (Fin b) = false).
  { intros a b H. unfold lt. rewrite RendererFacts.gt_Fin. now apply Qltb_false. }
  split; [|split]; intros [Hlo Hhi]; unfold formatZoom.
  - rewrite (L q 1000) by lra. rewrite R by lra. reflexivity.
  - rewrite (G q 1000) by lra. rewrite (L q 1000000) by lra.
    rewrite RendererFacts.ndiv_Fin by discriminate.
    rewrite R; [reflexivity | |].
    + apply Qle_shift_div_l; [reflexivity|]. lra.
    + apply Qlt_shift_div_r; [reflexivity|]. lra.
  - rewrite (G q 1000) by lra. rewrite (G q 1000000) by lra.
    rewrite (L q 1000000000) by lra.
    rewrite RendererFacts.ndiv_Fin by discriminate.
    rewrite R; [reflexivity | |].
    + apply Qle_shift_div_l; [reflexivity|]. lra.
    + apply Qlt_shift_div_r; [reflexivity|]. lra.
Qed.

(** X29 at the zoom 999.97. *)
Lemma formatZoom_rounds_past_its_unit_witness :
  999.95 <= 999.97 < 1000 /\ formatZoom (Fin 999.97) = Some "1000.0x".
Proof.
  assert (H : 999.95 <= 999.97 < 1000) by (split; [discriminate | reflexivity]).
  split; [exact H|].
  apply (proj1 (formatZoom_rounds_past_its_unit 999.97) H).
Defined.



End HUDFacts.
